(** * rethinkdb-ts-migrate: the migration planner and executor

    A shallow embedding of [src/migrate.ts] (and of the compiled variant
    [lib/migrate.js], which differs only in draining the connection pool)
    together with the properties its specification states about it.

    Conventions.
    - A JavaScript string is a [string]: a sequence of code units, each
      below 256.  Among those, the line terminators of a regular expression
      are line feed and carriage return.
    - The RethinkDB server is a finite map from database names to finite maps
      from table names to tables; a table is a finite map from primary keys to
      documents plus the set of its secondary indexes.
    - An [async] function is a computation in the monad [M]: it threads the
      world and either returns or throws.
    - A migration procedure receives the query builder; here it acts on the
      part of the database that is not the bookkeeping table ([U]), and its
      completion is either normal or a thrown value. *)

From Stdlib Require Import Ascii String.
From stdpp Require Import gmap strings list sorting.

Local Open Scope Z_scope.

(** ** JavaScript string and array primitives used by the program *)

Module Js.

(** [s.indexOf(c)] for a one-character search string: [-1] when absent. *)
Fixpoint indexOf (c : ascii) (s : string) : Z :=
  match s with
  | EmptyString => -1
  | String a s' =>
      if decide (a = c) then 0
      else let i := indexOf c s' in if decide (i < 0) then -1 else 1 + i
  end.

(** [s.lastIndexOf(c)] for a one-character search string. *)
Fixpoint lastIndexOf (c : ascii) (s : string) : Z :=
  match s with
  | EmptyString => -1
  | String a s' =>
      let i := lastIndexOf c s' in
      if decide (i < 0) then (if decide (a = c) then 0 else -1) else 1 + i
  end.

Definition len (s : string) : Z := Z.of_nat (String.length s).

(** [s.substring(a, b)]: both ends are clamped to [0 .. length] and
    swapped when out of order. *)
Definition substring (s : string) (a b : Z) : string :=
  let a' := Z.min (Z.max a 0) (len s) in
  let b' := Z.min (Z.max b 0) (len s) in
  let from := Z.min a' b' in
  let to := Z.max a' b' in
  String.substring (Z.to_nat from) (Z.to_nat (to - from)) s.

(** [a > b] on strings: lexicographic on code units, a proper prefix
    being smaller. *)
Definition gt (a b : string) : bool := String.ltb b a.

(** [xs.slice(start, end)]: a negative bound counts from the end. *)
Definition slice {A} (xs : list A) (start end_ : Z) : list A :=
  let n := Z.of_nat (length xs) in
  let k := if decide (start < 0) then Z.max (n + start) 0 else Z.min start n in
  let e := if decide (end_ < 0) then Z.max (n + end_) 0 else Z.min end_ n in
  take (Z.to_nat (e - k)) (drop (Z.to_nat k) xs).

(** [xs.join(sep)] on an array of strings. *)
Definition join (sep : string) (xs : list string) : string := String.concat sep xs.

End Js.

(** ** Regular expressions, matched by derivatives *)

Module Rx.

Inductive t : Type :=
| Void                      (* matches nothing *)
| Eps                       (* the empty string *)
| Lit (c : ascii)           (* a literal character *)
| Digit                     (* \d *)
| Dot                       (* . : any character but a line terminator *)
| Cat (r1 r2 : t)
| Alt (r1 r2 : t)
| Star (r : t).

Definition is_digit (c : ascii) : bool :=
  let n := N_of_ascii c in (48 <=? n)%N && (n <=? 57)%N.

Definition is_line_terminator (c : ascii) : bool :=
  let n := N_of_ascii c in (n =? 10)%N || (n =? 13)%N.

Fixpoint nullable (r : t) : bool :=
  match r with
  | Void | Lit _ | Digit | Dot => false
  | Eps | Star _ => true
  | Cat r1 r2 => nullable r1 && nullable r2
  | Alt r1 r2 => nullable r1 || nullable r2
  end.

Fixpoint deriv (c : ascii) (r : t) : t :=
  match r with
  | Void | Eps => Void
  | Lit a => if decide (a = c) then Eps else Void
  | Digit => if is_digit c then Eps else Void
  | Dot => if is_line_terminator c then Void else Eps
  | Cat r1 r2 =>
      if nullable r1 then Alt (Cat (deriv c r1) r2) (deriv c r2)
      else Cat (deriv c r1) r2
  | Alt r1 r2 => Alt (deriv c r1) (deriv c r2)
  | Star r1 => Cat (deriv c r1) (Star r1)
  end.

(** An anchored match [/^r$/]: the whole string is in the language. *)
Fixpoint matches (r : t) (s : string) : bool :=
  match s with
  | EmptyString => nullable r
  | String c s' => matches (deriv c r) s'
  end.

(** [r{n}] *)
Fixpoint times (n : nat) (r : t) : t :=
  match n with
  | O => Eps
  | S n' => Cat r (times n' r)
  end.

(** The language of a regular expression. *)
Inductive lang : t → string → Prop :=
| lang_eps : lang Eps ""
| lang_lit c : lang (Lit c) (String c "")
| lang_digit c : is_digit c = true → lang Digit (String c "")
| lang_dot c : is_line_terminator c = false → lang Dot (String c "")
| lang_cat r1 r2 s1 s2 : lang r1 s1 → lang r2 s2 → lang (Cat r1 r2) (s1 +:+ s2)
| lang_alt_l r1 r2 s : lang r1 s → lang (Alt r1 r2) s
| lang_alt_r r1 r2 s : lang r2 s → lang (Alt r1 r2) s
| lang_star_nil r : lang (Star r) ""
| lang_star_cons r s1 s2 : lang r s1 → lang (Star r) s2 → lang (Star r) (s1 +:+ s2).

End Rx.

(** ** The program's constants *)

Definition MIGRATION_TABLE_NAME : string := "_migrations".

(** [/^\d{14}-.*\.(js|ts)$/] *)
Definition rxMigrationFile : Rx.t :=
  Rx.Cat (Rx.times 14 Rx.Digit)
    (Rx.Cat (Rx.Lit "-")
       (Rx.Cat (Rx.Star Rx.Dot)
          (Rx.Cat (Rx.Lit ".")
             (Rx.Alt (Rx.Cat (Rx.Lit "j") (Rx.Lit "s"))
                     (Rx.Cat (Rx.Lit "t") (Rx.Lit "s")))))).


(** ** Data *)

(** A primary key.  RethinkDB generates one (a UUID) for a document inserted
    without an [id]. *)
Abbreviation Id := positive (only parsing).

(** A value that can be thrown. *)
Module Exn.
Inductive t : Type :=
| Falsy                                       (* [undefined], [null], ... *)
| Object (message : string) (stack : string). (* an [Error]; no stack is [""] *)
End Exn.

(** The outcome of a call: a returned value or a thrown one. *)
Inductive Result (A : Type) : Type :=
| Ok (a : A)
| Throw (e : Exn.t).
Arguments Ok {A} a.
Arguments Throw {A} e.

(** [type MigrationFn = (r: R) => void] *)
Definition MigrationFn (U : Type) : Type := U → Result unit * U.

(** [interface MigrationFile] *)
Module MigrationFile.
Record t (U : Type) : Type := mk { up : MigrationFn U; down : MigrationFn U }.
Arguments mk {U} up down.
Arguments up {U} _.
Arguments down {U} _.
End MigrationFile.

(** The object returned by [getConfig]. *)
Module Config.
Record t : Type := mk {
  host : string;
  port : Z;
  user : string;
  password : string;
  db : string;
  discovery : bool;
  timeout : Z;
  authKey : option string;
  ssl : bool;
}.
End Config.

(** [interface Params] *)
Module Params.
Record t : Type := mk { root : option string; all : option bool }.
End Params.

(** [interface Migration]: a document of the bookkeeping table as read back. *)
Module Migration.
Record t : Type := mk { id : Id; name : string; timestamp : string }.
End Migration.

(** The document [{name, timestamp}] that [up] inserts. *)
Module Doc.
Record t : Type := mk { name : string; timestamp : string }.
End Doc.

(** The object literal built from a filename in [getMigrationsExcept]. *)
Module Candidate.
Record t : Type := mk { name : string; timestamp : string; filename : string }.
End Candidate.

(** [{...migration, code}] as returned by [getMigrationsExcept]. *)
Module UpMigration.
Record t (U : Type) : Type := mk {
  name : string;
  timestamp : string;
  filename : string;
  code : MigrationFile.t U;
}.
Arguments mk {U} name timestamp filename code.
Arguments name {U} _.
Arguments timestamp {U} _.
Arguments filename {U} _.
Arguments code {U} _.
End UpMigration.

(** [{...migration, filename, code}] as returned by [requireMigrations]. *)
Module DownMigration.
Record t (U : Type) : Type := mk {
  id : Id;
  name : string;
  timestamp : string;
  filename : string;
  code : MigrationFile.t U;
}.
Arguments mk {U} id name timestamp filename code.
Arguments id {U} _.
Arguments name {U} _.
Arguments timestamp {U} _.
Arguments filename {U} _.
Arguments code {U} _.
End DownMigration.

(** ** The database server *)

Module Table.
Record t : Type := mk { docs : gmap Id Doc.t; indexes : gset string }.
Definition empty : t := mk ∅ ∅.
End Table.

Abbreviation Server := (gmap string (gmap string Table.t)) (only parsing).

Definition get_table (db table : string) (s : Server) : option Table.t :=
  s !! db ≫= λ tables, tables !! table.

Definition set_table (db table : string) (t : Table.t) (s : Server) : Server :=
  match s !! db with
  | Some tables => <[db := <[table := t]> tables]> s
  | None => s
  end.

(** The order of the secondary index on [timestamp]: by timestamp, then by
    primary key. *)
Definition index_le (a b : Migration.t) : Prop :=
  if decide (Migration.timestamp a = Migration.timestamp b)
  then (Migration.id a ≤ Migration.id b)%positive
  else String.le (Migration.timestamp a) (Migration.timestamp b).

Global Instance index_le_dec : RelDecision index_le.
Proof. intros a b. unfold index_le. case_decide; apply _. Defined.

Definition rows (t : Table.t) : list Migration.t :=
  (λ kv, Migration.mk kv.1 (Doc.name kv.2) (Doc.timestamp kv.2)) <$> map_to_list (Table.docs t).

(** ** Effects *)

Inductive Direction : Type := Up | Down.

Inductive Query : Type :=
| DbList
| DbCreate (db : string)
| TableList
| TableCreate (table : string)
| IndexCreate (table index : string)
| IndexWait (table : string)
| Wait (db : string)
| OrderBy (table index : string)
| Insert (table : string) (doc : Doc.t)
| Delete (table : string) (id : Id).

(** What an invocation does that can be observed, in order. *)
Inductive Event : Type :=
| ConsoleLog (line : string)
| ConsoleError (line : string)
| ConsoleErrorValue (e : Exn.t)
| Readdir (dir : string)
| Required (path : string)
| Invoke (d : Direction) (filename : string)
| Run (q : Query)
| PoolConnect (db : string)
| PoolDrain.

Module World.
Record t (U : Type) : Type := mk {
  server : Server;                 (* the databases *)
  pool : option string;            (* the connection pool and its default database *)
  user : U;                        (* what migration procedures act on *)
  dirs : gmap string (list string);(* directories, each with its entries in scan order *)
  trace : list Event;              (* the events so far, oldest first *)
}.
Arguments mk {U} server pool user dirs trace.
Arguments server {U} _.
Arguments pool {U} _.
Arguments user {U} _.
Arguments dirs {U} _.
Arguments trace {U} _.

Definition with_server {U} (s : Server) (w : t U) : t U :=
  mk s (pool w) (user w) (dirs w) (trace w).
Definition with_pool {U} (p : option string) (w : t U) : t U :=
  mk (server w) p (user w) (dirs w) (trace w).
Definition with_user {U} (u : U) (w : t U) : t U :=
  mk (server w) (pool w) u (dirs w) (trace w).
Definition emit {U} (e : Event) (w : t U) : t U :=
  mk (server w) (pool w) (user w) (dirs w) (trace w ++ [e]).
End World.

(** An [async] function: it threads the world and returns or throws. *)
Definition M (U A : Type) : Type := World.t U → Result A * World.t U.

Definition ret {U A} (a : A) : M U A := λ w, (Ok a, w).

Definition throw {U A} (e : Exn.t) : M U A := λ w, (Throw e, w).

Definition bind {U A B} (k : A → M U B) (m : M U A) : M U B :=
  λ w, match m w with
       | (Ok a, w') => k a w'
       | (Throw e, w') => (Throw e, w')
       end.

Global Instance M_ret {U} : MRet (M U) := @ret U.
Global Instance M_bind {U} : MBind (M U) := @bind U.

(** [try { m } catch (e) { ... }] with the handler left to the caller. *)
Definition attempt {U A} (m : M U A) : M U (Result A) :=
  λ w, match m w with
       | (r, w') => (Ok r, w')
       end.

Definition emit {U} (e : Event) : M U unit := λ w, (Ok tt, World.emit e w).

Fixpoint mapM {U A B} (f : A → M U B) (xs : list A) : M U (list B) :=
  match xs with
  | [] => mret []
  | x :: xs' => y ← f x; ys ← mapM f xs'; mret (y :: ys)
  end.

(** ** The queries of rethinkdb-ts that the program runs *)

Module R.
Section Queries.
Context {U : Type}.

Definition error (msg : string) : Exn.t := Exn.Object msg "".

(** [query.run()]: a query runs on the connection pool, against the
server; the pool's default database is the one tables are looked up in. *)
Definition run {A} (q : Query) (f : string → Server → Result A * Server) : M U A :=
λ w, match World.pool w with
   | None => (Throw (error "no connection pool"), w)
   | Some d =>
       let w1 := World.emit (Run q) w in
       let '(r, s') := f d (World.server w1) in
       (r, World.with_server s' w1)
   end.

(** [r.connectPool(config)] *)
Definition connectPool (config : Config.t) : M U unit :=
λ w, (Ok tt, World.emit (PoolConnect (Config.db config))
             (World.with_pool (Some (Config.db config)) w)).

(** [r.getPoolMaster()?.drain()] *)
Definition drain : M U unit :=
λ w, match World.pool w with
   | None => (Ok tt, w)
   | Some _ => (Ok tt, World.emit PoolDrain (World.with_pool None w))
   end.

(** [r.dbList()] *)
Definition dbList : M U (list string) :=
run DbList (λ _ s, (Ok (elements (dom s)), s)).

(** [r.dbCreate(db)] *)
Definition dbCreate (db : string) : M U unit :=
run (DbCreate db) (λ _ s,
match s !! db with
| Some _ => (Throw (error "database already exists"), s)
| None => (Ok tt, <[db := ∅]> s)
end).

(** [r.tableList()] *)
Definition tableList : M U (list string) :=
run TableList (λ d s,
match s !! d with
| None => (Throw (error "database does not exist"), s)
| Some tables => (Ok (elements (dom tables)), s)
end).

(** [r.tableCreate(table)] *)
Definition tableCreate (table : string) : M U unit :=
run (TableCreate table) (λ d s,
match s !! d with
| None => (Throw (error "database does not exist"), s)
| Some tables =>
    match tables !! table with
    | Some _ => (Throw (error "table already exists"), s)
    | None => (Ok tt, <[d := <[table := Table.empty]> tables]> s)
    end
end).

(** [r.table(table).indexCreate(index)] *)
Definition indexCreate (table index : string) : M U unit :=
run (IndexCreate table index) (λ d s,
match get_table d table s with
| None => (Throw (error "table does not exist"), s)
| Some t =>
    if decide (index ∈ Table.indexes t)
    then (Throw (error "index already exists"), s)
    else (Ok tt, set_table d table
                   (Table.mk (Table.docs t) ({[index]} ∪ Table.indexes t)) s)
end).

(** [r.table(table).indexWait()] *)
Definition indexWait (table : string) : M U unit :=
run (IndexWait table) (λ d s,
match get_table d table s with
| None => (Throw (error "table does not exist"), s)
| Some _ => (Ok tt, s)
end).

(** [r.db(db).wait({waitFor: 'ready_for_writes'})] *)
Definition wait (db : string) : M U unit :=
run (Wait db) (λ _ s,
match s !! db with
| None => (Throw (error "database does not exist"), s)
| Some _ => (Ok tt, s)
end).

(** [r.table(table).orderBy({index})]: the documents in index order. *)
Definition orderBy (table index : string) : M U (list Migration.t) :=
run (OrderBy table index) (λ d s,
match get_table d table s with
| None => (Throw (error "table does not exist"), s)
| Some t =>
    if decide (index ∈ Table.indexes t)
    then (Ok (merge_sort index_le (rows t)), s)
    else (Throw (error "index was not found"), s)
end).

(** [r.table(table).insert(doc)]: the document gets a generated key. *)
Definition insert (table : string) (doc : Doc.t) : M U unit :=
run (Insert table doc) (λ d s,
match get_table d table s with
| None => (Throw (error "table does not exist"), s)
| Some t =>
    (Ok tt, set_table d table
              (Table.mk (<[fresh (dom (Table.docs t)) := doc]> (Table.docs t))
                        (Table.indexes t)) s)
end).

(** [r.table(table).get(id).delete()] *)
Definition delete (table : string) (id : Id) : M U unit :=
run (Delete table id) (λ d s,
match get_table d table s with
| None => (Throw (error "table does not exist"), s)
| Some t =>
    (Ok tt, set_table d table
              (Table.mk (base.delete id (Table.docs t)) (Table.indexes t)) s)
end).

End Queries.
End R.

(** ** The program *)

Section Program.
Context {U : Type}.

(** The environment the program runs in. *)
Variable path_join : list string → string.          (* [path.join] *)
Variable require : string → Result (MigrationFile.t U). (* [require], by requested path *)
Variable getConfig : string → Config.t.              (* the configuration read below a root *)
Variable cwd : string.                               (* [process.cwd()] *)
Variable chalk : string → string → string.           (* a chalk style applied to a text *)

(** [fs.readdir(dir)] *)
Definition readdir (dir : string) : M U (list string) :=
  λ w, match World.dirs w !! dir with
       | Some files => (Ok files, World.emit (Readdir dir) w)
       | None => (Throw (Exn.Object "ENOENT: no such file or directory" ""),
                  World.emit (Readdir dir) w)
       end.

(** [require(path) as MigrationFile] *)
Definition load (path : string) : M U (MigrationFile.t U) :=
  λ w, (require path, World.emit (Required path) w).

(** [await fn(r)] for a migration procedure [fn] of the file [filename]. *)
Definition invoke (d : Direction) (filename : string) (fn : MigrationFn U) : M U unit :=
  λ w, let w1 := World.emit (Invoke d filename) w in
       let '(r, u') := fn (World.user w1) in
       (r, World.with_user u' w1).

Definition logInfo (args : list string) : M U unit :=
  emit (ConsoleLog (Js.join " " (chalk "blue" "[migrate-rethinkdb]" :: args))).

Definition logError (txt : string) (error : Exn.t) : M U unit :=
  emit (ConsoleError (chalk "red" "[migrate-rethinkdb] " +:+ txt));;
  match error with
  | Exn.Falsy => mret tt
  | Exn.Object _ stack =>
      emit (ConsoleErrorValue error);;
      if decide (stack = "") then mret tt else emit (ConsoleError stack)
  end.

Definition connectToDb (config : Config.t) : M U unit :=
  R.connectPool config;;
  dbs ← R.dbList;
  (if bool_decide (Config.db config ∈ dbs) then mret tt
   else R.dbCreate (Config.db config));;
  tables ← R.tableList;
  (if bool_decide (MIGRATION_TABLE_NAME ∈ tables) then mret tt
   else
     R.tableCreate MIGRATION_TABLE_NAME;;
     R.indexCreate MIGRATION_TABLE_NAME "timestamp";;
     R.indexWait MIGRATION_TABLE_NAME);;
  R.wait (Config.db config).

(** The object built from one filename. *)
Definition parse (filename : string) : Candidate.t :=
  let tsix := Js.indexOf "-" filename in
  Candidate.mk
    (Js.substring filename (tsix + 1) (Js.lastIndexOf "." filename))
    (Js.substring filename 0 tsix)
    filename.

(** [completedMigration ? migration.timestamp > completedMigration.timestamp : true] *)
Definition is_newer (completedMigration : option Migration.t)
    (migration : Candidate.t) : bool :=
  match completedMigration with
  | Some c => Js.gt (Candidate.timestamp migration) (Migration.timestamp c)
  | None => true
  end.

(** [migrations] in [getMigrationsExcept]. *)
Definition migrations_of (completedMigration : option Migration.t)
    (files : list string) : list Candidate.t :=
  let migrationFiles := filter (λ file, Rx.matches rxMigrationFile file) files in
  filter (λ migration, is_newer completedMigration migration)
         (parse <$> migrationFiles).

(** [migrationsToApply] in [getMigrationsExcept]. *)
Definition migrationsToApply (completedMigration : option Migration.t)
    (files : list string) (numToApply : Z) : list Candidate.t :=
  let migrations := migrations_of completedMigration files in
  if decide (numToApply ≠ -1) then Js.slice migrations 0 numToApply else migrations.

Definition getMigrationsExcept (completedMigration : option Migration.t)
    (root : string) (numToApply : Z) : M U (list (UpMigration.t U)) :=
  let dir := path_join [root; "migrations"] in
  files ← readdir dir;
  let migrationsToApply := migrationsToApply completedMigration files numToApply in
  codes ← mapM (λ migration, load (path_join [dir; Candidate.filename migration]))
               migrationsToApply;
  mret (zip_with (λ migration code,
                    UpMigration.mk (Candidate.name migration)
                      (Candidate.timestamp migration)
                      (Candidate.filename migration) code)
                 migrationsToApply codes).

(** An element of the array may be [undefined] ([None]); reading a
    property of it throws. *)
Definition requireMigrations (migrations : list (option Migration.t)) (root : string)
    : M U (list (DownMigration.t U)) :=
  mapM (λ entry,
          match entry with
          | None => throw (Exn.Object "TypeError: cannot read properties of undefined" "")
          | Some migration =>
              let filename :=
                Migration.timestamp migration +:+ "-" +:+ Migration.name migration in
              let filepath := path_join [root; "migrations"; filename] in
              code ← load filepath;
              mret (DownMigration.mk (Migration.id migration) (Migration.name migration)
                      (Migration.timestamp migration) filename code)
          end)
       migrations.

(** How the body of a loop ends: by falling through to the next round, or
    by [return]. *)
Inductive Flow : Type := Next | Return.

(** [root || process.cwd()] *)
Definition rootDir_of (root : option string) : string :=
  match root with
  | Some r => if decide (r = "") then cwd else r
  | None => cwd
  end.

(** [all ? -1 : 1] *)
Definition numToApply_of (all : option bool) : Z :=
  match all with
  | Some true => -1
  | _ => 1
  end.

(** The [for] loop of [up]. *)
Fixpoint up_loop (migrations : list (UpMigration.t U)) : M U Flow :=
  match migrations with
  | [] => mret Next
  | migration :: rest =>
      logInfo [chalk "black.bgGreen" " ↑  up  ↑ "; UpMigration.timestamp migration;
               chalk "yellow" (UpMigration.name migration)];;
      let name := UpMigration.name migration in
      let timestamp := UpMigration.timestamp migration in
      r ← attempt (invoke Up (UpMigration.filename migration)
                     (MigrationFile.up (UpMigration.code migration)));
      match r with
      | Throw e => logError ("Migration failed: " +:+ name) e;; mret Return
      | Ok _ =>
          R.insert MIGRATION_TABLE_NAME (Doc.mk name timestamp);;
          up_loop rest
      end
  end.

Definition up (params : Params.t) : M U unit :=
  let all := Params.all params in
  let root := Params.root params in
  let rootDir := rootDir_of root in
  connectToDb (getConfig rootDir);;
  completedMigrations ← R.orderBy MIGRATION_TABLE_NAME "timestamp";
  let latest := last completedMigrations in
  let numToApply := numToApply_of all in
  migrations ← getMigrationsExcept latest rootDir numToApply;
  if decide (length migrations < 1)%nat then logInfo ["No new migrations"]
  else
    flow ← up_loop migrations;
    match flow with
    | Return => mret tt
    | Next => logInfo ["Migration Successful"]
    end.

(** [all ? completedMigrations.reverse()
         : [completedMigrations[completedMigrations.length - 1]]] *)
Definition migrationsToRollBack (all : option bool)
    (completedMigrations : list Migration.t) : list (option Migration.t) :=
  match all with
  | Some true => Some <$> reverse completedMigrations
  | _ => [last completedMigrations]
  end.

(** The [for] loop of [down]. *)
Fixpoint down_loop (migrations : list (DownMigration.t U)) : M U Flow :=
  match migrations with
  | [] => mret Next
  | migration :: rest =>
      logInfo [chalk "black.bgYellow" " ↓ down ↓ "; DownMigration.timestamp migration;
               chalk "yellow" (DownMigration.name migration)];;
      let name := DownMigration.name migration in
      r ← attempt (invoke Down (DownMigration.filename migration)
                     (MigrationFile.down (DownMigration.code migration)));
      match r with
      | Throw e => logError ("Migration failed: " +:+ name) e;; mret Return
      | Ok _ =>
          R.delete MIGRATION_TABLE_NAME (DownMigration.id migration);;
          down_loop rest
      end
  end.

Definition down (params : Params.t) : M U unit :=
  let all := Params.all params in
  let root := Params.root params in
  let rootDir := rootDir_of root in
  connectToDb (getConfig rootDir);;
  completedMigrations ← R.orderBy MIGRATION_TABLE_NAME "timestamp";
  if decide (length completedMigrations = 0)%nat then logInfo ["No new migrations"]
  else
    let migrationsToRollBack := migrationsToRollBack all completedMigrations in
    migrations ← requireMigrations migrationsToRollBack rootDir;
    flow ← down_loop migrations;
    match flow with
    | Return => mret tt
    | Next => logInfo ["Migration successful"]
    end.

End Program.

(** ** The compiled variant, [lib/migrate.js]

    It is the program above with one more statement at the end of [up] and
    of [down]: the connection pool is drained. *)

Module Lib.
Section Program.
Context {U : Type}.
Variable path_join : list string → string.
Variable require : string → Result (MigrationFile.t U).
Variable getConfig : string → Config.t.
Variable cwd : string.
Variable chalk : string → string → string.

Definition up (params : Params.t) : M U unit :=
let all := Params.all params in
let root := Params.root params in
let rootDir := rootDir_of cwd root in
connectToDb (getConfig rootDir);;
completedMigrations ← R.orderBy MIGRATION_TABLE_NAME "timestamp";
let latest := last completedMigrations in
let numToApply := numToApply_of all in
migrations ← getMigrationsExcept path_join require latest rootDir numToApply;
if decide (length migrations < 1)%nat then logInfo chalk ["No new migrations"]
else
flow ← up_loop chalk migrations;
match flow with
| Return => mret tt
| Next => logInfo chalk ["Migration Successful"];; R.drain
end.

Definition down (params : Params.t) : M U unit :=
let all := Params.all params in
let root := Params.root params in
let rootDir := rootDir_of cwd root in
connectToDb (getConfig rootDir);;
completedMigrations ← R.orderBy MIGRATION_TABLE_NAME "timestamp";
if decide (length completedMigrations = 0)%nat then logInfo chalk ["No new migrations"]
else
let migrationsToRollBack := migrationsToRollBack all completedMigrations in
migrations ← requireMigrations path_join require migrationsToRollBack rootDir;
flow ← down_loop chalk migrations;
match flow with
| Return => mret tt
| Next => logInfo chalk ["Migration successful"];; R.drain
end.

End Program.
End Lib.

(** ** Observations used to state the properties *)

(** The bookkeeping table of a database, and its documents. *)
Definition ledger_table (db : string) (s : Server) : option Table.t :=
  get_table db MIGRATION_TABLE_NAME s.

Definition ledger_docs (db : string) (s : Server) : gmap Id Doc.t :=
  match ledger_table db s with
  | Some t => Table.docs t
  | None => ∅
  end.

(** What [orderBy({index: 'timestamp'})] returns for a table. *)
Definition ledger (t : Table.t) : list Migration.t := merge_sort index_le (rows t).

(** Ascending and descending order of timestamps. *)
Definition ts_le (a b : Migration.t) : Prop :=
  String.le (Migration.timestamp a) (Migration.timestamp b).

Definition cand_le (a b : Candidate.t) : Prop :=
  String.le (Candidate.timestamp a) (Candidate.timestamp b).

(** The candidates on disk, in scan order. *)
Definition candidates (files : list string) : list Candidate.t :=
  parse <$> filter (λ file, Rx.matches rxMigrationFile file) files.

(** The plan [up] computes from the ledger it read and the directory it
    scanned (lines 151 to 153 of [up], and [getMigrationsExcept]). *)
Definition planForward (completedMigrations : list Migration.t)
    (files : list string) (all : option bool) : list Candidate.t :=
  migrationsToApply (last completedMigrations) files (numToApply_of all).

(** The server after [connectToDb], and the events of [connectToDb]. *)
Definition fresh_table : Table.t := Table.mk ∅ {["timestamp"]}.

Definition with_db (db : string) (s : Server) : Server :=
  match s !! db with
  | Some _ => s
  | None => <[db := ∅]> s
  end.

Definition boot_server (db : string) (s : Server) : Server :=
  match ledger_table db (with_db db s) with
  | Some _ => with_db db s
  | None => set_table db MIGRATION_TABLE_NAME fresh_table (with_db db s)
  end.

Definition boot_trace (db : string) (s : Server) : list Event :=
  [PoolConnect db; Run DbList]
  ++ (match s !! db with Some _ => [] | None => [Run (DbCreate db)] end)
  ++ [Run TableList]
  ++ (match ledger_table db (with_db db s) with
      | Some _ => []
      | None => [Run (TableCreate MIGRATION_TABLE_NAME);
                 Run (IndexCreate MIGRATION_TABLE_NAME "timestamp");
                 Run (IndexWait MIGRATION_TABLE_NAME)]
      end)
  ++ [Run (Wait db)].

(** The world after a query has run and left the server as [s]. *)
Definition after {U} (q : Query) (s : Server) (w : World.t U) : World.t U :=
  World.with_server s (World.emit (Run q) w).

(** Projections of a trace. *)
Definition invoked (evs : list Event) : list (Direction * string) :=
  omap (λ ev, match ev with Invoke d f => Some (d, f) | _ => None end) evs.

Definition inserted (evs : list Event) : list Doc.t :=
  omap (λ ev, match ev with Run (Insert _ d) => Some d | _ => None end) evs.

Definition deleted (evs : list Event) : list Id :=
  omap (λ ev, match ev with Run (Delete _ i) => Some i | _ => None end) evs.

Definition required (evs : list Event) : list string :=
  omap (λ ev, match ev with Required p => Some p | _ => None end) evs.

(** Events that neither invoke a procedure nor write to the ledger. *)
Definition quiet (evs : list Event) : Prop :=
  invoked evs = [] ∧ inserted evs = [] ∧ deleted evs = [].


Definition is_ledger_access (ev : Event) : bool :=
  match ev with
  | Run (OrderBy _ _) | Run (Insert _ _) | Run (Delete _ _) => true
  | _ => false
  end.

(** Documents inserted one after the other, each under a generated key. *)
Definition insert_docs (ds : list Doc.t) (docs : gmap Id Doc.t) : gmap Id Doc.t :=
  foldl (λ acc d, <[fresh (dom acc) := d]> acc) docs ds.

Definition delete_docs (ids : list Id) (docs : gmap Id Doc.t) : gmap Id Doc.t :=
  foldl (λ acc i, delete i acc) docs ids.

(** Procedures run one after the other, as long as each returns. *)
Fixpoint run_all {U} (fns : list (MigrationFn U)) (u : U) : option U :=
  match fns with
  | [] => Some u
  | fn :: rest =>
      match fn u with
      | (Ok _, u') => run_all rest u'
      | (Throw _, _) => None
      end
  end.

Definition doc_of {U} (m : UpMigration.t U) : Doc.t :=
  Doc.mk (UpMigration.name m) (UpMigration.timestamp m).

(** The events of the program's steps. *)
Section Events.
Context {U : Type}.
Variable chalk : string → string → string.

Definition info (args : list string) : Event :=
  ConsoleLog (Js.join " " (chalk "blue" "[migrate-rethinkdb]" :: args)).

Definition failure (txt : string) (e : Exn.t) : list Event :=
  ConsoleError (chalk "red" "[migrate-rethinkdb] " +:+ txt)
  :: match e with
     | Exn.Falsy => []
     | Exn.Object _ stack =>
         ConsoleErrorValue e :: (if decide (stack = "") then [] else [ConsoleError stack])
     end.

Definition up_banner (m : UpMigration.t U) : Event :=
  info [chalk "black.bgGreen" " ↑  up  ↑ "; UpMigration.timestamp m;
        chalk "yellow" (UpMigration.name m)].

Definition down_banner (m : DownMigration.t U) : Event :=
  info [chalk "black.bgYellow" " ↓ down ↓ "; DownMigration.timestamp m;
        chalk "yellow" (DownMigration.name m)].

(** One round of the loop of [up] whose procedure returns. *)
Definition up_step_events (m : UpMigration.t U) : list Event :=
  [up_banner m; Invoke Up (UpMigration.filename m);
   Run (Insert MIGRATION_TABLE_NAME (doc_of m))].

(** The round of the loop of [up] whose procedure throws [e]. *)
Definition up_fail_events (m : UpMigration.t U) (e : Exn.t) : list Event :=
  [up_banner m; Invoke Up (UpMigration.filename m)]
  ++ failure ("Migration failed: " +:+ UpMigration.name m) e.

Definition down_step_events (m : DownMigration.t U) : list Event :=
  [down_banner m; Invoke Down (DownMigration.filename m);
   Run (Delete MIGRATION_TABLE_NAME (DownMigration.id m))].

Definition down_fail_events (m : DownMigration.t U) (e : Exn.t) : list Event :=
  [down_banner m; Invoke Down (DownMigration.filename m)]
  ++ failure ("Migration failed: " +:+ DownMigration.name m) e.

End Events.

Definition ups {U} (ms : list (UpMigration.t U)) : list (MigrationFn U) :=
  (λ m, MigrationFile.up (UpMigration.code m)) <$> ms.

Definition downs {U} (ms : list (DownMigration.t U)) : list (MigrationFn U) :=
  (λ m, MigrationFile.down (DownMigration.code m)) <$> ms.

(** The ledger table with other documents. *)
Definition with_docs (docs : gmap Id Doc.t) (t : Table.t) : Table.t :=
  Table.mk docs (Table.indexes t).

(** What [getMigrationsExcept] and [requireMigrations] build from the plan
    and the loaded modules. *)
Definition loaded_up {U} (plan : list Candidate.t) (codes : list (MigrationFile.t U))
    : list (UpMigration.t U) :=
  zip_with (λ migration code,
              UpMigration.mk (Candidate.name migration) (Candidate.timestamp migration)
                (Candidate.filename migration) code)
           plan codes.

Definition down_filename (e : Migration.t) : string :=
  Migration.timestamp e +:+ "-" +:+ Migration.name e.

Definition loaded_down {U} (plan : list Migration.t) (codes : list (MigrationFile.t U))
    : list (DownMigration.t U) :=
  zip_with (λ migration code,
              DownMigration.mk (Migration.id migration) (Migration.name migration)
                (Migration.timestamp migration) (down_filename migration) code)
           plan codes.

(** One invocation of [up] or [down]: what it derives from its parameters
    and its environment. *)
Section Invocation.
Context {U : Type}.
Variable path_join : list string → string.
Variable require : string → Result (MigrationFile.t U).
Variable getConfig : string → Config.t.
Variable cwd : string.
Variable params : Params.t.

Definition rootDir : string := rootDir_of cwd (Params.root params).
Definition the_db : string := Config.db (getConfig rootDir).
Definition migrations_dir : string := path_join [rootDir; "migrations"].

(** The path [getMigrationsExcept] requires for a candidate. *)
Definition up_path (c : Candidate.t) : string :=
  path_join [migrations_dir; Candidate.filename c].

(** The path [requireMigrations] requires for a ledger entry. *)
Definition down_path (e : Migration.t) : string :=
  path_join [rootDir; "migrations"; down_filename e].

(** [codes] are the modules that requiring [paths] yields. *)
Definition loads (paths : list string) (codes : list (MigrationFile.t U)) : Prop :=
  Forall2 (λ p code, require p = Ok code) paths codes.

(** The events of an invocation up to the start of the loop. *)
Definition up_prelude (s : Server) (plan : list Candidate.t) : list Event :=
  boot_trace the_db s
  ++ [Run (OrderBy MIGRATION_TABLE_NAME "timestamp"); Readdir migrations_dir]
  ++ (Required <$> (up_path <$> plan)).

Definition down_prelude (s : Server) (plan : list Migration.t) : list Event :=
  boot_trace the_db s
  ++ [Run (OrderBy MIGRATION_TABLE_NAME "timestamp")]
  ++ (Required <$> (down_path <$> plan)).

End Invocation.

(** The plan [down] computes from a ledger that is not empty. *)
Definition planBackward (completedMigrations : list Migration.t) (all : option bool)
    : list Migration.t :=
  match all with
  | Some true => reverse completedMigrations
  | _ => option_list (last completedMigrations)
  end.

Definition ts_ge (a b : Migration.t) : Prop := ts_le b a.

(** ** A concrete environment

    One project directory [/app] with its migrations, used to run the
    program on concrete inputs.  Procedures count: each forward procedure
    that returns adds one to the user data, each backward one subtracts
    one. *)

Module Scenario.

(** [path.join] on segments that are already normalised. *)
Definition path_join (segments : list string) : string := String.concat "/" segments.

Definition config : Config.t :=
  Config.mk "localhost" 28015 "admin" "" "test" false 300 None false.

Definition getConfig (root : string) : Config.t := config.

Definition cwd : string := "/app".

(** No colours. *)
Definition chalk (style text : string) : string := text.

Definition apply_fn : MigrationFn nat := λ u, (Ok tt, S u).
Definition revert_fn : MigrationFn nat := λ u, (Ok tt, pred u).
Definition failing_fn : MigrationFn nat := λ u, (Throw (Exn.Object "boom" "at line 1"), u).

Definition good : MigrationFile.t nat := MigrationFile.mk apply_fn revert_fn.
Definition bad_up : MigrationFile.t nat := MigrationFile.mk failing_fn revert_fn.
Definition bad_down : MigrationFile.t nat := MigrationFile.mk apply_fn failing_fn.

(** The modules of [/app/migrations], by requested path: a path without
    extension resolves to the file with extension [.ts]. *)
Definition require (path : string) : Result (MigrationFile.t nat) :=
  if decide (path ∈ ["/app/migrations/20230101000000-init.ts";
                     "/app/migrations/20230101000000-init";
                     "/app/migrations/20230103000000-index.ts";
                     "/app/migrations/20230103000000-index"])
  then Ok good
  else if decide (path ∈ ["/app/migrations/20230102000000-addCol.ts";
                          "/app/migrations/20230102000000-addCol"])
  then Ok bad_up
  else if decide (path ∈ ["/app/migrations/20230104000000-drop.ts";
                          "/app/migrations/20230104000000-drop"])
  then Ok bad_down
  else Throw (Exn.Object ("Cannot find module " +:+ path) "").

Definition up_all : Params.t := Params.mk (Some "/app") (Some true).
Definition up_one : Params.t := Params.mk (Some "/app") (Some false).

(** A server that has never been migrated, and a directory listing. *)
Definition world (files : list string) : World.t nat :=
  World.mk ∅ None 0%nat {["/app/migrations" := files]} [].

(** A bootstrapped server whose ledger holds the given documents. *)
Definition migrated (docs : gmap Id Doc.t) (files : list string) : World.t nat :=
  World.mk {["test" := {[MIGRATION_TABLE_NAME := Table.mk docs {["timestamp"]}]}]}
    None 3%nat {["/app/migrations" := files]} [].

Definition run_up : Params.t → M nat unit := up path_join require getConfig cwd chalk.
Definition run_down : Params.t → M nat unit := down path_join require getConfig cwd chalk.

End Scenario.

(** The document [up] records for a candidate. *)
Definition cand_doc (c : Candidate.t) : Doc.t :=
  Doc.mk (Candidate.name c) (Candidate.timestamp c).

(** ** Properties of every run *)

(** [w'] is [w] after more events, each of which satisfies [P]. *)
Definition extends {U} (P : Event → Prop) (w w' : World.t U) : Prop :=
  ∃ evs, World.trace w' = World.trace w ++ evs ∧ Forall P evs.

(** Whatever it does and however it ends, [m] only adds events that
    satisfy [P]. *)
Definition safe {U A} (P : Event → Prop) (m : M U A) : Prop :=
  ∀ w, extends P w (m w).2.

(** An event of a run of [up] that planned [plan]: procedures invoked and
    documents inserted are those of planned candidates, and nothing is
    deleted. *)
Definition planned_only (plan : list Candidate.t) (ev : Event) : Prop :=
  match ev with
  | Invoke d f => d = Up ∧ f ∈ Candidate.filename <$> plan
  | Run (Insert _ doc) => doc ∈ cand_doc <$> plan
  | Run (Delete _ _) => False
  | _ => True
  end.

(** A string without the character [c]. *)
Fixpoint lacks (c : ascii) (s : string) : Prop :=
  match s with
  | EmptyString => True
  | String a s' => a ≠ c ∧ lacks c s'
  end.

(** A string of decimal digits. *)
Fixpoint digits (s : string) : Prop :=
  match s with
  | EmptyString => True
  | String a s' => Rx.is_digit a = true ∧ digits s'
  end.


(** The compiled variant in the concrete environment. *)
Definition lib_up : Params.t → M nat unit :=
  Lib.up Scenario.path_join Scenario.require Scenario.getConfig Scenario.cwd Scenario.chalk.
Definition lib_down : Params.t → M nat unit :=
  Lib.down Scenario.path_join Scenario.require Scenario.getConfig Scenario.cwd Scenario.chalk.

(** A server on which the bookkeeping table exists without its index. *)
Definition unindexed : World.t nat :=
  World.mk {["test" := {[MIGRATION_TABLE_NAME := Table.empty]}]} None 0%nat
    {["/app/migrations" := ["20230101000000-init.ts"]]} [].

(** ** Observations for more properties *)

(** An event that invokes no procedure and runs no insert or delete. *)
Definition silent (ev : Event) : Prop :=
  match ev with
  | Invoke _ _ | Run (Insert _ _) | Run (Delete _ _) => False
  | _ => True
  end.

(** The ledger as [up] and [down] read it: that of the bookkeeping table,
    or of the empty table that [connectToDb] creates. *)
Definition ledger_read (db : string) (s : Server) : list Migration.t :=
  ledger (default fresh_table (ledger_table db s)).

(** The entries of a directory, none when it cannot be read. *)
Definition scanned {U} (dir : string) (w : World.t U) : list string :=
  default [] (World.dirs w !! dir).

(** A string without line terminators. *)
Fixpoint one_line (s : string) : Prop :=
  match s with
  | EmptyString => True
  | String a s' => Rx.is_line_terminator a = false ∧ one_line s'
  end.

(** ** Creating a migration file *)

Section Create.
Context {U : Type}.
Variable path_join : list string → string.          (* [path.join] *)
Variable cwd : string.                               (* [process.cwd()] *)
Variable dirname : string.                           (* [__dirname] *)
Variable now : string.                  (* [moment().format('YYYYMMDDHHmmss')] *)
Variable copyFile : string → string → M U unit.      (* [fs.copyFile] *)


End Create.

(** ** Where a run stops *)

(** An event other than a line written by [logInfo]. *)
Definition not_log (ev : Event) : Prop :=
  match ev with
  | ConsoleLog _ => False
  | _ => True
  end.

(** The last event of a world is not a line written by [logInfo]. *)
Definition abrupt {U} (w : World.t U) : Prop :=
  ∃ ev, last (World.trace w) = Some ev ∧ not_log ev.

(** ** The command line

    The script [bin/migrate-rethinkdb], from the parsed command line to the
    one action it takes. *)

Module Cli.

(** The value of a flag, as the argument parser leaves it. *)
Inductive Value : Type :=
| Undefined
| Bool (b : bool)
| Num (n : Z)
| Str (s : string).

Definition truthy (v : Value) : bool :=
  match v with
  | Undefined => false
  | Bool b => b
  | Num n => negb (n =? 0)
  | Str s => if decide (s = "") then false else true
  end.

(** [cli.flags] *)
Record Flags : Type := mkFlags { all : Value; one : Value; root : Value }.

Inductive Action : Type :=
| CallUp (config : Params.t)               (* [up(config)] *)
| CallDown (config : Params.t)             (* [down(config)] *)
| CallCreate (name pathname : string)      (* [create(cli.input[1], pathname)] *)
| Exit (code : Z) (line : Event)           (* a line written, then [process.exit(code)] *)
| Uncaught (e : Exn.t).                    (* an exception thrown by the script itself *)

Section Main.
Variable path_resolve : string → string.             (* [path.resolve] of a string *)
Variable cwd : string.                               (* [process.cwd()] *)

(** [cli.flags.root ? path.resolve(cli.flags.root) : process.cwd()];
    [path.resolve] throws a [TypeError] for an argument that is no string. *)
Definition pathname (flags : Flags) : Result string :=
  if truthy (root flags) then
    match root flags with
    | Str s => Ok (path_resolve s)
    | _ => Throw (Exn.Object "TypeError: The path argument must be of type string" "")
    end
  else Ok cwd.

Definition main (input : list string) (flags : Flags) : Action :=
  let command := head input in
  match pathname flags with
  | Throw e => Uncaught e
  | Ok pathname =>
      if decide (command = Some "up" ∨ command = Some "down") then
        if truthy (all flags) && truthy (one flags) then
          Exit 1 (ConsoleError "Only one of --all or --one options may be specified")
        else
          let config := Params.mk (Some pathname) (Some (negb (truthy (one flags)))) in
          if decide (command = Some "up") then CallUp config else CallDown config
      else if decide (command = Some "create") then
        if decide (length input < 2)%nat then
          Exit 1 (ConsoleError "No migration name specified")
        else CallCreate (default "" (input !! 1%nat)) pathname
      else Exit 1 (ConsoleLog "unknown command")
  end.

End Main.
End Cli.

(** ** What a run leaves alone *)

(** [s'] differs from [s] at most in the bookkeeping table of [db], and in
    that [db] exists. *)
Definition frame (db : string) (s s' : Server) : Prop :=
  (∀ d, d ≠ db → s' !! d = s !! d)
  ∧ (∀ tb, tb ≠ MIGRATION_TABLE_NAME → get_table db tb s' = get_table db tb s).

(** [w'] has the pool connected to [db] and the directories of [w], and its
    server differs from that of [w] at most in the bookkeeping table. *)
Definition keeps {U} (db : string) (w w' : World.t U) : Prop :=
  World.pool w' = Some db
  ∧ World.dirs w' = World.dirs w
  ∧ frame db (World.server w) (World.server w').

(** However it ends, [m] started with the pool connected to [db] keeps it
    so, and keeps the directories and the rest of the server. *)
Definition Keeps {U A} (db : string) (m : M U A) : Prop :=
  ∀ w, World.pool w = Some db → keeps db w (m w).2.

(** The number that a string of decimal digits denotes. *)
Fixpoint num_of (s : string) : Z :=
  match s with
  | EmptyString => 0
  | String a s' =>
      (Z.of_N (N_of_ascii a) - 48) * 10 ^ Z.of_nat (String.length s') + num_of s'
  end.


(** * Properties *)

(** ** The order on strings *)

Lemma gt_not_le (a b : string) : Js.gt a b = true ↔ ¬ String.le a b.
Proof.
  unfold Js.gt, String.le, String.ltb, String.leb.
  rewrite (String.compare_antisym b a).
  destruct (String.compare a b); simpl; split; intros H; try done.
  all: first [by exfalso; apply H | by intros []].
Qed.

Lemma gt_false_le (a b : string) : Js.gt a b = false ↔ String.le a b.
Proof.
  rewrite <- not_true_iff_false, gt_not_le.
  split; [apply dec_stable | auto].
Qed.

(** ** The index order *)

Global Instance index_le_total : Total index_le.
Proof.
  intros a b. unfold index_le.
  repeat case_decide; try congruence.
  - destruct (total (≤)%positive (Migration.id a) (Migration.id b)); auto.
  - apply (total String.le).
Qed.

Global Instance index_le_trans : Transitive index_le.
Proof.
  intros a b c. unfold index_le.
  destruct a as [ia na ta], b as [ib nb tb], c as [ic nc tc]; simpl.
  repeat case_decide; subst; intros Hab Hbc; try done; try lia.
  - exfalso. by apply H; apply (anti_symm String.le).
  - by etrans.
Qed.

Lemma index_le_ts (a b : Migration.t) : index_le a b → ts_le a b.
Proof.
  unfold index_le, ts_le. case_decide as H; [rewrite H; done | done].
Qed.

(** ** Tables of the server *)

Lemma get_table_set db tb t (s : Server) :
  is_Some (s !! db) → get_table db tb (set_table db tb t s) = Some t.
Proof.
  intros [tables Hdb]. unfold get_table, set_table. rewrite Hdb.
  rewrite lookup_insert_eq. simpl. by rewrite lookup_insert_eq.
Qed.

Lemma set_table_set db tb t1 t2 (s : Server) :
  set_table db tb t2 (set_table db tb t1 s) = set_table db tb t2 s.
Proof.
  unfold set_table. destruct (s !! db) as [tables|] eqn:Hdb.
  - rewrite lookup_insert_eq. by rewrite !insert_insert_eq.
  - by rewrite Hdb.
Qed.

Lemma set_table_same db tb t (s : Server) :
  get_table db tb s = Some t → set_table db tb t s = s.
Proof.
  unfold get_table, set_table. destruct (s !! db) as [tables|] eqn:Hdb; simpl; [|done].
  intros Ht. by rewrite (insert_id tables), insert_id.
Qed.

Lemma get_table_db db tb t (s : Server) :
  get_table db tb s = Some t → is_Some (s !! db).
Proof. unfold get_table. destruct (s !! db); simpl; [eauto | done]. Qed.

Lemma set_table_db db tb t (s : Server) :
  is_Some (s !! db) → is_Some (set_table db tb t s !! db).
Proof.
  intros [tables Hdb]. unfold set_table. rewrite Hdb, lookup_insert_eq. eauto.
Qed.

Lemma with_db_lookup db (s : Server) : is_Some (with_db db s !! db).
Proof.
  unfold with_db. destruct (s !! db) eqn:Hdb; [by rewrite Hdb; eauto |].
  rewrite lookup_insert_eq. eauto.
Qed.

Lemma with_db_id db (s : Server) : is_Some (s !! db) → with_db db s = s.
Proof. intros [x Hx]. unfold with_db. by rewrite Hx. Qed.

Lemma boot_server_ledger db (s : Server) :
  ledger_table db (boot_server db s) =
    Some (default fresh_table (ledger_table db s)).
Proof.
  unfold boot_server.
  destruct (ledger_table db (with_db db s)) as [t|] eqn:Ht.
  - rewrite Ht. unfold with_db in Ht. destruct (s !! db) eqn:Hdb.
    + by rewrite Ht.
    + unfold ledger_table, get_table in Ht. rewrite lookup_insert_eq in Ht.
      simpl in Ht. by rewrite lookup_empty in Ht.
  - unfold ledger_table at 1. rewrite get_table_set by apply with_db_lookup.
    unfold with_db in Ht. destruct (s !! db) eqn:Hdb.
    + by rewrite Ht.
    + unfold ledger_table, get_table. by rewrite Hdb.
Qed.

Lemma boot_server_id db (s : Server) t :
  ledger_table db s = Some t → boot_server db s = s.
Proof.
  intros Ht. unfold boot_server.
  rewrite with_db_id by (eapply get_table_db, Ht). by rewrite Ht.
Qed.


Lemma boot_trace_id db (s : Server) t :
  ledger_table db s = Some t →
  boot_trace db s = [PoolConnect db; Run DbList; Run TableList; Run (Wait db)].
Proof.
  intros Ht. unfold boot_trace.
  destruct (get_table_db _ _ _ _ Ht) as [x Hx].
  rewrite with_db_id by eauto. by rewrite Hx, Ht.
Qed.

(** ** Steps of the monad *)

Lemma bind_eq {U A B} (m : M U A) (k : A → M U B) (w : World.t U) :
  (m ≫= k) w = match m w with
               | (Ok a, w') => k a w'
               | (Throw e, w') => (Throw e, w')
               end.
Proof. reflexivity. Qed.

Lemma bind_ok {U A B} (m : M U A) (k : A → M U B) (w w' : World.t U) a :
  m w = (Ok a, w') → (m ≫= k) w = k a w'.
Proof. intros H. by rewrite bind_eq, H. Qed.

Lemma bind_throw {U A B} (m : M U A) (k : A → M U B) (w w' : World.t U) e :
  m w = (Throw e, w') → (m ≫= k) w = (Throw e, w').
Proof. intros H. by rewrite bind_eq, H. Qed.

Lemma run_eq {U A} (q : Query) (f : string → Server → Result A * Server)
    (w : World.t U) d :
  World.pool w = Some d →
  R.run q f w =
    ((f d (World.server w)).1,
     World.mk (f d (World.server w)).2 (Some d) (World.user w) (World.dirs w)
       (World.trace w ++ [Run q])).
Proof.
  intros Hp. unfold R.run. rewrite Hp. simpl.
  destruct (f d (World.server w)) as [r s']. simpl.
  unfold World.with_server. simpl. by rewrite Hp.
Qed.

(** ** The queries, one by one *)

Section QuerySteps.
Context {U : Type}.
Implicit Types (w : World.t U) (s : Server).

Lemma run_step {A} q (f : string → Server → Result A * Server) w d r s' :
  World.pool w = Some d → f d (World.server w) = (r, s') →
  R.run q f w = (r, after q s' w).
Proof. intros Hp Hf. unfold R.run. rewrite Hp. simpl. by rewrite Hf. Qed.

Lemma dbList_eq w d :
  World.pool w = Some d →
  R.dbList w = (Ok (elements (dom (World.server w))), after DbList (World.server w) w).
Proof. intros Hp. by eapply run_step. Qed.

Lemma dbCreate_eq w d db :
  World.pool w = Some d → World.server w !! db = None →
  R.dbCreate db w = (Ok tt, after (DbCreate db) (<[db := ∅]> (World.server w)) w).
Proof. intros Hp Hdb. eapply run_step; [done|]. by rewrite Hdb. Qed.

Lemma tableList_eq w d tables :
  World.pool w = Some d → World.server w !! d = Some tables →
  R.tableList w = (Ok (elements (dom tables)), after TableList (World.server w) w).
Proof. intros Hp Hdb. eapply run_step; [done|]. by rewrite Hdb. Qed.

Lemma tableCreate_eq w d tables tb :
  World.pool w = Some d → World.server w !! d = Some tables → tables !! tb = None →
  R.tableCreate tb w =
    (Ok tt, after (TableCreate tb) (<[d := <[tb := Table.empty]> tables]> (World.server w)) w).
Proof. intros Hp Hdb Ht. eapply run_step; [done|]. by rewrite Hdb, Ht. Qed.

Lemma indexCreate_eq w d tb t index :
  World.pool w = Some d → get_table d tb (World.server w) = Some t →
  index ∉ Table.indexes t →
  R.indexCreate tb index w =
    (Ok tt, after (IndexCreate tb index)
              (set_table d tb (Table.mk (Table.docs t) ({[index]} ∪ Table.indexes t))
                 (World.server w)) w).
Proof.
  intros Hp Ht Hi. eapply run_step; [done|]. rewrite Ht. by rewrite decide_False.
Qed.

Lemma indexWait_eq w d tb t :
  World.pool w = Some d → get_table d tb (World.server w) = Some t →
  R.indexWait tb w = (Ok tt, after (IndexWait tb) (World.server w) w).
Proof. intros Hp Ht. eapply run_step; [done|]. by rewrite Ht. Qed.

Lemma wait_eq w d db :
  World.pool w = Some d → is_Some (World.server w !! db) →
  R.wait db w = (Ok tt, after (Wait db) (World.server w) w).
Proof. intros Hp [x Hx]. eapply run_step; [done|]. by rewrite Hx. Qed.

Lemma orderBy_eq w d tb t index :
  World.pool w = Some d → get_table d tb (World.server w) = Some t →
  index ∈ Table.indexes t →
  R.orderBy tb index w = (Ok (ledger t), after (OrderBy tb index) (World.server w) w).
Proof.
  intros Hp Ht Hi. eapply run_step; [done|]. rewrite Ht. by rewrite decide_True.
Qed.

Lemma orderBy_no_index w d tb t index :
  World.pool w = Some d → get_table d tb (World.server w) = Some t →
  index ∉ Table.indexes t →
  R.orderBy tb index w =
    (Throw (R.error "index was not found"), after (OrderBy tb index) (World.server w) w).
Proof.
  intros Hp Ht Hi. eapply run_step; [done|]. rewrite Ht. by rewrite decide_False.
Qed.

Lemma insert_eq w d tb t doc :
  World.pool w = Some d → get_table d tb (World.server w) = Some t →
  R.insert tb doc w =
    (Ok tt, after (Insert tb doc)
              (set_table d tb
                 (Table.mk (<[fresh (dom (Table.docs t)) := doc]> (Table.docs t))
                    (Table.indexes t)) (World.server w)) w).
Proof. intros Hp Ht. eapply run_step; [done|]. by rewrite Ht. Qed.

Lemma delete_eq w d tb t id :
  World.pool w = Some d → get_table d tb (World.server w) = Some t →
  R.delete tb id w =
    (Ok tt, after (Delete tb id)
              (set_table d tb
                 (Table.mk (delete id (Table.docs t)) (Table.indexes t))
                 (World.server w)) w).
Proof. intros Hp Ht. eapply run_step; [done|]. by rewrite Ht. Qed.

End QuerySteps.

Lemma get_table_insert db tb t tables (s : Server) :
  get_table db tb (<[db := <[tb := t]> tables]> s) = Some t.
Proof. unfold get_table. rewrite lookup_insert_eq. simpl. by rewrite lookup_insert_eq. Qed.

Lemma set_table_insert db tb t t' tables (s : Server) :
  set_table db tb t' (<[db := <[tb := t]> tables]> s) = <[db := <[tb := t']> tables]> s.
Proof. unfold set_table. rewrite lookup_insert_eq. by rewrite !insert_insert_eq. Qed.

(** ** Bootstrap *)

Ltac world_simpl :=
  unfold after, World.with_server, World.with_pool, World.with_user, World.emit;
  cbn [fst snd World.server World.pool World.user World.dirs World.trace
       mret M_ret ret].

Section Bootstrap.
Context {U : Type}.
Implicit Types (w : World.t U) (config : Config.t).

Lemma connectToDb_eq config w :
  connectToDb config w =
    (Ok tt,
     World.mk (boot_server (Config.db config) (World.server w))
       (Some (Config.db config)) (World.user w) (World.dirs w)
       (World.trace w ++ boot_trace (Config.db config) (World.server w))).
Proof.
  set (db := Config.db config).
  destruct w as [s p u ds tr]. simpl.
  unfold connectToDb. fold db.
  rewrite bind_eq. unfold R.connectPool. fold db.
  rewrite bind_eq. erewrite dbList_eq by reflexivity. world_simpl.
  assert (Hin : db ∈ elements (dom s) ↔ is_Some (s !! db))
    by (rewrite elem_of_elements; apply elem_of_dom).
  assert (Hw : ∀ s1 tr1,
    (R.tableList
      ≫= λ tables : list string,
           (if bool_decide (MIGRATION_TABLE_NAME ∈ tables)
            then mret ()
            else
             R.tableCreate MIGRATION_TABLE_NAME
             ≫= λ _ : (),
                  R.indexCreate MIGRATION_TABLE_NAME "timestamp"
                  ≫= λ _ : (), R.indexWait MIGRATION_TABLE_NAME)
           ≫= λ _ : (), R.wait db)
      (World.mk (with_db db s1) (Some db) u ds tr1)
    = (Ok tt,
       World.mk (boot_server db s1) (Some db) u ds
         (tr1 ++ [Run TableList]
          ++ (match ledger_table db (with_db db s1) with
              | Some _ => []
              | None => [Run (TableCreate MIGRATION_TABLE_NAME);
                         Run (IndexCreate MIGRATION_TABLE_NAME "timestamp");
                         Run (IndexWait MIGRATION_TABLE_NAME)]
              end)
          ++ [Run (Wait db)]))).
  { intros s1 tr1.
    destruct (with_db_lookup db s1) as [tables Htables].
    unfold boot_server, ledger_table.
    rewrite bind_eq. erewrite tableList_eq by (reflexivity || exact Htables).
    world_simpl.
    assert (Hin' : MIGRATION_TABLE_NAME ∈ elements (dom tables)
                   ↔ is_Some (tables !! MIGRATION_TABLE_NAME))
      by (rewrite elem_of_elements; apply elem_of_dom).
    assert (Hget : get_table db MIGRATION_TABLE_NAME (with_db db s1)
                   = tables !! MIGRATION_TABLE_NAME)
      by (unfold get_table; by rewrite Htables).
    rewrite Hget.
    case_bool_decide as Hdec.
    - apply Hin' in Hdec as [t Ht]. rewrite Ht.
      rewrite bind_eq. world_simpl.
      erewrite wait_eq by (reflexivity || (simpl; eauto)). world_simpl.
      by rewrite <- !(assoc_L (++)).
    - destruct (tables !! MIGRATION_TABLE_NAME) as [t|] eqn:Ht;
        [exfalso; apply Hdec, Hin'; eauto|].
      rewrite bind_eq, bind_eq.
      erewrite tableCreate_eq by (reflexivity || eassumption). world_simpl.
      rewrite bind_eq.
      erewrite indexCreate_eq;
        [|reflexivity|world_simpl; apply get_table_insert|simpl; set_solver].
      world_simpl. rewrite set_table_insert.
      erewrite indexWait_eq by (reflexivity || (world_simpl; apply get_table_insert)).
      world_simpl.
      erewrite wait_eq;
        [|reflexivity|world_simpl; rewrite lookup_insert_eq; eauto].
      world_simpl.
      unfold set_table. rewrite Htables.
      unfold Table.empty, fresh_table. cbn [Table.docs Table.indexes].
      rewrite (right_id_L ∅ (∪)).
      by rewrite <- !(assoc_L (++)). }
  unfold boot_trace.
  case_bool_decide as Hdec.
  - apply Hin in Hdec as [tables Hdb].
    rewrite bind_eq. world_simpl.
    rewrite <- (with_db_id db s) at 1 by eauto.
    rewrite Hw, Hdb. by rewrite <- !(assoc_L (++)).
  - destruct (s !! db) as [tables|] eqn:Hdb; [exfalso; apply Hdec, Hin; eauto|].
    rewrite bind_eq.
    erewrite dbCreate_eq by (reflexivity || eassumption). world_simpl.
    replace (<[db:=∅]> s) with (with_db db s) by (unfold with_db; by rewrite Hdb).
    rewrite Hw. by rewrite <- !(assoc_L (++)).
Qed.

End Bootstrap.

(** ** Sorted lists *)

Global Instance ts_le_trans : Transitive ts_le.
Proof. intros a b c. unfold ts_le. apply transitivity. Qed.

Global Instance cand_le_trans : Transitive cand_le.
Proof. intros a b c. unfold cand_le. apply transitivity. Qed.

Lemma StronglySorted_sublist {A} (R : relation A) (l k : list A) :
  l `sublist_of` k → StronglySorted R k → StronglySorted R l.
Proof.
  induction 1 as [|x l k Hlk IH|x l k Hlk IH]; intros Hk.
  - constructor.
  - apply StronglySorted_inv in Hk as [Hk Hx]. constructor; [auto|].
    rewrite Forall_forall in Hx |- *. intros y Hy. apply Hx.
    by eapply elem_of_sublist.
  - apply StronglySorted_inv in Hk as [Hk _]. auto.
Qed.

Lemma Sorted_sublist {A} (R : relation A) `{!Transitive R} (l k : list A) :
  l `sublist_of` k → Sorted R k → Sorted R l.
Proof.
  intros Hlk Hk. apply StronglySorted_Sorted.
  eapply StronglySorted_sublist; [done|]. by apply Sorted_StronglySorted.
Qed.

Lemma StronglySorted_last {A} (R : relation A) `{!Reflexive R} (l : list A) x :
  StronglySorted R l → last l = Some x → ∀ y, y ∈ l → R y x.
Proof.
  intros Hl Hx y Hy. apply last_Some in Hx as [l' ->].
  apply elem_of_app in Hy as [Hy|Hy].
  - eapply StronglySorted_app_1_elem_of; [done..|]. by left.
  - apply list_elem_of_singleton in Hy as ->. reflexivity.
Qed.

Lemma ledger_sorted (t : Table.t) : StronglySorted index_le (ledger t).
Proof. apply StronglySorted_merge_sort; apply _. Qed.

Lemma ledger_elem_of (t : Table.t) (m : Migration.t) :
  m ∈ ledger t ↔
  Table.docs t !! Migration.id m = Some (Doc.mk (Migration.name m) (Migration.timestamp m)).
Proof.
  unfold ledger. rewrite merge_sort_Permutation. unfold rows.
  rewrite list_elem_of_fmap. split.
  - intros [[i d] [-> Hin]]. apply elem_of_map_to_list in Hin. simpl.
    by destruct d.
  - intros Hm. exists (Migration.id m, Doc.mk (Migration.name m) (Migration.timestamp m)).
    split; [by destruct m|]. by apply elem_of_map_to_list.
Qed.

Lemma sorted_last_ts (l : list Migration.t) c :
  StronglySorted index_le l → last l = Some c → ∀ e, e ∈ l → ts_le e c.
Proof.
  intros Hl Hc e He. apply last_Some in Hc as [l' ->].
  apply elem_of_app in He as [He|He].
  - apply index_le_ts. eapply StronglySorted_app_1_elem_of; [done..|]. by left.
  - apply list_elem_of_singleton in He as ->. unfold ts_le. reflexivity.
Qed.

(** ** The forward plan *)

Lemma slice_0_1 {A} (xs : list A) : Js.slice xs 0 1 = take 1 xs.
Proof.
  unfold Js.slice. rewrite !decide_False by lia.
  destruct xs as [|x xs]; [done|].
  replace (Z.to_nat (Z.min 0 (Z.of_nat (length (x :: xs))))) with 0%nat
    by (simpl length; lia).
  replace (Z.to_nat (Z.min 1 (Z.of_nat (length (x :: xs)))
                     - Z.min 0 (Z.of_nat (length (x :: xs))))) with 1%nat
    by (simpl length; lia).
  done.
Qed.

Lemma slice_sublist {A} (xs : list A) a b : Js.slice xs a b `sublist_of` xs.
Proof. unfold Js.slice. etrans; [apply sublist_take | apply sublist_drop]. Qed.

Lemma planForward_all ledger files :
  planForward ledger files (Some true)
  = filter (λ m, is_newer (last ledger) m) (candidates files).
Proof. reflexivity. Qed.

Lemma planForward_one ledger files all :
  all ≠ Some true →
  planForward ledger files all
  = take 1 (filter (λ m, is_newer (last ledger) m) (candidates files)).
Proof.
  intros Hall. unfold planForward, migrationsToApply.
  assert (numToApply_of all = 1) as -> by (by destruct all as [[]|]).
  rewrite decide_True by lia. apply slice_0_1.
Qed.

Lemma planForward_sublist ledger files all :
  planForward ledger files all `sublist_of` candidates files.
Proof.
  destruct (decide (all = Some true)) as [->|Hall].
  - rewrite planForward_all. apply sublist_filter.
  - rewrite planForward_one by done.
    etrans; [apply sublist_take | apply sublist_filter].
Qed.

Lemma planForward_newer ledger files all m :
  m ∈ planForward ledger files all → is_newer (last ledger) m = true.
Proof.
  destruct (decide (all = Some true)) as [->|Hall].
  - rewrite planForward_all, list_elem_of_filter. intros [H _]. by apply Is_true_true.
  - rewrite planForward_one by done. intros H. apply subseteq_take in H.
    apply list_elem_of_filter in H as [H _]. by apply Is_true_true.
Qed.

Lemma filter_all {A} (P : A → Prop) `{!∀ x, Decision (P x)} (l : list A) :
  Forall P l → filter P l = l.
Proof.
  induction 1 as [|x l Hx Hl IH]; [done|].
  rewrite filter_cons_True by done. by rewrite IH.
Qed.

Lemma filter_none {A} (P : A → Prop) `{!∀ x, Decision (P x)} (l : list A) :
  Forall (λ x, ¬ P x) l → filter P l = [].
Proof.
  induction 1 as [|x l Hx Hl IH]; [done|].
  by rewrite filter_cons_False.
Qed.

Lemma StronglySorted_mono {A} (R1 R2 : relation A) (l : list A) :
  (∀ x y, R1 x y → R2 x y) → StronglySorted R1 l → StronglySorted R2 l.
Proof.
  intros HR. induction 1 as [|x l Hl IH Hx]; constructor; [done|].
  eapply Forall_impl; [done|]. auto.
Qed.

Lemma ledger_sorted_ts (t : Table.t) : Sorted ts_le (ledger t).
Proof.
  apply StronglySorted_Sorted.
  eapply StronglySorted_mono; [apply index_le_ts | apply ledger_sorted].
Qed.

Global Instance ts_le_refl : Reflexive ts_le.
Proof. intros a. unfold ts_le. reflexivity. Qed.

Lemma sorted_ts_last (l : list Migration.t) c :
  Sorted ts_le l → last l = Some c → ∀ e, e ∈ l → ts_le e c.
Proof.
  intros Hl. apply (StronglySorted_last ts_le l c).
  apply Sorted_StronglySorted; [apply _ | done].
Qed.

(** C1 (as amended).  With [all] set, the plan of [up] consists of exactly
    the candidates whose timestamp is strictly greater than that of the
    latest ledger entry, hence than that of every entry of an ascending
    ledger; it is all candidates when the ledger is empty.  The plan keeps
    the order in which the directory was scanned: it is ascending by
    timestamp when the scan was. *)
Theorem planForward_newer_in_scan_order (ledger : list Migration.t) (files : list string) :
  Sorted ts_le ledger →
  let plan := planForward ledger files (Some true) in
  (∀ m, m ∈ plan ↔
        m ∈ candidates files ∧
        ∀ c, last ledger = Some c →
             Js.gt (Candidate.timestamp m) (Migration.timestamp c) = true)
  ∧ (∀ m e, m ∈ plan → e ∈ ledger →
            Js.gt (Candidate.timestamp m) (Migration.timestamp e) = true)
  ∧ (ledger = [] → plan = candidates files)
  ∧ plan `sublist_of` candidates files
  ∧ (Sorted cand_le (candidates files) → Sorted cand_le plan).
Proof.
  intros Hsorted plan. subst plan. split; [|split; [|split; [|split]]].
  - intros m. split.
    + intros Hm. split.
      * eapply elem_of_sublist; [done | apply planForward_sublist].
      * intros c Hc. apply planForward_newer in Hm. unfold is_newer in Hm.
        by rewrite Hc in Hm.
    + intros [Hm Hc]. rewrite planForward_all. apply list_elem_of_filter.
      split; [|done]. unfold is_newer.
      destruct (last ledger) as [c|]; [|done]. apply Is_true_true. by apply Hc.
  - intros m e Hm He. pose proof (planForward_newer _ _ _ _ Hm) as Hnew.
    unfold is_newer in Hnew.
    destruct (last ledger) as [c|] eqn:Hc.
    + apply gt_not_le. apply gt_not_le in Hnew. intros Hle. apply Hnew.
      etrans; [exact Hle|]. by apply (sorted_ts_last ledger c).
    + apply last_None in Hc. subst ledger. by apply elem_of_nil in He.
  - intros ->. rewrite planForward_all. simpl.
    apply filter_all. by apply Forall_forall.
  - apply planForward_sublist.
  - apply Sorted_sublist; [apply _ | apply planForward_sublist].
Qed.

(** C1, as stated, fails: a directory scanned out of order is planned out of
    order. *)
Lemma planForward_unsorted_scan :
  planForward [] ["20230102000000-b.ts"; "20230101000000-a.ts"] (Some true)
  = [Candidate.mk "b" "20230102000000" "20230102000000-b.ts";
     Candidate.mk "a" "20230101000000" "20230101000000-a.ts"]
  ∧ ¬ Sorted cand_le
        (planForward [] ["20230102000000-b.ts"; "20230101000000-a.ts"] (Some true)).
Proof.
  split; [reflexivity|].
  intros H. apply Sorted_inv in H as [_ H]. apply HdRel_inv in H.
  vm_compute in H. exact H.
Qed.

Lemma planForward_newer_in_scan_order_witness :
  let ledger := [Migration.mk 1 "a" "20230101000000"] in
  let files := ["20230103000000-c.ts"; "20230101000000-a.ts"; "notes.txt";
                "20230102000000-b.js"] in
  planForward ledger files (Some true)
  = [Candidate.mk "c" "20230103000000" "20230103000000-c.ts";
     Candidate.mk "b" "20230102000000" "20230102000000-b.js"]
  ∧ ∀ m e, m ∈ planForward ledger files (Some true) → e ∈ ledger →
           Js.gt (Candidate.timestamp m) (Migration.timestamp e) = true.
Proof.
  split; [reflexivity|].
  apply (planForward_newer_in_scan_order
           [Migration.mk 1 "a" "20230101000000"]
           ["20230103000000-c.ts"; "20230101000000-a.ts"; "notes.txt";
            "20230102000000-b.js"]).
  repeat constructor.
Defined.

(** C4 (as amended).  Without [all], the plan of [up] has at most one
    element: the first pending candidate in scan order.  That is the pending
    candidate with the smallest timestamp when the directory was scanned in
    ascending order. *)
Theorem planForward_one_first_pending (ledger : list Migration.t) (files : list string)
    (all : option bool) :
  all ≠ Some true →
  let pending := planForward ledger files (Some true) in
  let plan := planForward ledger files all in
  (length plan ≤ 1)%nat
  ∧ plan = option_list (head pending)
  ∧ (Sorted cand_le (candidates files) →
     ∀ m m', plan = [m] → m' ∈ pending → cand_le m m').
Proof.
  intros Hall pending plan. subst pending plan.
  rewrite (planForward_one _ _ all) by done. rewrite planForward_all.
  set (pending := filter _ _).
  assert (Hsub : pending `sublist_of` candidates files) by apply sublist_filter.
  split; [|split].
  - rewrite length_take. lia.
  - by destruct pending.
  - intros Hs m m' Hm Hm'.
    assert (Hp : StronglySorted cand_le pending).
    { eapply StronglySorted_sublist; [done|].
      apply Sorted_StronglySorted; [apply _ | done]. }
    destruct pending as [|x rest]; [done|]. simpl in Hm. rewrite take_0 in Hm.
    injection Hm as ->.
    apply StronglySorted_inv in Hp as [_ Hx].
    apply elem_of_cons in Hm' as [->|Hm'].
    + unfold cand_le. reflexivity.
    + rewrite Forall_forall in Hx. by apply Hx.
Qed.

(** C4, as stated, fails: the single planned migration is the first one
    scanned, which need not have the smallest timestamp. *)
Lemma planForward_one_not_earliest :
  let files := ["20230102000000-b.ts"; "20230101000000-a.ts"] in
  let a := Candidate.mk "a" "20230101000000" "20230101000000-a.ts" in
  let b := Candidate.mk "b" "20230102000000" "20230102000000-b.ts" in
  planForward [] files (Some false) = [b]
  ∧ a ∈ planForward [] files (Some true)
  ∧ ¬ cand_le b a.
Proof.
  split; [reflexivity|]. split.
  - vm_compute. set_solver.
  - intros H. vm_compute in H. exact H.
Qed.

Lemma planForward_one_first_pending_witness :
  let ledger := [Migration.mk 1 "a" "20230101000000"] in
  let files := ["20230101000000-a.ts"; "20230102000000-b.js"; "20230103000000-c.ts"] in
  planForward ledger files None
  = [Candidate.mk "b" "20230102000000" "20230102000000-b.js"]
  ∧ (length (planForward ledger files None) ≤ 1)%nat.
Proof.
  split; [reflexivity|].
  apply (planForward_one_first_pending
           [Migration.mk 1 "a" "20230101000000"]
           ["20230101000000-a.ts"; "20230102000000-b.js"; "20230103000000-c.ts"]
           None).
  discriminate.
Defined.

(** ** The loops *)

Lemma with_docs_same (t : Table.t) : with_docs (Table.docs t) t = t.
Proof. by destruct t. Qed.

Lemma insert_docs_cons d ds (docs : gmap Id Doc.t) :
  insert_docs (d :: ds) docs = insert_docs ds (<[fresh (dom docs) := d]> docs).
Proof. reflexivity. Qed.

Lemma delete_docs_cons i ids (docs : gmap Id Doc.t) :
  delete_docs (i :: ids) docs = delete_docs ids (delete i docs).
Proof. reflexivity. Qed.

Section Loops.
Context {U : Type}.
Variable chalk : string → string → string.
Implicit Types (w : World.t U) (t : Table.t).

Lemma logInfo_eq args w :
  logInfo chalk args w = (Ok tt, World.emit (info chalk args) w).
Proof. reflexivity. Qed.

Lemma logError_eq txt e w :
  logError chalk txt e w =
    (Ok tt, World.mk (World.server w) (World.pool w) (World.user w) (World.dirs w)
              (World.trace w ++ failure chalk txt e)).
Proof.
  unfold logError, failure. rewrite bind_eq. unfold emit at 1.
  destruct e as [|msg stack]; world_simpl.
  - done.
  - rewrite bind_eq. unfold emit at 1. world_simpl.
    case_decide; world_simpl; [|unfold emit; world_simpl];
      by rewrite <- !(assoc_L (++)).
Qed.

Lemma invoke_eq d filename (fn : MigrationFn U) w :
  invoke d filename fn w =
    ((fn (World.user w)).1,
     World.mk (World.server w) (World.pool w) (fn (World.user w)).2 (World.dirs w)
       (World.trace w ++ [Invoke d filename])).
Proof.
  unfold invoke. world_simpl. by destruct (fn (World.user w)).
Qed.

Lemma up_loop_cons (m : UpMigration.t U) rest w :
  up_loop chalk (m :: rest) w =
    let w1 := World.mk (World.server w) (World.pool w)
                (MigrationFile.up (UpMigration.code m) (World.user w)).2 (World.dirs w)
                (World.trace w ++ [up_banner chalk m; Invoke Up (UpMigration.filename m)]) in
    match (MigrationFile.up (UpMigration.code m) (World.user w)).1 with
    | Throw e =>
        (Ok Return,
         World.mk (World.server w1) (World.pool w1) (World.user w1) (World.dirs w1)
           (World.trace w1
            ++ failure chalk ("Migration failed: " +:+ UpMigration.name m) e))
    | Ok _ =>
        (R.insert MIGRATION_TABLE_NAME (doc_of m);; up_loop chalk rest) w1
    end.
Proof.
  cbn [up_loop]. rewrite bind_eq, logInfo_eq. rewrite bind_eq.
  unfold attempt. rewrite invoke_eq. world_simpl.
  rewrite <- (assoc_L (++)). simpl app.
  destruct (MigrationFile.up (UpMigration.code m) (World.user w)) as [[[]|e] u'];
    world_simpl; [done|].
  rewrite bind_eq, logError_eq. by world_simpl.
Qed.

Lemma down_loop_cons (m : DownMigration.t U) rest w :
  down_loop chalk (m :: rest) w =
    let w1 := World.mk (World.server w) (World.pool w)
                (MigrationFile.down (DownMigration.code m) (World.user w)).2 (World.dirs w)
                (World.trace w
                 ++ [down_banner chalk m; Invoke Down (DownMigration.filename m)]) in
    match (MigrationFile.down (DownMigration.code m) (World.user w)).1 with
    | Throw e =>
        (Ok Return,
         World.mk (World.server w1) (World.pool w1) (World.user w1) (World.dirs w1)
           (World.trace w1
            ++ failure chalk ("Migration failed: " +:+ DownMigration.name m) e))
    | Ok _ =>
        (R.delete MIGRATION_TABLE_NAME (DownMigration.id m);; down_loop chalk rest) w1
    end.
Proof.
  cbn [down_loop]. rewrite bind_eq, logInfo_eq. rewrite bind_eq.
  unfold attempt. rewrite invoke_eq. world_simpl.
  rewrite <- (assoc_L (++)). simpl app.
  destruct (MigrationFile.down (DownMigration.code m) (World.user w)) as [[[]|e] u'];
    world_simpl; [done|].
  rewrite bind_eq, logError_eq. by world_simpl.
Qed.

Lemma up_loop_ok (ms : list (UpMigration.t U)) w db t u' :
  World.pool w = Some db → ledger_table db (World.server w) = Some t →
  run_all (ups ms) (World.user w) = Some u' →
  up_loop chalk ms w =
    (Ok Next,
     World.mk
       (set_table db MIGRATION_TABLE_NAME
          (with_docs (insert_docs (doc_of <$> ms) (Table.docs t)) t) (World.server w))
       (Some db) u' (World.dirs w)
       (World.trace w ++ concat (up_step_events chalk <$> ms))).
Proof.
  revert w t. induction ms as [|m rest IH]; intros w t Hp Ht Hrun;
    destruct w as [s pl u ds tr]; simpl in Hp, Ht, Hrun; subst pl.
  - simpl in Hrun. injection Hrun as <-. simpl.
    rewrite with_docs_same, set_table_same by done.
    by rewrite (right_id_L [] (++)).
  - rewrite up_loop_cons. cbn zeta. world_simpl. simpl in Hrun.
    destruct (MigrationFile.up (UpMigration.code m) u) as [[[]|e] u1];
      [|done]. world_simpl.
    rewrite bind_eq. erewrite insert_eq by (world_simpl; first [reflexivity | exact Ht]).
    world_simpl.
    erewrite IH; [|reflexivity| |exact Hrun]; world_simpl.
    2:{ unfold ledger_table. apply get_table_set. by eapply get_table_db. }
    rewrite set_table_set. rewrite fmap_cons, insert_docs_cons.
    unfold with_docs. cbn [Table.docs Table.indexes].
    rewrite fmap_cons. cbn [concat].
    unfold up_step_events at 2. by rewrite <- !(assoc_L (++)).
Qed.

Lemma up_loop_fail (pre post : list (UpMigration.t U)) m w db t uk u' e :
  World.pool w = Some db → ledger_table db (World.server w) = Some t →
  run_all (ups pre) (World.user w) = Some uk →
  MigrationFile.up (UpMigration.code m) uk = (Throw e, u') →
  up_loop chalk (pre ++ m :: post) w =
    (Ok Return,
     World.mk
       (set_table db MIGRATION_TABLE_NAME
          (with_docs (insert_docs (doc_of <$> pre) (Table.docs t)) t) (World.server w))
       (Some db) u' (World.dirs w)
       (World.trace w ++ concat (up_step_events chalk <$> pre)
        ++ up_fail_events chalk m e)).
Proof.
  revert w t. induction pre as [|p rest IH]; intros w t Hp Ht Hrun Hm;
    destruct w as [s pl u ds tr]; simpl in Hp, Ht, Hrun; subst pl.
  - simpl in Hrun. injection Hrun as <-. simpl app.
    rewrite up_loop_cons. cbn zeta. world_simpl. rewrite Hm. world_simpl.
    rewrite fmap_nil. cbn [insert_docs delete_docs foldl concat app].
    rewrite with_docs_same, set_table_same by done.
    unfold up_fail_events. by rewrite <- !(assoc_L (++)).
  - rewrite <- app_comm_cons, up_loop_cons. cbn zeta. world_simpl. simpl in Hrun.
    destruct (MigrationFile.up (UpMigration.code p) u) as [[[]|e1] u1];
      [|done]. world_simpl.
    rewrite bind_eq. erewrite insert_eq by (world_simpl; first [reflexivity | exact Ht]).
    world_simpl.
    erewrite IH; [|reflexivity| |exact Hrun|exact Hm]; world_simpl.
    2:{ unfold ledger_table. apply get_table_set. by eapply get_table_db. }
    rewrite set_table_set. rewrite fmap_cons, insert_docs_cons.
    unfold with_docs. cbn [Table.docs Table.indexes].
    rewrite fmap_cons. cbn [concat].
    unfold up_step_events at 2. by rewrite <- !(assoc_L (++)).
Qed.

Lemma down_loop_ok (ms : list (DownMigration.t U)) w db t u' :
  World.pool w = Some db → ledger_table db (World.server w) = Some t →
  run_all (downs ms) (World.user w) = Some u' →
  down_loop chalk ms w =
    (Ok Next,
     World.mk
       (set_table db MIGRATION_TABLE_NAME
          (with_docs (delete_docs (DownMigration.id <$> ms) (Table.docs t)) t)
          (World.server w))
       (Some db) u' (World.dirs w)
       (World.trace w ++ concat (down_step_events chalk <$> ms))).
Proof.
  revert w t. induction ms as [|m rest IH]; intros w t Hp Ht Hrun;
    destruct w as [s pl u ds tr]; simpl in Hp, Ht, Hrun; subst pl.
  - simpl in Hrun. injection Hrun as <-. simpl.
    rewrite with_docs_same, set_table_same by done.
    by rewrite (right_id_L [] (++)).
  - rewrite down_loop_cons. cbn zeta. world_simpl. simpl in Hrun.
    destruct (MigrationFile.down (DownMigration.code m) u) as [[[]|e] u1];
      [|done]. world_simpl.
    rewrite bind_eq. erewrite delete_eq by (world_simpl; first [reflexivity | exact Ht]).
    world_simpl.
    erewrite IH; [|reflexivity| |exact Hrun]; world_simpl.
    2:{ unfold ledger_table. apply get_table_set. by eapply get_table_db. }
    rewrite set_table_set. rewrite fmap_cons, delete_docs_cons.
    unfold with_docs. cbn [Table.docs Table.indexes].
    rewrite fmap_cons. cbn [concat].
    unfold down_step_events at 2. by rewrite <- !(assoc_L (++)).
Qed.

Lemma down_loop_fail (pre post : list (DownMigration.t U)) m w db t uk u' e :
  World.pool w = Some db → ledger_table db (World.server w) = Some t →
  run_all (downs pre) (World.user w) = Some uk →
  MigrationFile.down (DownMigration.code m) uk = (Throw e, u') →
  down_loop chalk (pre ++ m :: post) w =
    (Ok Return,
     World.mk
       (set_table db MIGRATION_TABLE_NAME
          (with_docs (delete_docs (DownMigration.id <$> pre) (Table.docs t)) t)
          (World.server w))
       (Some db) u' (World.dirs w)
       (World.trace w ++ concat (down_step_events chalk <$> pre)
        ++ down_fail_events chalk m e)).
Proof.
  revert w t. induction pre as [|p rest IH]; intros w t Hp Ht Hrun Hm;
    destruct w as [s pl u ds tr]; simpl in Hp, Ht, Hrun; subst pl.
  - simpl in Hrun. injection Hrun as <-. simpl app.
    rewrite down_loop_cons. cbn zeta. world_simpl. rewrite Hm. world_simpl.
    rewrite fmap_nil. cbn [insert_docs delete_docs foldl concat app].
    rewrite with_docs_same, set_table_same by done.
    unfold down_fail_events. by rewrite <- !(assoc_L (++)).
  - rewrite <- app_comm_cons, down_loop_cons. cbn zeta. world_simpl. simpl in Hrun.
    destruct (MigrationFile.down (DownMigration.code p) u) as [[[]|e1] u1];
      [|done]. world_simpl.
    rewrite bind_eq. erewrite delete_eq by (world_simpl; first [reflexivity | exact Ht]).
    world_simpl.
    erewrite IH; [|reflexivity| |exact Hrun|exact Hm]; world_simpl.
    2:{ unfold ledger_table. apply get_table_set. by eapply get_table_db. }
    rewrite set_table_set. rewrite fmap_cons, delete_docs_cons.
    unfold with_docs. cbn [Table.docs Table.indexes].
    rewrite fmap_cons. cbn [concat].
    unfold down_step_events at 2. by rewrite <- !(assoc_L (++)).
Qed.

End Loops.

(** ** Loading *)

Section Loading.
Context {U : Type}.
Variable require : string → Result (MigrationFile.t U).
Implicit Types (w : World.t U).

Lemma load_eq path w :
  load require path w = (require path, World.emit (Required path) w).
Proof. reflexivity. Qed.

Lemma mapM_load_ok {A} (path : A → string) (xs : list A) codes w :
  loads require (path <$> xs) codes →
  mapM (λ x, load require (path x)) xs w =
    (Ok codes,
     World.mk (World.server w) (World.pool w) (World.user w) (World.dirs w)
       (World.trace w ++ (Required <$> (path <$> xs)))).
Proof.
  unfold loads. revert codes w.
  induction xs as [|x xs IH]; intros codes w Hl.
  - apply Forall2_nil_inv_l in Hl as ->. simpl.
    rewrite (right_id_L [] (++)). by destruct w.
  - rewrite fmap_cons in Hl.
    apply Forall2_cons_inv_l in Hl as (code & codes' & Hc & Hl & ->).
    cbn [mapM]. rewrite bind_eq, load_eq, Hc. rewrite bind_eq.
    rewrite (IH codes') by done. world_simpl.
    rewrite !fmap_cons. by rewrite <- !(assoc_L (++)).
Qed.

End Loading.

(** ** One invocation, step by step *)

Section Run.
Context {U : Type}.
Variable path_join : list string → string.
Variable require : string → Result (MigrationFile.t U).
Variable getConfig : string → Config.t.
Variable cwd : string.
Variable chalk : string → string → string.
Variable params : Params.t.
Implicit Types (w : World.t U) (t : Table.t).

Local Abbreviation db := (the_db getConfig cwd params).
Local Abbreviation dir := (migrations_dir path_join cwd params).
Local Abbreviation root := (rootDir cwd params).
Local Abbreviation all := (Params.all params).

Lemma readdir_eq d w files :
  World.dirs w !! d = Some files →
  readdir d w = (Ok files, World.emit (Readdir d) w).
Proof. intros H. unfold readdir. by rewrite H. Qed.

Lemma getMigrationsExcept_ok latest n w files codes :
  World.dirs w !! dir = Some files →
  loads require (up_path path_join cwd params <$> migrationsToApply latest files n) codes →
  getMigrationsExcept path_join require latest root n w =
    (Ok (loaded_up (migrationsToApply latest files n) codes),
     World.mk (World.server w) (World.pool w) (World.user w) (World.dirs w)
       (World.trace w
        ++ Readdir dir
           :: (Required <$> (up_path path_join cwd params
                             <$> migrationsToApply latest files n)))).
Proof.
  intros Hfiles Hloads. unfold getMigrationsExcept.
  rewrite bind_eq. erewrite readdir_eq by exact Hfiles.
  rewrite bind_eq.
  erewrite (mapM_load_ok require (up_path path_join cwd params)) by exact Hloads.
  world_simpl. by rewrite <- !(assoc_L (++)).
Qed.

Lemma requireMigrations_ok (plan : list Migration.t) w codes :
  loads require (down_path path_join cwd params <$> plan) codes →
  requireMigrations path_join require (Some <$> plan) root w =
    (Ok (loaded_down plan codes),
     World.mk (World.server w) (World.pool w) (World.user w) (World.dirs w)
       (World.trace w ++ (Required <$> (down_path path_join cwd params <$> plan)))).
Proof.
  unfold loads, requireMigrations. revert codes w.
  induction plan as [|e plan IH]; intros codes w Hl.
  - apply Forall2_nil_inv_l in Hl as ->. simpl.
    rewrite (right_id_L [] (++)). by destruct w.
  - rewrite fmap_cons in Hl.
    apply Forall2_cons_inv_l in Hl as (code & codes' & Hc & Hl & ->).
    rewrite fmap_cons. cbn [mapM]. rewrite !bind_eq, load_eq.
    unfold down_path, down_filename in Hc. rewrite Hc. world_simpl.
    rewrite bind_eq.
    rewrite (IH codes') by done. world_simpl.
    rewrite !fmap_cons. by rewrite <- !(assoc_L (++)).
Qed.

(** [up] until the plan is loaded. *)
Lemma up_eq w t files codes :
  ledger_table db (boot_server db (World.server w)) = Some t →
  "timestamp" ∈ Table.indexes t →
  World.dirs w !! dir = Some files →
  loads require (up_path path_join cwd params <$> planForward (ledger t) files all) codes →
  up path_join require getConfig cwd chalk params w =
    (if decide (length (loaded_up (planForward (ledger t) files all) codes) < 1)%nat
     then logInfo chalk ["No new migrations"]
     else
       flow ← up_loop chalk (loaded_up (planForward (ledger t) files all) codes);
       match flow with
       | Return => mret tt
       | Next => logInfo chalk ["Migration Successful"]
       end)
      (World.mk (boot_server db (World.server w)) (Some db) (World.user w) (World.dirs w)
         (World.trace w
          ++ up_prelude path_join getConfig cwd params (World.server w)
               (planForward (ledger t) files all))).
Proof.
  intros Ht Hidx Hfiles Hloads. unfold up. cbn zeta.
  rewrite bind_eq, connectToDb_eq. rewrite bind_eq.
  erewrite orderBy_eq; [|reflexivity|exact Ht|exact Hidx]. world_simpl.
  rewrite bind_eq.
  erewrite getMigrationsExcept_ok; [|exact Hfiles|exact Hloads]. world_simpl.
  unfold up_prelude.
  by rewrite <- !(assoc_L (++)).
Qed.

(** [down] until the plan is loaded. *)
Lemma down_eq w t plan codes :
  ledger_table db (boot_server db (World.server w)) = Some t →
  "timestamp" ∈ Table.indexes t →
  ledger t ≠ [] →
  migrationsToRollBack all (ledger t) = Some <$> plan →
  loads require (down_path path_join cwd params <$> plan) codes →
  down path_join require getConfig cwd chalk params w =
    (flow ← down_loop chalk (loaded_down plan codes);
     match flow with
     | Return => mret tt
     | Next => logInfo chalk ["Migration successful"]
     end)
      (World.mk (boot_server db (World.server w)) (Some db) (World.user w) (World.dirs w)
         (World.trace w
          ++ down_prelude path_join getConfig cwd params (World.server w) plan)).
Proof.
  intros Ht Hidx Hne Hplan Hloads. unfold down. cbn zeta.
  rewrite bind_eq, connectToDb_eq. rewrite bind_eq.
  erewrite orderBy_eq; [|reflexivity|exact Ht|exact Hidx]. world_simpl.
  rewrite decide_False by (by destruct (ledger t)).
  rewrite Hplan. rewrite bind_eq.
  erewrite requireMigrations_ok by exact Hloads. world_simpl.
  unfold down_prelude.
  by rewrite <- !(assoc_L (++)).
Qed.

(** [down] on an empty ledger. *)
Lemma down_empty_eq w t :
  ledger_table db (boot_server db (World.server w)) = Some t →
  "timestamp" ∈ Table.indexes t →
  ledger t = [] →
  down path_join require getConfig cwd chalk params w =
    (Ok tt,
     World.mk (boot_server db (World.server w)) (Some db) (World.user w) (World.dirs w)
       (World.trace w ++ boot_trace db (World.server w)
        ++ [Run (OrderBy MIGRATION_TABLE_NAME "timestamp");
            info chalk ["No new migrations"]])).
Proof.
  intros Ht Hidx Hempty. unfold down. cbn zeta.
  rewrite bind_eq, connectToDb_eq. rewrite bind_eq.
  erewrite orderBy_eq; [|reflexivity|exact Ht|exact Hidx]. world_simpl.
  rewrite Hempty. rewrite decide_True by done.
  rewrite logInfo_eq. world_simpl.
  by rewrite <- !(assoc_L (++)).
Qed.

End Run.

(** ** Projections of traces *)

Lemma invoked_app evs1 evs2 : invoked (evs1 ++ evs2) = invoked evs1 ++ invoked evs2.
Proof. apply omap_app. Qed.

Lemma inserted_app evs1 evs2 : inserted (evs1 ++ evs2) = inserted evs1 ++ inserted evs2.
Proof. apply omap_app. Qed.

Lemma deleted_app evs1 evs2 : deleted (evs1 ++ evs2) = deleted evs1 ++ deleted evs2.
Proof. apply omap_app. Qed.

Lemma required_app evs1 evs2 : required (evs1 ++ evs2) = required evs1 ++ required evs2.
Proof. apply omap_app. Qed.

Lemma quiet_app evs1 evs2 : quiet evs1 → quiet evs2 → quiet (evs1 ++ evs2).
Proof.
  intros (H1 & H2 & H3) (H4 & H5 & H6). unfold quiet.
  by rewrite invoked_app, inserted_app, deleted_app, H1, H2, H3, H4, H5, H6.
Qed.

Lemma quiet_boot db (s : Server) : quiet (boot_trace db s).
Proof.
  unfold boot_trace.
  destruct (s !! db); destruct (ledger_table db (with_db db s)); by repeat split.
Qed.

Lemma quiet_required paths : quiet (Required <$> paths).
Proof. induction paths as [|p paths IH]; [by repeat split|]. exact IH. Qed.

Lemma quiet_failure chalk txt e : quiet (failure chalk txt e).
Proof.
  unfold failure. destruct e as [|msg stack]; [by repeat split|].
  case_decide; by repeat split.
Qed.

Lemma required_boot db (s : Server) : required (boot_trace db s) = [].
Proof.
  unfold boot_trace.
  by destruct (s !! db); destruct (ledger_table db (with_db db s)).
Qed.

Lemma required_Required paths : required (Required <$> paths) = paths.
Proof. induction paths as [|p paths IH]; [done|]. simpl. by f_equal. Qed.

Section StepEvents.
Context {U : Type}.
Variable chalk : string → string → string.

Lemma invoked_up_steps (ms : list (UpMigration.t U)) :
  invoked (concat (up_step_events chalk <$> ms))
  = (λ m, (Up, UpMigration.filename m)) <$> ms.
Proof. induction ms as [|m ms IH]; [done|]. simpl. by f_equal. Qed.

Lemma inserted_up_steps (ms : list (UpMigration.t U)) :
  inserted (concat (up_step_events chalk <$> ms)) = doc_of <$> ms.
Proof. induction ms as [|m ms IH]; [done|]. simpl. by f_equal. Qed.

Lemma deleted_up_steps (ms : list (UpMigration.t U)) :
  deleted (concat (up_step_events chalk <$> ms)) = [].
Proof. induction ms as [|m ms IH]; [done|]. exact IH. Qed.

Lemma invoked_down_steps (ms : list (DownMigration.t U)) :
  invoked (concat (down_step_events chalk <$> ms))
  = (λ m, (Down, DownMigration.filename m)) <$> ms.
Proof. induction ms as [|m ms IH]; [done|]. simpl. by f_equal. Qed.

Lemma deleted_down_steps (ms : list (DownMigration.t U)) :
  deleted (concat (down_step_events chalk <$> ms)) = DownMigration.id <$> ms.
Proof. induction ms as [|m ms IH]; [done|]. simpl. by f_equal. Qed.

Lemma inserted_down_steps (ms : list (DownMigration.t U)) :
  inserted (concat (down_step_events chalk <$> ms)) = [].
Proof. induction ms as [|m ms IH]; [done|]. exact IH. Qed.

Lemma required_up_steps (ms : list (UpMigration.t U)) :
  required (concat (up_step_events chalk <$> ms)) = [].
Proof. induction ms as [|m ms IH]; [done|]. exact IH. Qed.

Lemma required_down_steps (ms : list (DownMigration.t U)) :
  required (concat (down_step_events chalk <$> ms)) = [].
Proof. induction ms as [|m ms IH]; [done|]. exact IH. Qed.

Lemma required_failure txt e : required (failure chalk txt e) = [].
Proof.
  unfold failure. destruct e as [|msg stack]; [done|]. by case_decide.
Qed.

End StepEvents.

Section Preludes.
Context {U : Type}.
Variable path_join : list string → string.
Variable getConfig : string → Config.t.
Variable cwd : string.
Variable params : Params.t.

Lemma quiet_up_prelude (s : Server) plan :
  quiet (up_prelude path_join getConfig cwd params s plan).
Proof.
  unfold up_prelude. apply quiet_app; [apply quiet_boot|].
  apply quiet_app; [by repeat split | apply quiet_required].
Qed.

Lemma quiet_down_prelude (s : Server) plan :
  quiet (down_prelude path_join getConfig cwd params s plan).
Proof.
  unfold down_prelude. apply quiet_app; [apply quiet_boot|].
  apply quiet_app; [by repeat split | apply quiet_required].
Qed.

Lemma required_up_prelude (s : Server) plan :
  required (up_prelude path_join getConfig cwd params s plan)
  = up_path path_join cwd params <$> plan.
Proof.
  unfold up_prelude. rewrite !required_app, required_boot, required_Required. done.
Qed.

Lemma required_down_prelude (s : Server) plan :
  required (down_prelude path_join getConfig cwd params s plan)
  = down_path path_join cwd params <$> plan.
Proof.
  unfold down_prelude. rewrite !required_app, required_boot, required_Required. done.
Qed.

End Preludes.

(** ** Documents of the ledger *)

Lemma ledger_docs_set db t (s : Server) :
  is_Some (s !! db) →
  ledger_docs db (set_table db MIGRATION_TABLE_NAME t s) = Table.docs t.
Proof.
  intros Hdb. unfold ledger_docs, ledger_table. by rewrite get_table_set.
Qed.

Lemma insert_docs_old (ds : list Doc.t) (docs : gmap Id Doc.t) i d :
  docs !! i = Some d → insert_docs ds docs !! i = Some d.
Proof.
  revert docs. induction ds as [|x ds IH]; intros docs Hi; [done|].
  rewrite insert_docs_cons. apply IH.
  rewrite lookup_insert_ne; [done|].
  intros <-. pose proof (is_fresh (dom docs)) as Hf.
  apply Hf, elem_of_dom. eauto.
Qed.

Lemma insert_docs_new (ds : list Doc.t) (docs : gmap Id Doc.t) d :
  d ∈ ds → ∃ i, insert_docs ds docs !! i = Some d.
Proof.
  revert docs. induction ds as [|x ds IH]; intros docs Hd.
  - by apply elem_of_nil in Hd.
  - rewrite insert_docs_cons. apply elem_of_cons in Hd as [->|Hd].
    + exists (fresh (dom docs)). apply insert_docs_old, lookup_insert_eq.
    + by apply IH.
Qed.

Lemma insert_docs_inv (ds : list Doc.t) (docs : gmap Id Doc.t) i d :
  insert_docs ds docs !! i = Some d → docs !! i = Some d ∨ d ∈ ds.
Proof.
  revert docs. induction ds as [|x ds IH]; intros docs Hi; [by left|].
  rewrite insert_docs_cons in Hi. apply IH in Hi as [Hi|Hi].
  - apply lookup_insert_Some in Hi as [[_ <-]|[_ Hi]]; [right; left | by left].
  - right. by right.
Qed.

Lemma delete_docs_other (ids : list Id) (docs : gmap Id Doc.t) i :
  i ∉ ids → delete_docs ids docs !! i = docs !! i.
Proof.
  revert docs. induction ids as [|x ids IH]; intros docs Hi; [done|].
  rewrite delete_docs_cons. apply not_elem_of_cons in Hi as [Hne Hi].
  rewrite IH by done. by rewrite lookup_delete_ne.
Qed.

Lemma delete_docs_gone (ids : list Id) (docs : gmap Id Doc.t) i :
  i ∈ ids → delete_docs ids docs !! i = None.
Proof.
  revert docs. induction ids as [|x ids IH]; intros docs Hi.
  - by apply elem_of_nil in Hi.
  - rewrite delete_docs_cons.
    destruct (decide (i ∈ ids)) as [Hin|Hnin]; [by apply IH|].
    apply elem_of_cons in Hi as [->|Hi]; [|done].
    rewrite delete_docs_other by done. apply lookup_delete_eq.
Qed.

Lemma ledger_ids_NoDup (t : Table.t) : NoDup (Migration.id <$> ledger t).
Proof.
  unfold ledger. rewrite merge_sort_Permutation. unfold rows.
  rewrite <- list_fmap_compose.
  apply (NoDup_fst_map_to_list (Table.docs t)).
Qed.

(** ** The backward plan *)

Lemma migrationsToRollBack_plan all (completed : list Migration.t) :
  completed ≠ [] →
  migrationsToRollBack all completed = Some <$> planBackward completed all.
Proof.
  intros Hne. unfold migrationsToRollBack, planBackward.
  apply last_is_Some in Hne as [e He].
  destruct all as [[]|]; by rewrite ?He.
Qed.

Lemma planBackward_sublist_reverse all (completed : list Migration.t) :
  planBackward completed all `sublist_of` reverse completed.
Proof.
  unfold planBackward.
  assert (option_list (last completed) `sublist_of` reverse completed).
  { destruct (last completed) as [e|] eqn:He; [|apply sublist_nil_l].
    apply last_Some in He as [l' ->]. rewrite reverse_snoc. simpl.
    apply sublist_skip, sublist_nil_l. }
  by destruct all as [[]|].
Qed.

Lemma planBackward_ids_NoDup all (t : Table.t) :
  NoDup (Migration.id <$> planBackward (ledger t) all).
Proof.
  apply (sublist_NoDup _ (Migration.id <$> reverse (ledger t))).
  - rewrite fmap_reverse, reverse_Permutation. apply ledger_ids_NoDup.
  - apply fmap_sublist, planBackward_sublist_reverse.
Qed.

Lemma planBackward_elem_of all (completed : list Migration.t) e :
  e ∈ planBackward completed all → e ∈ completed.
Proof.
  intros He. eapply elem_of_sublist in He; [|apply planBackward_sublist_reverse].
  by rewrite elem_of_reverse in He.
Qed.

Lemma loaded_up_length {U} plan (codes : list (MigrationFile.t U)) paths
    (require : string → Result (MigrationFile.t U)) :
  loads require paths codes → length paths = length plan →
  length (loaded_up plan codes) = length plan.
Proof.
  intros Hl Hlen. apply Forall2_length in Hl.
  unfold loaded_up. rewrite length_zip_with. lia.
Qed.

Lemma loaded_up_filename {U} plan (codes : list (MigrationFile.t U)) :
  length plan = length codes →
  UpMigration.filename <$> loaded_up plan codes = Candidate.filename <$> plan.
Proof.
  revert codes. induction plan as [|c plan IH]; intros [|code codes] Hlen;
    simpl in *; try done.
  f_equal. apply IH. lia.
Qed.

Lemma loaded_up_doc {U} plan (codes : list (MigrationFile.t U)) :
  length plan = length codes →
  doc_of <$> loaded_up plan codes = cand_doc <$> plan.
Proof.
  revert codes. induction plan as [|c plan IH]; intros [|code codes] Hlen;
    simpl in *; try done.
  f_equal. apply IH. lia.
Qed.

Lemma loaded_down_id {U} plan (codes : list (MigrationFile.t U)) :
  length plan = length codes →
  DownMigration.id <$> loaded_down plan codes = Migration.id <$> plan.
Proof.
  revert codes. induction plan as [|c plan IH]; intros [|code codes] Hlen;
    simpl in *; try done.
  f_equal. apply IH. lia.
Qed.

Lemma loaded_down_entry {U} plan (codes : list (MigrationFile.t U)) m :
  m ∈ loaded_down plan codes →
  Migration.mk (DownMigration.id m) (DownMigration.name m) (DownMigration.timestamp m)
  ∈ plan.
Proof.
  revert codes. induction plan as [|c plan IH]; intros [|code codes] Hm;
    simpl in *; try by apply elem_of_nil in Hm.
  apply elem_of_cons in Hm as [->|Hm].
  - simpl. destruct c. left.
  - right. by eapply IH.
Qed.

(** ** Halting on the first failure *)

Section FailFast.
Context {U : Type}.
Variable path_join : list string → string.
Variable require : string → Result (MigrationFile.t U).
Variable getConfig : string → Config.t.
Variable cwd : string.
Variable chalk : string → string → string.
Variable params : Params.t.
Implicit Types (w : World.t U) (t : Table.t).

Local Abbreviation db := (the_db getConfig cwd params).
Local Abbreviation dir := (migrations_dir path_join cwd params).
Local Abbreviation all := (Params.all params).
Local Abbreviation up_path := (up_path path_join cwd params).
Local Abbreviation down_path := (down_path path_join cwd params).

(** C2.  When the procedure of the k-th planned migration throws, the run
    halts there.  Forward: [up] returns normally; the procedures invoked are
    those of the first k planned migrations, in order, and no later one; the
    documents inserted are those of the first k-1, which the ledger holds at
    the end together with what it held before; nothing is inserted for the
    failed one; the failure is logged with its name.  Backward: [down]
    returns normally; the procedures invoked are those of the first k
    planned entries; the entries deleted are the first k-1; the entry of the
    failed one is still in the ledger; the failure is logged with its
    name. *)
Theorem fail_fast :
  (∀ w t files codes pre m post uk u' e,
    ledger_table db (boot_server db (World.server w)) = Some t →
    "timestamp" ∈ Table.indexes t →
    World.dirs w !! dir = Some files →
    loads require (up_path <$> planForward (ledger t) files all) codes →
    loaded_up (planForward (ledger t) files all) codes = pre ++ m :: post →
    run_all (ups pre) (World.user w) = Some uk →
    MigrationFile.up (UpMigration.code m) uk = (Throw e, u') →
    ∃ w' evs,
      up path_join require getConfig cwd chalk params w = (Ok tt, w')
      ∧ World.trace w' = World.trace w ++ evs
      ∧ evs = up_prelude path_join getConfig cwd params (World.server w)
                (planForward (ledger t) files all)
              ++ concat (up_step_events chalk <$> pre) ++ up_fail_events chalk m e
      ∧ invoked evs = (λ x, (Up, UpMigration.filename x)) <$> (pre ++ [m])
      ∧ inserted evs = doc_of <$> pre
      ∧ deleted evs = []
      ∧ ledger_docs db (World.server w') = insert_docs (doc_of <$> pre) (Table.docs t)
      ∧ ConsoleError (chalk "red" "[migrate-rethinkdb] "
                      +:+ "Migration failed: " +:+ UpMigration.name m) ∈ evs
      ∧ World.user w' = u')
  ∧
  (∀ w t codes pre m post uk u' e,
    ledger_table db (boot_server db (World.server w)) = Some t →
    "timestamp" ∈ Table.indexes t →
    loads require (down_path <$> planBackward (ledger t) all) codes →
    loaded_down (planBackward (ledger t) all) codes = pre ++ m :: post →
    run_all (downs pre) (World.user w) = Some uk →
    MigrationFile.down (DownMigration.code m) uk = (Throw e, u') →
    ∃ w' evs,
      down path_join require getConfig cwd chalk params w = (Ok tt, w')
      ∧ World.trace w' = World.trace w ++ evs
      ∧ evs = down_prelude path_join getConfig cwd params (World.server w)
                (planBackward (ledger t) all)
              ++ concat (down_step_events chalk <$> pre) ++ down_fail_events chalk m e
      ∧ invoked evs = (λ x, (Down, DownMigration.filename x)) <$> (pre ++ [m])
      ∧ deleted evs = DownMigration.id <$> pre
      ∧ inserted evs = []
      ∧ ledger_docs db (World.server w')
        = delete_docs (DownMigration.id <$> pre) (Table.docs t)
      ∧ ledger_docs db (World.server w') !! DownMigration.id m
        = Some (Doc.mk (DownMigration.name m) (DownMigration.timestamp m))
      ∧ ConsoleError (chalk "red" "[migrate-rethinkdb] "
                      +:+ "Migration failed: " +:+ DownMigration.name m) ∈ evs
      ∧ World.user w' = u').
Proof.
  split.
  - intros w t files codes pre m post uk u' e.
    intros Ht Hidx Hfiles Hloads Hplan Hpre Hm.
    erewrite up_eq by eassumption. rewrite Hplan.
    rewrite decide_False by (rewrite length_app; simpl; lia).
    rewrite bind_eq.
    erewrite up_loop_fail; [|reflexivity|exact Ht|exact Hpre|exact Hm].
    world_simpl.
    eexists _, _. split; [reflexivity|]. world_simpl.
    split; [by rewrite <- !(assoc_L (++))|].
    split; [reflexivity|].
    destruct (quiet_up_prelude path_join getConfig cwd params (World.server w)
                (planForward (ledger t) files all)) as (Hq1 & Hq2 & Hq3).
    destruct (quiet_failure chalk ("Migration failed: " +:+ UpMigration.name m) e)
      as (Hf1 & Hf2 & Hf3).
    unfold up_fail_events.
    split; [|split; [|split; [|split; [|split]]]].
    + rewrite !invoked_app, Hq1, invoked_up_steps, Hf1. by rewrite fmap_app.
    + rewrite !inserted_app, Hq2, inserted_up_steps, Hf2. simpl.
      by rewrite (right_id_L [] (++)).
    + by rewrite !deleted_app, Hq3, deleted_up_steps, Hf3.
    + rewrite ledger_docs_set by (eapply get_table_db, Ht). done.
    + rewrite !elem_of_app. right. right. right. unfold failure. left.
    + done.
  - intros w t codes pre m post uk u' e.
    intros Ht Hidx Hloads Hplan Hpre Hm.
    assert (Hne : ledger t ≠ []).
    { intros Hnil. rewrite Hnil in Hplan.
      assert (planBackward [] all = []) as Hnone by (by destruct all as [[]|]).
      rewrite Hnone in Hplan. simpl in Hplan. by destruct pre. }
    erewrite down_eq;
      [|exact Ht|exact Hidx|exact Hne|by apply migrationsToRollBack_plan|exact Hloads].
    rewrite Hplan. rewrite bind_eq.
    erewrite down_loop_fail; [|reflexivity|exact Ht|exact Hpre|exact Hm].
    world_simpl.
    eexists _, _. split; [reflexivity|]. world_simpl.
    split; [by rewrite <- !(assoc_L (++))|].
    split; [reflexivity|].
    destruct (quiet_down_prelude path_join getConfig cwd params (World.server w)
                (planBackward (ledger t) all)) as (Hq1 & Hq2 & Hq3).
    destruct (quiet_failure chalk ("Migration failed: " +:+ DownMigration.name m) e)
      as (Hf1 & Hf2 & Hf3).
    unfold down_fail_events.
    assert (Hlen : length (planBackward (ledger t) all) = length codes).
    { apply Forall2_length in Hloads. by rewrite length_fmap in Hloads. }
    split; [|split; [|split; [|split; [|split; [|split]]]]].
    + rewrite !invoked_app, Hq1, invoked_down_steps, Hf1. by rewrite fmap_app.
    + rewrite !deleted_app, Hq3, deleted_down_steps, Hf3. simpl.
      by rewrite (right_id_L [] (++)).
    + by rewrite !inserted_app, Hq2, inserted_down_steps, Hf2.
    + rewrite ledger_docs_set by (eapply get_table_db, Ht). done.
    + rewrite ledger_docs_set by (eapply get_table_db, Ht).
      unfold with_docs. cbn [Table.docs].
      pose proof (planBackward_ids_NoDup all t) as Hnd.
      rewrite <- (loaded_down_id _ codes), Hplan in Hnd by done.
      rewrite fmap_app, fmap_cons in Hnd.
      apply NoDup_app in Hnd as (_ & Hnot & _).
      rewrite delete_docs_other.
      2:{ intros Hin. apply (Hnot _ Hin). left. }
      assert (Hin : m ∈ loaded_down (planBackward (ledger t) all) codes).
      { rewrite Hplan. apply elem_of_app. right. left. }
      apply loaded_down_entry, planBackward_elem_of in Hin.
      by apply ledger_elem_of in Hin.
    + rewrite !elem_of_app. right. right. right. unfold failure. left.
    + done.
Qed.

End FailFast.

Lemma fail_fast_witness :
  (∃ w',
     Scenario.run_up Scenario.up_all
       (Scenario.world ["20230101000000-init.ts"; "20230102000000-addCol.ts";
                        "20230103000000-index.ts"]) = (Ok tt, w')
     ∧ invoked (World.trace w')
       = [(Up, "20230101000000-init.ts"); (Up, "20230102000000-addCol.ts")]
     ∧ inserted (World.trace w') = [Doc.mk "init" "20230101000000"])
  ∧
  (∃ w',
     Scenario.run_down Scenario.up_all
       (Scenario.migrated
          {[1%positive := Doc.mk "init" "20230101000000";
            2%positive := Doc.mk "drop" "20230104000000";
            3%positive := Doc.mk "index" "20230103000000"]} []) = (Ok tt, w')
     ∧ deleted (World.trace w') = []
     ∧ ledger_docs "test" (World.server w') !! 2%positive
       = Some (Doc.mk "drop" "20230104000000")).
Proof.
  split.
  - destruct (proj1 (fail_fast Scenario.path_join Scenario.require Scenario.getConfig
                       Scenario.cwd Scenario.chalk Scenario.up_all)
                (Scenario.world ["20230101000000-init.ts"; "20230102000000-addCol.ts";
                                 "20230103000000-index.ts"])
                fresh_table
                ["20230101000000-init.ts"; "20230102000000-addCol.ts";
                 "20230103000000-index.ts"]
                [Scenario.good; Scenario.bad_up; Scenario.good]
                [UpMigration.mk "init" "20230101000000" "20230101000000-init.ts"
                   Scenario.good]
                (UpMigration.mk "addCol" "20230102000000" "20230102000000-addCol.ts"
                   Scenario.bad_up)
                [UpMigration.mk "index" "20230103000000" "20230103000000-index.ts"
                   Scenario.good]
                1%nat 1%nat (Exn.Object "boom" "at line 1"))
      as (w' & evs & Hup & Htr & Hevs & Hinv & Hins & _).
    + reflexivity.
    + by vm_compute.
    + reflexivity.
    + repeat constructor.
    + reflexivity.
    + reflexivity.
    + reflexivity.
    + exists w'. split; [exact Hup|]. rewrite Htr. simpl. split; [exact Hinv | exact Hins].
  - destruct (proj2 (fail_fast Scenario.path_join Scenario.require Scenario.getConfig
                       Scenario.cwd Scenario.chalk Scenario.up_all)
                (Scenario.migrated
                   {[1%positive := Doc.mk "init" "20230101000000";
                     2%positive := Doc.mk "drop" "20230104000000";
                     3%positive := Doc.mk "index" "20230103000000"]} [])
                (Table.mk {[1%positive := Doc.mk "init" "20230101000000";
                            2%positive := Doc.mk "drop" "20230104000000";
                            3%positive := Doc.mk "index" "20230103000000"]}
                   {["timestamp"]})
                [Scenario.bad_down; Scenario.good; Scenario.good]
                []
                (DownMigration.mk 2%positive "drop" "20230104000000"
                   "20230104000000-drop" Scenario.bad_down)
                [DownMigration.mk 3%positive "index" "20230103000000"
                   "20230103000000-index" Scenario.good;
                 DownMigration.mk 1%positive "init" "20230101000000"
                   "20230101000000-init" Scenario.good]
                3%nat 3%nat (Exn.Object "boom" "at line 1"))
      as (w' & evs & Hdown & Htr & Hevs & Hinv & Hdel & Hins & Hdocs & Hentry & _).
    + reflexivity.
    + by vm_compute.
    + repeat constructor.
    + reflexivity.
    + reflexivity.
    + reflexivity.
    + exists w'. split; [exact Hdown|]. rewrite Htr. simpl.
      split; [exact Hdel | exact Hentry].
Defined.

(** ** Backward planning *)

Section Backward.
Context {U : Type}.
Variable path_join : list string → string.
Variable require : string → Result (MigrationFile.t U).
Variable getConfig : string → Config.t.
Variable cwd : string.
Variable chalk : string → string → string.
Variable params : Params.t.
Implicit Types (w : World.t U) (t : Table.t).

Local Abbreviation db := (the_db getConfig cwd params).

(** C3.  Let the ledger be what [down] reads.  When it is not empty, the
    plan with [all] is the ledger reversed, which is descending by
    timestamp, and the plan without [all] is the single last entry, whose
    timestamp is the greatest.  When it is empty, whatever [all] is, [down]
    plans nothing: it loads no module, invokes no procedure, deletes
    nothing, logs that there are no new migrations and returns normally. *)
Theorem planBackward_descending w t :
  ledger_table db (boot_server db (World.server w)) = Some t →
  "timestamp" ∈ Table.indexes t →
  (ledger t ≠ [] →
   migrationsToRollBack (Some true) (ledger t) = Some <$> reverse (ledger t)
   ∧ Sorted ts_ge (reverse (ledger t))
   ∧ ∀ all, all ≠ Some true →
       ∃ e, migrationsToRollBack all (ledger t) = [Some e]
            ∧ e ∈ ledger t
            ∧ ∀ e', e' ∈ ledger t → ts_le e' e)
  ∧ (ledger t = [] →
     ∃ w' evs,
       down path_join require getConfig cwd chalk params w = (Ok tt, w')
       ∧ World.trace w' = World.trace w ++ evs
       ∧ last evs = Some (info chalk ["No new migrations"])
       ∧ required evs = [] ∧ invoked evs = [] ∧ deleted evs = []
       ∧ World.server w' = boot_server db (World.server w)).
Proof.
  intros Ht Hidx. split.
  - intros Hne. split; [done|]. split.
    + apply (Sorted_reverse ts_le), ledger_sorted_ts.
    + intros all Hall. apply last_is_Some in Hne as [e He].
      exists e. split; [|split].
      * unfold migrationsToRollBack. rewrite He. by destruct all as [[]|].
      * by eapply last_Some_elem_of.
      * apply sorted_ts_last; [apply ledger_sorted_ts | done].
  - intros Hempty. erewrite down_empty_eq by eassumption.
    eexists _, _. split; [reflexivity|]. world_simpl. split; [reflexivity|].
    destruct (quiet_boot db (World.server w)) as (Hq1 & Hq2 & Hq3).
    split; [|split; [|split; [|split]]].
    + rewrite last_app. done.
    + by rewrite required_app, required_boot.
    + by rewrite invoked_app, Hq1.
    + by rewrite deleted_app, Hq3.
    + done.
Qed.

End Backward.

Lemma planBackward_descending_witness :
  (migrationsToRollBack (Some true)
     (ledger (Table.mk {[1%positive := Doc.mk "init" "20230101000000";
                         2%positive := Doc.mk "drop" "20230104000000";
                         3%positive := Doc.mk "index" "20230103000000"]}
                {["timestamp"]}))
   = [Some (Migration.mk 2 "drop" "20230104000000");
      Some (Migration.mk 3 "index" "20230103000000");
      Some (Migration.mk 1 "init" "20230101000000")])
  ∧ (∃ w', Scenario.run_down Scenario.up_one (Scenario.world []) = (Ok tt, w')
           ∧ invoked (World.trace w') = []).
Proof.
  split.
  - destruct (planBackward_descending Scenario.path_join Scenario.require
                Scenario.getConfig Scenario.cwd Scenario.chalk Scenario.up_all
                (Scenario.migrated
                   {[1%positive := Doc.mk "init" "20230101000000";
                     2%positive := Doc.mk "drop" "20230104000000";
                     3%positive := Doc.mk "index" "20230103000000"]} [])
                (Table.mk {[1%positive := Doc.mk "init" "20230101000000";
                            2%positive := Doc.mk "drop" "20230104000000";
                            3%positive := Doc.mk "index" "20230103000000"]}
                   {["timestamp"]}))
      as [Hplan _].
    + reflexivity.
    + by vm_compute.
    + destruct Hplan as [Hall _]; [by vm_compute|]. rewrite Hall. reflexivity.
  - destruct (planBackward_descending Scenario.path_join Scenario.require
                Scenario.getConfig Scenario.cwd Scenario.chalk Scenario.up_one
                (Scenario.world []) fresh_table)
      as [_ Hempty].
    + reflexivity.
    + by vm_compute.
    + destruct Hempty as (w' & evs & Hdown & Htr & _ & _ & Hinv & _); [reflexivity|].
      exists w'. split; [exact Hdown|]. rewrite Htr. exact Hinv.
Defined.

(** ** Runs in which every procedure returns *)

Section Success.
Context {U : Type}.
Variable path_join : list string → string.
Variable require : string → Result (MigrationFile.t U).
Variable getConfig : string → Config.t.
Variable cwd : string.
Variable chalk : string → string → string.
Variable params : Params.t.
Implicit Types (w : World.t U) (t : Table.t).

Local Abbreviation db := (the_db getConfig cwd params).
Local Abbreviation dir := (migrations_dir path_join cwd params).
Local Abbreviation all := (Params.all params).
Local Abbreviation up_path := (up_path path_join cwd params).
Local Abbreviation down_path := (down_path path_join cwd params).

Lemma up_ok_eq w t files codes u' :
  ledger_table db (boot_server db (World.server w)) = Some t →
  "timestamp" ∈ Table.indexes t →
  World.dirs w !! dir = Some files →
  loads require (up_path <$> planForward (ledger t) files all) codes →
  run_all (ups (loaded_up (planForward (ledger t) files all) codes)) (World.user w)
  = Some u' →
  up path_join require getConfig cwd chalk params w =
    (Ok tt,
     World.mk
       (set_table db MIGRATION_TABLE_NAME
          (with_docs
             (insert_docs (doc_of <$> loaded_up (planForward (ledger t) files all) codes)
                (Table.docs t)) t)
          (boot_server db (World.server w)))
       (Some db) u' (World.dirs w)
       (World.trace w
        ++ up_prelude path_join getConfig cwd params (World.server w)
             (planForward (ledger t) files all)
        ++ concat (up_step_events chalk
                   <$> loaded_up (planForward (ledger t) files all) codes)
        ++ [info chalk [if decide (planForward (ledger t) files all = [])
                        then "No new migrations" else "Migration Successful"]])).
Proof.
  intros Ht Hidx Hfiles Hloads Hrun.
  erewrite up_eq by eassumption.
  assert (Hlen : length (planForward (ledger t) files all) = length codes).
  { apply Forall2_length in Hloads. by rewrite length_fmap in Hloads. }
  destruct (planForward (ledger t) files all) as [|c plan] eqn:Hplan.
  - destruct codes; [|done]. simpl in Hrun. injection Hrun as <-.
    cbn [loaded_up zip_with length]. rewrite decide_True by lia.
    rewrite logInfo_eq. world_simpl. rewrite decide_True by done.
    rewrite !fmap_nil. cbn [concat insert_docs foldl app].
    rewrite with_docs_same, set_table_same by done.
    by rewrite <- !(assoc_L (++)).
  - destruct codes as [|code codes]; [done|].
    rewrite decide_False by (simpl; lia).
    rewrite bind_eq.
    erewrite up_loop_ok; [|reflexivity|exact Ht|exact Hrun].
    world_simpl. rewrite logInfo_eq. world_simpl.
    rewrite decide_False by done.
    by rewrite <- !(assoc_L (++)).
Qed.

Lemma down_ok_eq w t codes u' :
  ledger_table db (boot_server db (World.server w)) = Some t →
  "timestamp" ∈ Table.indexes t →
  ledger t ≠ [] →
  loads require (down_path <$> planBackward (ledger t) all) codes →
  run_all (downs (loaded_down (planBackward (ledger t) all) codes)) (World.user w)
  = Some u' →
  down path_join require getConfig cwd chalk params w =
    (Ok tt,
     World.mk
       (set_table db MIGRATION_TABLE_NAME
          (with_docs
             (delete_docs
                (DownMigration.id <$> loaded_down (planBackward (ledger t) all) codes)
                (Table.docs t)) t)
          (boot_server db (World.server w)))
       (Some db) u' (World.dirs w)
       (World.trace w
        ++ down_prelude path_join getConfig cwd params (World.server w)
             (planBackward (ledger t) all)
        ++ concat (down_step_events chalk
                   <$> loaded_down (planBackward (ledger t) all) codes)
        ++ [info chalk ["Migration successful"]])).
Proof.
  intros Ht Hidx Hne Hloads Hrun.
  erewrite down_eq;
    [|exact Ht|exact Hidx|exact Hne|by apply migrationsToRollBack_plan|exact Hloads].
  rewrite bind_eq.
  erewrite down_loop_ok; [|reflexivity|exact Ht|exact Hrun].
  world_simpl. rewrite logInfo_eq. world_simpl.
  by rewrite <- !(assoc_L (++)).
Qed.

End Success.

(** ** Running [up] twice *)

Lemma nothing_newer_after (t : Table.t) (files : list string) :
  planForward
    (ledger (with_docs
               (insert_docs (cand_doc <$> planForward (ledger t) files (Some true))
                  (Table.docs t)) t))
    files (Some true) = [].
Proof.
  set (plan := planForward (ledger t) files (Some true)).
  set (t1 := with_docs (insert_docs (cand_doc <$> plan) (Table.docs t)) t).
  rewrite planForward_all. apply filter_none, Forall_forall.
  intros c Hc Hnew. apply Is_true_true in Hnew.
  assert (Hle : ∀ e, e ∈ ledger t1 → ¬ is_newer (Some e) c = true →
                is_newer (last (ledger t1)) c = false).
  { intros e He Hold.
    destruct (last (ledger t1)) as [e1|] eqn:He1.
    - simpl in *. apply not_true_is_false in Hold.
      apply gt_false_le in Hold. apply gt_false_le.
      etrans; [exact Hold|].
      apply (sorted_ts_last (ledger t1) e1); [apply ledger_sorted_ts | done..].
    - apply last_None in He1. rewrite He1 in He. by apply elem_of_nil in He. }
  destruct (is_newer (last (ledger t)) c) eqn:Hwas.
  - assert (Hin : c ∈ plan).
    { unfold plan. rewrite planForward_all. apply list_elem_of_filter.
      split; [by apply Is_true_true | done]. }
    destruct (insert_docs_new (cand_doc <$> plan) (Table.docs t) (cand_doc c))
      as [i Hi]; [by apply list_elem_of_fmap_2|].
    rewrite (Hle (Migration.mk i (Candidate.name c) (Candidate.timestamp c))) in Hnew;
      [done| |].
    + by apply ledger_elem_of.
    + simpl. intros Hgt. apply gt_not_le in Hgt. apply Hgt. reflexivity.
  - destruct (last (ledger t)) as [e|] eqn:He; [|done].
    rewrite (Hle e) in Hnew; [done| |].
    + apply ledger_elem_of. simpl. apply insert_docs_old.
      apply ledger_elem_of. by eapply last_Some_elem_of.
    + simpl in *. by rewrite Hwas.
Qed.

Section Idempotence.
Context {U : Type}.
Variable path_join : list string → string.
Variable require : string → Result (MigrationFile.t U).
Variable getConfig : string → Config.t.
Variable cwd : string.
Variable chalk : string → string → string.
Variable params : Params.t.
Implicit Types (w : World.t U) (t : Table.t).

Local Abbreviation db := (the_db getConfig cwd params).
Local Abbreviation dir := (migrations_dir path_join cwd params).
Local Abbreviation up_path := (up_path path_join cwd params).

(** C5.  After a run of [up] with [all] in which every planned procedure
    returned, a second run of [up] with [all] over the same directory loads
    no module, invokes no procedure, inserts and deletes nothing, leaves the
    server and the user data as they were, and ends by logging that there
    are no new migrations. *)
Theorem up_all_twice w t files codes u' :
  Params.all params = Some true →
  ledger_table db (boot_server db (World.server w)) = Some t →
  "timestamp" ∈ Table.indexes t →
  World.dirs w !! dir = Some files →
  loads require (up_path <$> planForward (ledger t) files (Some true)) codes →
  run_all (ups (loaded_up (planForward (ledger t) files (Some true)) codes))
    (World.user w) = Some u' →
  ∃ w1 w2 evs,
    up path_join require getConfig cwd chalk params w = (Ok tt, w1)
    ∧ up path_join require getConfig cwd chalk params w1 = (Ok tt, w2)
    ∧ World.trace w2 = World.trace w1 ++ evs
    ∧ required evs = [] ∧ invoked evs = [] ∧ inserted evs = [] ∧ deleted evs = []
    ∧ World.server w2 = World.server w1
    ∧ World.user w2 = World.user w1
    ∧ last evs = Some (info chalk ["No new migrations"]).
Proof.
  intros Hall Ht Hidx Hfiles Hloads Hrun.
  assert (Hlen : length (planForward (ledger t) files (Some true)) = length codes).
  { apply Forall2_length in Hloads. by rewrite length_fmap in Hloads. }
  set (t1 := with_docs
               (insert_docs (cand_doc <$> planForward (ledger t) files (Some true))
                  (Table.docs t)) t).
  pose proof (up_ok_eq path_join require getConfig cwd chalk params w t files codes u')
    as Hfirst.
  rewrite Hall in Hfirst. specialize (Hfirst Ht Hidx Hfiles Hloads Hrun).
  rewrite loaded_up_doc in Hfirst by done. fold t1 in Hfirst.
  eexists _, _, _. split; [exact Hfirst|].
  assert (Ht1 : ledger_table db
                  (set_table db MIGRATION_TABLE_NAME t1
                     (boot_server db (World.server w))) = Some t1).
  { apply get_table_set. eapply get_table_db, Ht. }
  pose proof (up_ok_eq path_join require getConfig cwd chalk params
                (World.mk
                   (set_table db MIGRATION_TABLE_NAME t1 (boot_server db (World.server w)))
                   (Some db) u' (World.dirs w)
                   (World.trace w
                    ++ up_prelude path_join getConfig cwd params (World.server w)
                         (planForward (ledger t) files (Some true))
                    ++ concat (up_step_events chalk
                               <$> loaded_up (planForward (ledger t) files (Some true))
                                     codes)
                    ++ [info chalk [if decide (planForward (ledger t) files (Some true) = [])
                                    then "No new migrations"
                                    else "Migration Successful"]]))
                t1 files [] u') as Hsecond.
  rewrite Hall in Hsecond. cbn [World.server World.user World.dirs World.trace] in Hsecond.
  rewrite (boot_server_id _ _ t1) in Hsecond by done.
  assert (Hnone : planForward (ledger t1) files (Some true) = [])
    by apply nothing_newer_after.
  rewrite Hnone in Hsecond.
  rewrite Hsecond; [|done|done|done|constructor|done].
  split; [reflexivity|]. world_simpl.
  change (loaded_up [] []) with (@nil (UpMigration.t U)).
  rewrite !fmap_nil. cbn [concat insert_docs foldl app].
  destruct (decide (@nil Candidate.t = [])) as [_|]; [|done].
  rewrite with_docs_same, set_table_set.
  split; [reflexivity|].
  destruct (quiet_up_prelude path_join getConfig cwd params
              (set_table db MIGRATION_TABLE_NAME t1 (boot_server db (World.server w))) [])
    as (Hq1 & Hq2 & Hq3).
  split; [|split; [|split; [|split; [|split; [|split]]]]].
  - rewrite required_app, required_up_prelude. done.
  - by rewrite invoked_app, Hq1.
  - by rewrite inserted_app, Hq2.
  - by rewrite deleted_app, Hq3.
  - done.
  - done.
  - by rewrite last_app.
Qed.

End Idempotence.

Lemma up_all_twice_witness :
  ∃ w1 w2,
    Scenario.run_up Scenario.up_all
      (Scenario.world ["20230101000000-init.ts"; "20230103000000-index.ts"]) = (Ok tt, w1)
    ∧ Scenario.run_up Scenario.up_all w1 = (Ok tt, w2)
    ∧ World.server w2 = World.server w1
    ∧ World.user w2 = 2%nat.
Proof.
  destruct (up_all_twice Scenario.path_join Scenario.require Scenario.getConfig
              Scenario.cwd Scenario.chalk Scenario.up_all
              (Scenario.world ["20230101000000-init.ts"; "20230103000000-index.ts"])
              fresh_table
              ["20230101000000-init.ts"; "20230103000000-index.ts"]
              [Scenario.good; Scenario.good] 2%nat)
    as (w1 & w2 & evs & Hfirst & Hsecond & _ & _ & _ & _ & _ & Hserver & Huser & _).
  - reflexivity.
  - reflexivity.
  - by vm_compute.
  - reflexivity.
  - repeat constructor.
  - reflexivity.
  - exists w1, w2. split; [exact Hfirst|]. split; [exact Hsecond|].
    split; [exact Hserver|]. rewrite Huser.
    unfold Scenario.run_up in Hfirst. vm_compute in Hfirst.
    by injection Hfirst as <-.
Defined.

(** ** Forward, then back *)

Lemma last_ledger_inserted (t : Table.t) (c : Candidate.t) :
  is_newer (last (ledger t)) c = true →
  last (ledger (with_docs (<[fresh (dom (Table.docs t)) := cand_doc c]> (Table.docs t)) t))
  = Some (Migration.mk (fresh (dom (Table.docs t)))
            (Candidate.name c) (Candidate.timestamp c)).
Proof.
  intros Hnew.
  set (i := fresh (dom (Table.docs t))).
  set (t1 := with_docs (<[i := cand_doc c]> (Table.docs t)) t).
  set (e := Migration.mk i (Candidate.name c) (Candidate.timestamp c)).
  assert (Hfresh : Table.docs t !! i = None).
  { apply not_elem_of_dom, is_fresh. }
  assert (He : e ∈ ledger t1) by (apply ledger_elem_of; apply lookup_insert_eq).
  destruct (last (ledger t1)) as [x|] eqn:Hx.
  2:{ apply last_None in Hx. rewrite Hx in He. by apply elem_of_nil in He. }
  f_equal.
  pose proof (last_Some_elem_of _ _ Hx) as Hxin.
  apply ledger_elem_of in Hxin. cbn [t1 with_docs Table.docs] in Hxin.
  apply lookup_insert_Some in Hxin as [[Hid Hdoc]|[Hid Hold]].
  - destruct x as [xi xn xts]. simpl in *. unfold cand_doc in Hdoc.
    injection Hdoc as <- <-. by subst xi.
  - exfalso.
    assert (Hxt : x ∈ ledger t) by (by apply ledger_elem_of).
    pose proof (sorted_ts_last (ledger t1) x (ledger_sorted_ts t1) Hx e He) as Hex.
    unfold ts_le in Hex. simpl in Hex.
    destruct (last (ledger t)) as [l0|] eqn:Hl0.
    + simpl in Hnew. apply gt_not_le in Hnew. apply Hnew.
      etrans; [exact Hex|].
      apply (sorted_ts_last (ledger t) l0 (ledger_sorted_ts t) Hl0 x Hxt).
    + apply last_None in Hl0. rewrite Hl0 in Hxt. by apply elem_of_nil in Hxt.
Qed.

Section RoundTrip.
Context {U : Type}.
Variable path_join : list string → string.
Variable require : string → Result (MigrationFile.t U).
Variable getConfig : string → Config.t.
Variable cwd : string.
Variable chalk : string → string → string.
Variable params : Params.t.
Implicit Types (w : World.t U) (t : Table.t).

Local Abbreviation db := (the_db getConfig cwd params).
Local Abbreviation dir := (migrations_dir path_join cwd params).
Local Abbreviation all := (Params.all params).
Local Abbreviation up_path := (up_path path_join cwd params).
Local Abbreviation down_path := (down_path path_join cwd params).

(** C6.  Let [up] apply one pending migration: its procedure returns and
    its document is inserted under a generated key.  Let [down], without
    [all], follow immediately, and the backward procedure return.  Then
    [down] deletes that very document: the ledger holds exactly the
    documents it held before [up], and the directories are untouched by
    both. *)
Theorem up_then_down w t files c code code' u1 u2 :
  all ≠ Some true →
  ledger_table db (boot_server db (World.server w)) = Some t →
  "timestamp" ∈ Table.indexes t →
  World.dirs w !! dir = Some files →
  planForward (ledger t) files all = [c] →
  require (up_path c) = Ok code →
  MigrationFile.up code (World.user w) = (Ok tt, u1) →
  require (down_path (Migration.mk (fresh (dom (Table.docs t)))
                        (Candidate.name c) (Candidate.timestamp c))) = Ok code' →
  MigrationFile.down code' u1 = (Ok tt, u2) →
  ∃ w1 w2,
    up path_join require getConfig cwd chalk params w = (Ok tt, w1)
    ∧ down path_join require getConfig cwd chalk params w1 = (Ok tt, w2)
    ∧ ledger_docs db (World.server w1)
      = <[fresh (dom (Table.docs t)) := cand_doc c]> (Table.docs t)
    ∧ inserted (World.trace w1) = inserted (World.trace w) ++ [cand_doc c]
    ∧ deleted (World.trace w2) = deleted (World.trace w1) ++ [fresh (dom (Table.docs t))]
    ∧ ledger_docs db (World.server w2) = Table.docs t
    ∧ World.server w2 = boot_server db (World.server w)
    ∧ World.dirs w1 = World.dirs w
    ∧ World.dirs w2 = World.dirs w.
Proof.
  intros Hall Ht Hidx Hfiles Hplan Hcode Hup Hcode' Hdown.
  set (i := fresh (dom (Table.docs t))) in *.
  set (e := Migration.mk i (Candidate.name c) (Candidate.timestamp c)) in *.
  set (t1 := with_docs (<[i := cand_doc c]> (Table.docs t)) t).
  assert (Hdb : is_Some (boot_server db (World.server w) !! db))
    by (eapply get_table_db, Ht).
  pose proof (up_ok_eq path_join require getConfig cwd chalk params w t files [code] u1
                Ht Hidx Hfiles) as Hfirst.
  rewrite Hplan in Hfirst.
  assert (Hl1 : loads require (up_path <$> [c]) [code]) by (by repeat constructor).
  assert (Hr1 : run_all (ups (loaded_up [c] [code])) (World.user w) = Some u1)
    by (simpl; by rewrite Hup).
  specialize (Hfirst Hl1 Hr1).
  change (insert_docs (doc_of <$> loaded_up [c] [code]) (Table.docs t))
    with (<[i := cand_doc c]> (Table.docs t)) in Hfirst.
  fold t1 in Hfirst.
  eexists _, _. split; [exact Hfirst|].
  assert (Ht1 : ledger_table db
                  (set_table db MIGRATION_TABLE_NAME t1
                     (boot_server db (World.server w))) = Some t1)
    by (by apply get_table_set).
  assert (Hlast : last (ledger t1) = Some e).
  { apply last_ledger_inserted.
    assert (Hin : c ∈ planForward (ledger t) files all) by (rewrite Hplan; left).
    by apply planForward_newer in Hin. }
  assert (Hback : planBackward (ledger t1) all = [e]).
  { unfold planBackward. rewrite Hlast. by destruct all as [[]|]. }
  erewrite (down_ok_eq path_join require getConfig cwd chalk params _ t1 [code'] u2).
  2:{ world_simpl. by rewrite (boot_server_id _ _ t1). }
  2:{ done. }
  2:{ intros Hnil. by rewrite Hnil in Hlast. }
  2:{ rewrite Hback. unfold loads. rewrite fmap_cons, fmap_nil. by repeat constructor. }
  2:{ rewrite Hback. world_simpl. unfold downs, loaded_down. simpl. by rewrite Hdown. }
  split; [reflexivity|]. world_simpl.
  rewrite (boot_server_id db
             (set_table db MIGRATION_TABLE_NAME t1 (boot_server db (World.server w))) t1)
    by done.
  rewrite Hback.
  unfold loaded_down. cbn [zip_with]. rewrite !fmap_cons, !fmap_nil.
  cbn [DownMigration.id Migration.id e delete_docs foldl].
  rewrite set_table_set.
  assert (Hfresh : Table.docs t !! i = None) by apply not_elem_of_dom, is_fresh.
  assert (Hback_docs : delete i (Table.docs t1) = Table.docs t)
    by (by apply delete_insert_id).
  rewrite Hback_docs.
  change (with_docs (Table.docs t) t1) with (with_docs (Table.docs t) t).
  rewrite with_docs_same.
  destruct (quiet_up_prelude path_join getConfig cwd params (World.server w) [c])
    as (Hq1 & Hq2 & Hq3).
  destruct (quiet_down_prelude path_join getConfig cwd params
              (set_table db MIGRATION_TABLE_NAME t1 (boot_server db (World.server w))) [e])
    as (Hd1 & Hd2 & Hd3).
  split; [|split; [|split; [|split; [|split; [|split]]]]].
  - by rewrite ledger_docs_set.
  - rewrite !inserted_app, Hq2. done.
  - rewrite !deleted_app, Hd3. cbn [concat]. rewrite !deleted_app. simpl.
    by rewrite (right_id_L [] (++)).
  - rewrite ledger_docs_set by done. done.
  - by rewrite set_table_same.
  - done.
  - done.
Qed.

End RoundTrip.

Lemma up_then_down_witness :
  ∃ w1 w2,
    Scenario.run_up Scenario.up_one (Scenario.world ["20230101000000-init.ts"]) = (Ok tt, w1)
    ∧ Scenario.run_down Scenario.up_one w1 = (Ok tt, w2)
    ∧ ledger_docs "test" (World.server w1) = {[1%positive := Doc.mk "init" "20230101000000"]}
    ∧ ledger_docs "test" (World.server w2) = ∅.
Proof.
  destruct (up_then_down Scenario.path_join Scenario.require Scenario.getConfig
              Scenario.cwd Scenario.chalk Scenario.up_one
              (Scenario.world ["20230101000000-init.ts"]) fresh_table
              ["20230101000000-init.ts"]
              (Candidate.mk "init" "20230101000000" "20230101000000-init.ts")
              Scenario.good Scenario.good 1%nat 0%nat)
    as (w1 & w2 & Hup & Hdown & Hdocs1 & _ & _ & Hdocs2 & _).
  - discriminate.
  - reflexivity.
  - by vm_compute.
  - reflexivity.
  - reflexivity.
  - reflexivity.
  - reflexivity.
  - reflexivity.
  - reflexivity.
  - exists w1, w2. split; [exact Hup|]. split; [exact Hdown|].
    split; [exact Hdocs1 | exact Hdocs2].
Defined.

(** ** What every run does *)

Section Safety.
Context {U : Type}.
Implicit Types (w : World.t U) (P : Event → Prop).

Lemma extends_refl P w : extends P w w.
Proof. exists []. by rewrite (right_id_L [] (++)). Qed.

Lemma extends_trans P w1 w2 w3 : extends P w1 w2 → extends P w2 w3 → extends P w1 w3.
Proof.
  intros (evs1 & H1 & HP1) (evs2 & H2 & HP2). exists (evs1 ++ evs2).
  split; [by rewrite H2, H1, (assoc_L (++)) | by apply Forall_app].
Qed.

Lemma extends_events P w s p u ds evs :
  Forall P evs → extends P w (World.mk s p u ds (World.trace w ++ evs)).
Proof. intros HP. by exists evs. Qed.

Lemma safe_bind {A B} P (m : M U A) (k : A → M U B) w :
  extends P w (m w).2 →
  (∀ a w', m w = (Ok a, w') → extends P w' (k a w').2) →
  extends P w ((m ≫= k) w).2.
Proof.
  intros Hm Hk. rewrite bind_eq. destruct (m w) as [[a|e] w'] eqn:Hmw; simpl in *.
  - eapply extends_trans; [exact Hm | by apply Hk].
  - exact Hm.
Qed.

Lemma safe_run {A} P q (f : string → Server → Result A * Server) :
  P (Run q) → safe (U:=U) P (R.run q f).
Proof.
  intros HP w. unfold R.run. destruct (World.pool w); [|apply extends_refl].
  world_simpl. destruct (f _ _) as [r s']. world_simpl.
  apply extends_events. by repeat constructor.
Qed.

Lemma safe_emit P ev : P ev → safe (U:=U) P (emit ev).
Proof. intros HP w. apply extends_events. by repeat constructor. Qed.

Lemma safe_logInfo P chalk args :
  (∀ line, P (ConsoleLog line)) → safe (U:=U) P (logInfo chalk args).
Proof. intros HP. by apply safe_emit. Qed.

Lemma safe_logError P chalk txt e :
  (∀ line, P (ConsoleError line)) → (∀ v, P (ConsoleErrorValue v)) →
  safe (U:=U) P (logError chalk txt e).
Proof.
  intros HP1 HP2 w. rewrite logError_eq. apply extends_events.
  unfold failure. destruct e as [|msg stack]; [by repeat constructor|].
  case_decide; by repeat constructor.
Qed.

Lemma safe_invoke P d filename (fn : MigrationFn U) :
  P (Invoke d filename) → safe P (invoke d filename fn).
Proof.
  intros HP w. rewrite invoke_eq. apply extends_events. by repeat constructor.
Qed.

Lemma safe_load P (require : string → Result (MigrationFile.t U)) path :
  P (Required path) → safe P (load require path).
Proof. intros HP w. apply extends_events. by repeat constructor. Qed.

Lemma safe_readdir P d : P (Readdir d) → safe (U:=U) P (readdir d).
Proof.
  intros HP w. unfold readdir.
  destruct (World.dirs w !! d); apply extends_events; by repeat constructor.
Qed.

Lemma safe_mapM {A B} P (f : A → M U B) (xs : list A) :
  (∀ x, safe P (f x)) → safe P (mapM f xs).
Proof.
  intros Hf. induction xs as [|x xs IH]; intros w; [apply extends_refl|].
  cbn [mapM]. apply safe_bind; [apply Hf|]. intros y w' _.
  apply safe_bind; [apply IH|]. intros ys w'' _. apply extends_refl.
Qed.

End Safety.

Section UpSafety.
Context {U : Type}.
Variable path_join : list string → string.
Variable require : string → Result (MigrationFile.t U).
Variable getConfig : string → Config.t.
Variable cwd : string.
Variable chalk : string → string → string.
Variable params : Params.t.
Implicit Types (w : World.t U) (t : Table.t).

Local Abbreviation db := (the_db getConfig cwd params).
Local Abbreviation dir := (migrations_dir path_join cwd params).
Local Abbreviation root := (rootDir cwd params).
Local Abbreviation all := (Params.all params).

Lemma extends_attempt {A} P (m : M U A) w :
  extends P w (m w).2 → extends P w (attempt m w).2.
Proof. unfold attempt. by destruct (m w). Qed.

Lemma up_loop_safe plan (ms : list (UpMigration.t U)) :
  UpMigration.filename <$> ms ⊆ Candidate.filename <$> plan →
  doc_of <$> ms ⊆ cand_doc <$> plan →
  safe (planned_only plan) (up_loop chalk ms).
Proof.
  induction ms as [|m ms IH]; intros Hf Hd w; [apply extends_refl|].
  rewrite !fmap_cons in *.
  cbn [up_loop]. apply safe_bind; [by apply safe_logInfo|]. intros _ w1 _.
  apply safe_bind.
  { apply extends_attempt, safe_invoke. split; [done|]. apply Hf. left. }
  intros [[]|e] w2 _.
  - apply safe_bind.
    { apply safe_run. simpl. apply Hd. left. }
    intros _ w3 _. apply IH.
    + intros x Hx. apply Hf. by right.
    + intros x Hx. apply Hd. by right.
  - apply safe_bind; [by apply safe_logError|]. intros _ w3 _. apply extends_refl.
Qed.

Lemma mapM_length {A B} (f : A → M U B) (xs : list A) w ys w' :
  mapM f xs w = (Ok ys, w') → length ys = length xs.
Proof.
  revert w ys w'. induction xs as [|x xs IH]; intros w ys w' H.
  - by injection H as <- _.
  - cbn [mapM] in H. rewrite bind_eq in H.
    destruct (f x w) as [[y|e] w1]; [|done].
    rewrite bind_eq in H. destruct (mapM f xs w1) as [[ys1|e] w2] eqn:Hxs; [|done].
    unfold mret, M_ret, ret in H. injection H as <- _. simpl. f_equal. by eapply IH.
Qed.

Lemma getMigrationsExcept_inv latest n w ms w' :
  getMigrationsExcept path_join require latest root n w = (Ok ms, w') →
  ∃ files codes,
    World.dirs w !! dir = Some files
    ∧ length (migrationsToApply latest files n) = length codes
    ∧ ms = loaded_up (migrationsToApply latest files n) codes.
Proof.
  unfold getMigrationsExcept. rewrite bind_eq. unfold readdir.
  fold dir. destruct (World.dirs w !! dir) as [files|] eqn:Hfiles; [|done].
  rewrite bind_eq.
  destruct (mapM _ _ _) as [[codes|e] w1] eqn:Hm; [|done].
  intros H. injection H as <- _. apply mapM_length in Hm.
  by exists files, codes.
Qed.

Lemma getMigrationsExcept_safe P latest n :
  (∀ d, P (Readdir d)) → (∀ p, P (Required p)) →
  safe P (getMigrationsExcept path_join require latest root n).
Proof.
  intros HP1 HP2 w. unfold getMigrationsExcept.
  apply safe_bind; [by apply safe_readdir|]. intros files w1 _.
  apply safe_bind.
  { apply safe_mapM. intros x. by apply safe_load. }
  intros codes w2 _. apply extends_refl.
Qed.

Lemma boot_trace_planned plan (s : Server) :
  Forall (planned_only plan) (boot_trace db s).
Proof.
  unfold boot_trace.
  destruct (s !! db); destruct (ledger_table db (with_db db s)); by repeat constructor.
Qed.

(** Every run of [up], however it ends, invokes and records planned
    candidates only. *)
Lemma up_planned_only w t plan :
  ledger_table db (boot_server db (World.server w)) = Some t →
  (∀ files, World.dirs w !! dir = Some files → plan = planForward (ledger t) files all) →
  extends (planned_only plan) w (up path_join require getConfig cwd chalk params w).2.
Proof.
  intros Ht Hplan. unfold up. cbn zeta.
  apply safe_bind.
  { rewrite connectToDb_eq. apply extends_events, boot_trace_planned. }
  intros [] w1 Hw1. rewrite connectToDb_eq in Hw1. injection Hw1 as <-.
  apply safe_bind; [by apply safe_run|].
  intros completed w2 Hw2.
  destruct (decide ("timestamp" ∈ Table.indexes t)) as [Hidx|Hidx].
  2:{ erewrite orderBy_no_index in Hw2; [done|reflexivity|exact Ht|exact Hidx]. }
  erewrite orderBy_eq in Hw2; [|reflexivity|exact Ht|exact Hidx].
  injection Hw2 as <- <-.
  apply safe_bind; [by apply getMigrationsExcept_safe|].
  intros ms w3 Hw3.
  apply getMigrationsExcept_inv in Hw3 as (files & codes & Hfiles & Hlen & ->).
  world_simpl. simpl in Hfiles. apply Hplan in Hfiles.
  fold (planForward (ledger t) files all). rewrite <- Hfiles.
  case_decide; [by apply safe_logInfo|].
  assert (Hlen' : length plan = length codes).
  { rewrite Hfiles. exact Hlen. }
  apply safe_bind.
  { apply up_loop_safe.
    - by rewrite loaded_up_filename.
    - by rewrite loaded_up_doc. }
  intros [] w4 _; [by apply safe_logInfo | apply extends_refl].
Qed.

End UpSafety.

(** ** Candidates that are not newer than the latest entry *)

Lemma invoked_elem_of evs d f : (d, f) ∈ invoked evs ↔ Invoke d f ∈ evs.
Proof.
  unfold invoked. rewrite list_elem_of_omap. split.
  - intros (ev & Hev & Heq). destruct ev; try done. by injection Heq as -> ->.
  - intros Hev. by exists (Invoke d f).
Qed.

Lemma inserted_elem_of evs doc : doc ∈ inserted evs ↔ ∃ tb, Run (Insert tb doc) ∈ evs.
Proof.
  unfold inserted. rewrite list_elem_of_omap. split.
  - intros (ev & Hev & Heq). destruct ev as [| | | | | |[]| |]; try done.
    injection Heq as ->. eauto.
  - intros (tb & Hev). by exists (Run (Insert tb doc)).
Qed.

Lemma planForward_filename ledger files all c :
  c ∈ planForward ledger files all → c = parse (Candidate.filename c).
Proof.
  intros Hc. eapply elem_of_sublist in Hc; [|apply planForward_sublist].
  unfold candidates in Hc. apply list_elem_of_fmap in Hc as (f & -> & _). done.
Qed.

Section Skipped.
Context {U : Type}.
Variable path_join : list string → string.
Variable require : string → Result (MigrationFile.t U).
Variable getConfig : string → Config.t.
Variable cwd : string.
Variable chalk : string → string → string.
Variable params : Params.t.
Implicit Types (w : World.t U) (t : Table.t).

Local Abbreviation db := (the_db getConfig cwd params).

(** C7.  Let [latest] be the last entry of the ledger that [up] reads.  A
    file whose timestamp is not greater than that of [latest] is never
    applied, however the run ends: its forward procedure is not invoked,
    and every document the run inserts has a timestamp greater than that of
    [latest], hence another one.  Whether the ledger has an entry with the
    timestamp of the file plays no role: only [latest] is compared. *)
Theorem older_candidates_never_applied w t latest f r w' :
  ledger_table db (boot_server db (World.server w)) = Some t →
  last (ledger t) = Some latest →
  Js.gt (Candidate.timestamp (parse f)) (Migration.timestamp latest) = false →
  up path_join require getConfig cwd chalk params w = (r, w') →
  ∃ evs,
    World.trace w' = World.trace w ++ evs
    ∧ ((Up, f) ∉ invoked evs)
    ∧ (∀ doc, doc ∈ inserted evs →
              Js.gt (Doc.timestamp doc) (Migration.timestamp latest) = true)
    ∧ (∀ doc, doc ∈ inserted evs → Doc.timestamp doc ≠ Candidate.timestamp (parse f)).
Proof.
  intros Ht Hlatest Hold Hup.
  set (plan := match World.dirs w !! migrations_dir path_join cwd params with
               | Some files => planForward (ledger t) files (Params.all params)
               | None => []
               end).
  destruct (up_planned_only path_join require getConfig cwd chalk params w t plan Ht)
    as (evs & Htrace & Hevs).
  { intros files Hfiles. unfold plan. by rewrite Hfiles. }
  rewrite Hup in Htrace. simpl in Htrace.
  assert (Hnewer : ∀ c, c ∈ plan →
            Js.gt (Candidate.timestamp c) (Migration.timestamp latest) = true).
  { intros c Hc. unfold plan in Hc.
    destruct (World.dirs w !! _) as [files|]; [|by apply elem_of_nil in Hc].
    apply planForward_newer in Hc. unfold is_newer in Hc. by rewrite Hlatest in Hc. }
  assert (Hparse : ∀ c, c ∈ plan → c = parse (Candidate.filename c)).
  { intros c Hc. unfold plan in Hc.
    destruct (World.dirs w !! _) as [files|]; [|by apply elem_of_nil in Hc].
    by eapply planForward_filename. }
  rewrite Forall_forall in Hevs.
  assert (Hins : ∀ doc, doc ∈ inserted evs →
            Js.gt (Doc.timestamp doc) (Migration.timestamp latest) = true).
  { intros doc Hdoc. apply inserted_elem_of in Hdoc as (tb & Hdoc).
    apply Hevs in Hdoc. simpl in Hdoc.
    apply list_elem_of_fmap in Hdoc as (c & -> & Hc). by apply Hnewer. }
  exists evs. split; [done|]. split; [|split; [done|]].
  - intros Hinv. apply invoked_elem_of in Hinv. apply Hevs in Hinv as [_ Hf].
    apply list_elem_of_fmap in Hf as (c & -> & Hc).
    rewrite <- (Hparse c Hc) in Hold. rewrite (Hnewer c Hc) in Hold. done.
  - intros doc Hdoc Heq. apply Hins in Hdoc. rewrite Heq in Hdoc.
    rewrite Hdoc in Hold. done.
Qed.

End Skipped.

Lemma older_candidates_never_applied_witness :
  ∃ w',
    Scenario.run_up Scenario.up_all
      (Scenario.migrated {[1%positive := Doc.mk "index" "20230103000000"]}
         ["20230101000000-init.ts"; "20230103000000-index.ts"]) = (Ok tt, w')
    ∧ ((Up, "20230101000000-init.ts") ∉ invoked (World.trace w'))
    ∧ inserted (World.trace w') = [].
Proof.
  destruct (older_candidates_never_applied Scenario.path_join Scenario.require
              Scenario.getConfig Scenario.cwd Scenario.chalk Scenario.up_all
              (Scenario.migrated {[1%positive := Doc.mk "index" "20230103000000"]}
                 ["20230101000000-init.ts"; "20230103000000-index.ts"])
              (Table.mk {[1%positive := Doc.mk "index" "20230103000000"]} {["timestamp"]})
              (Migration.mk 1 "index" "20230103000000")
              "20230101000000-init.ts"
              (Ok tt)
              (Scenario.run_up Scenario.up_all
                 (Scenario.migrated {[1%positive := Doc.mk "index" "20230103000000"]}
                    ["20230101000000-init.ts"; "20230103000000-index.ts"])).2)
    as (evs & Htrace & Hinv & _).
  - reflexivity.
  - reflexivity.
  - reflexivity.
  - reflexivity.
  - exists (Scenario.run_up Scenario.up_all
              (Scenario.migrated {[1%positive := Doc.mk "index" "20230103000000"]}
                 ["20230101000000-init.ts"; "20230103000000-index.ts"])).2.
    split; [by vm_compute|]. split; [|by vm_compute].
    rewrite Htrace. exact Hinv.
Defined.

(** ** Strings *)

Lemma app_cons a (s t : string) : String a s +:+ t = String a (s +:+ t).
Proof. reflexivity. Qed.

Lemma app_nil_l (s : string) : "" +:+ s = s.
Proof. reflexivity. Qed.

Lemma app_nil_r (s : string) : s +:+ "" = s.
Proof. induction s as [|a s IH]; [done|]. by rewrite app_cons, IH. Qed.

Lemma app_assoc (s t u : string) : (s +:+ t) +:+ u = s +:+ (t +:+ u).
Proof. induction s as [|a s IH]; [done|]. by rewrite !app_cons, IH. Qed.

Lemma len_app (s t : string) : Js.len (s +:+ t) = Js.len s + Js.len t.
Proof.
  unfold Js.len. induction s as [|a s IH]; [rewrite app_nil_l; simpl; lia|].
  rewrite app_cons. cbn [String.length]. lia.
Qed.

Lemma len_cons a (s : string) : Js.len (String a s) = 1 + Js.len s.
Proof. unfold Js.len. cbn [String.length]. lia. Qed.

Lemma len_nonneg (s : string) : 0 ≤ Js.len s.
Proof. unfold Js.len. lia. Qed.

Lemma indexOf_lacks c (s : string) : lacks c s → Js.indexOf c s = -1.
Proof.
  induction s as [|a s IH]; [done|]. intros [Ha Hs]. cbn [Js.indexOf].
  rewrite decide_False by done. rewrite IH by done. by rewrite decide_True by lia.
Qed.

Lemma indexOf_first c (s t : string) :
  lacks c s → Js.indexOf c (s +:+ String c t) = Js.len s.
Proof.
  induction s as [|a s IH]; intros Hs.
  - rewrite app_nil_l. cbn [Js.indexOf]. by rewrite decide_True.
  - destruct Hs as [Ha Hs]. rewrite app_cons. cbn [Js.indexOf].
    rewrite decide_False by done. rewrite IH by done.
    rewrite decide_False by (pose proof (len_nonneg s); lia).
    by rewrite len_cons.
Qed.

Lemma lastIndexOf_lacks c (s : string) : lacks c s → Js.lastIndexOf c s = -1.
Proof.
  induction s as [|a s IH]; [done|]. intros [Ha Hs]. cbn [Js.lastIndexOf].
  rewrite IH by done. rewrite decide_True by lia. by rewrite decide_False.
Qed.

Lemma lastIndexOf_last c (s t : string) :
  lacks c t → Js.lastIndexOf c (s +:+ String c t) = Js.len s.
Proof.
  intros Ht. induction s as [|a s IH].
  - rewrite app_nil_l. cbn [Js.lastIndexOf]. rewrite lastIndexOf_lacks by done.
    rewrite decide_True by lia. by rewrite decide_True.
  - rewrite app_cons. cbn [Js.lastIndexOf]. rewrite IH.
    rewrite decide_False by (pose proof (len_nonneg s); lia).
    by rewrite len_cons.
Qed.

Lemma substring_0_app (s t : string) :
  String.substring 0 (String.length s) (s +:+ t) = s.
Proof.
  induction s as [|a s IH]; [by destruct t|].
  rewrite app_cons. cbn [String.length String.substring]. by rewrite IH.
Qed.

Lemma substring_skip (s t : string) m :
  String.substring (String.length s) m (s +:+ t) = String.substring 0 m t.
Proof.
  induction s as [|a s IH]; [done|].
  rewrite app_cons. cbn [String.length String.substring]. exact IH.
Qed.

Lemma js_substring_prefix (s t : string) : Js.substring (s +:+ t) 0 (Js.len s) = s.
Proof.
  unfold Js.substring. rewrite len_app.
  pose proof (len_nonneg s). pose proof (len_nonneg t).
  replace (Z.min (Z.max 0 0) (Js.len s + Js.len t)) with 0 by lia.
  replace (Z.min (Z.max (Js.len s) 0) (Js.len s + Js.len t)) with (Js.len s) by lia.
  replace (Z.min 0 (Js.len s)) with 0 by lia.
  replace (Z.max 0 (Js.len s) - 0) with (Js.len s) by lia.
  unfold Js.len. rewrite Nat2Z.id. simpl Z.to_nat. apply substring_0_app.
Qed.

Lemma js_substring_middle (s t u : string) :
  Js.substring (s +:+ t +:+ u) (Js.len s) (Js.len s + Js.len t) = t.
Proof.
  unfold Js.substring. rewrite !len_app.
  pose proof (len_nonneg s). pose proof (len_nonneg t). pose proof (len_nonneg u).
  replace (Z.min (Z.max (Js.len s) 0) (Js.len s + (Js.len t + Js.len u)))
    with (Js.len s) by lia.
  replace (Z.min (Z.max (Js.len s + Js.len t) 0) (Js.len s + (Js.len t + Js.len u)))
    with (Js.len s + Js.len t) by lia.
  replace (Z.min (Js.len s) (Js.len s + Js.len t)) with (Js.len s) by lia.
  replace (Z.max (Js.len s) (Js.len s + Js.len t) - Js.len s) with (Js.len t) by lia.
  unfold Js.len. rewrite !Nat2Z.id.
  rewrite substring_skip. apply substring_0_app.
Qed.

(** ** The regular expression *)

Lemma nullable_lang (r : Rx.t) : Rx.nullable r = true → Rx.lang r "".
Proof.
  induction r as [| | | | |r1 IH1 r2 IH2|r1 IH1 r2 IH2|r IH]; simpl; try done.
  - intros _. constructor.
  - intros [H1 H2]%andb_prop. apply (Rx.lang_cat r1 r2 "" ""); auto.
  - intros [H|H]%orb_prop; [apply Rx.lang_alt_l | apply Rx.lang_alt_r]; auto.
  - intros _. constructor.
Qed.

Lemma lang_void (s : string) : ¬ Rx.lang Rx.Void s.
Proof. inversion 1. Qed.

Lemma lang_eps_inv (s : string) : Rx.lang Rx.Eps s → s = "".
Proof. by inversion 1. Qed.

Lemma lang_cat_inv r1 r2 (s : string) :
  Rx.lang (Rx.Cat r1 r2) s → ∃ s1 s2, s = s1 +:+ s2 ∧ Rx.lang r1 s1 ∧ Rx.lang r2 s2.
Proof. inversion 1; subst. eauto. Qed.

Lemma lang_alt_inv r1 r2 (s : string) :
  Rx.lang (Rx.Alt r1 r2) s → Rx.lang r1 s ∨ Rx.lang r2 s.
Proof. inversion 1; subst; auto. Qed.

Lemma lang_lit_inv c (s : string) : Rx.lang (Rx.Lit c) s → s = String c "".
Proof. by inversion 1. Qed.

Lemma deriv_lang (r : Rx.t) c (s : string) :
  Rx.lang (Rx.deriv c r) s → Rx.lang r (String c s).
Proof.
  revert s. induction r as [| |a| | |r1 IH1 r2 IH2|r1 IH1 r2 IH2|r IH];
    intros s; cbn [Rx.deriv].
  - intros H. by apply lang_void in H.
  - intros H. by apply lang_void in H.
  - case_decide as Ha; [|intros H; by apply lang_void in H].
    intros ->%lang_eps_inv. subst a. constructor.
  - destruct (Rx.is_digit c) eqn:Hc; [|intros H; by apply lang_void in H].
    intros ->%lang_eps_inv. by constructor.
  - destruct (Rx.is_line_terminator c) eqn:Hc; [intros H; by apply lang_void in H|].
    intros ->%lang_eps_inv. by constructor.
  - assert (Hcat : Rx.lang (Rx.Cat (Rx.deriv c r1) r2) s →
                   Rx.lang (Rx.Cat r1 r2) (String c s)).
    { intros (s1 & s2 & -> & H1 & H2)%lang_cat_inv.
      rewrite <- app_cons. constructor; auto. }
    destruct (Rx.nullable r1) eqn:Hn; [|done].
    intros [H|H]%lang_alt_inv; [auto|].
    rewrite <- (app_nil_l (String c s)).
    constructor; [by apply nullable_lang | auto].
  - intros [H|H]%lang_alt_inv; [apply Rx.lang_alt_l | apply Rx.lang_alt_r]; auto.
  - intros (s1 & s2 & -> & H1 & H2)%lang_cat_inv.
    rewrite <- app_cons. constructor; auto.
Qed.

Lemma matches_lang (r : Rx.t) (s : string) : Rx.matches r s = true → Rx.lang r s.
Proof.
  revert r. induction s as [|c s IH]; intros r; cbn [Rx.matches].
  - apply nullable_lang.
  - intros H. by apply deriv_lang, IH.
Qed.

Lemma lang_digits n (s : string) :
  Rx.lang (Rx.times n Rx.Digit) s → String.length s = n ∧ digits s.
Proof.
  revert s. induction n as [|n IH]; intros s; cbn [Rx.times].
  - by intros ->%lang_eps_inv.
  - intros (s1 & s2 & -> & H1 & H2)%lang_cat_inv.
    inversion H1; subst. apply IH in H2 as [Hlen Hd].
    rewrite app_cons, app_nil_l. simpl. by rewrite Hlen.
Qed.

Lemma digits_lacks c (s : string) : Rx.is_digit c = false → digits s → lacks c s.
Proof.
  intros Hc. induction s as [|a s IH]; [done|]. intros [Ha Hs].
  split; [|auto]. intros ->. by rewrite Hc in Ha.
Qed.

(** What the names that match [rxMigrationFile] look like. *)
Lemma rxMigrationFile_shape (file : string) :
  Rx.matches rxMigrationFile file = true →
  ∃ ts name ext,
    file = ts +:+ "-" +:+ name +:+ "." +:+ ext
    ∧ String.length ts = 14%nat ∧ digits ts
    ∧ (ext = "js" ∨ ext = "ts").
Proof.
  intros H%matches_lang. unfold rxMigrationFile in H.
  apply lang_cat_inv in H as (ts & s1 & -> & Hts & H).
  apply lang_cat_inv in H as (dash & s2 & -> & ->%lang_lit_inv & H).
  apply lang_cat_inv in H as (name & s3 & -> & _ & H).
  apply lang_cat_inv in H as (dot & ext & -> & ->%lang_lit_inv & H).
  apply lang_digits in Hts as [Hlen Hd].
  exists ts, name, ext. split; [done|]. split; [done|]. split; [done|].
  apply lang_alt_inv in H as [H|H];
    apply lang_cat_inv in H as (a & b & -> & ->%lang_lit_inv & ->%lang_lit_inv); auto.
Qed.

(** Parsing a matching name gives back its parts. *)
Lemma parse_shape (file : string) :
  Rx.matches rxMigrationFile file = true →
  ∃ ext,
    (ext = "js" ∨ ext = "ts")
    ∧ file = Candidate.timestamp (parse file) +:+ "-"
             +:+ Candidate.name (parse file) +:+ "." +:+ ext
    ∧ String.length (Candidate.timestamp (parse file)) = 14%nat
    ∧ digits (Candidate.timestamp (parse file)).
Proof.
  intros (ts & name & ext & -> & Hlen & Hd & Hext)%rxMigrationFile_shape.
  exists ext. split; [done|].
  assert (Hdash : Js.indexOf "-" (ts +:+ "-" +:+ name +:+ "." +:+ ext) = Js.len ts).
  { apply indexOf_first. by apply digits_lacks. }
  assert (Hdot : Js.lastIndexOf "." (ts +:+ "-" +:+ name +:+ "." +:+ ext)
                 = Js.len ts + 1 + Js.len name).
  { rewrite <- (app_assoc ts), <- (app_assoc (ts +:+ "-")).
    change ("." +:+ ext) with (String "." ext).
    rewrite lastIndexOf_last by (by destruct Hext as [-> | ->]; repeat split).
    rewrite !len_app. reflexivity. }
  assert (Hts : Candidate.timestamp (parse (ts +:+ "-" +:+ name +:+ "." +:+ ext)) = ts).
  { unfold parse. cbn [Candidate.timestamp]. rewrite Hdash. apply js_substring_prefix. }
  assert (Hname : Candidate.name (parse (ts +:+ "-" +:+ name +:+ "." +:+ ext)) = name).
  { unfold parse. cbn [Candidate.name]. rewrite Hdash, Hdot.
    rewrite <- (app_assoc ts).
    replace (Js.len ts + 1) with (Js.len (ts +:+ "-")) by (by rewrite len_app).
    apply js_substring_middle. }
  by rewrite Hts, Hname.
Qed.

(** ** The paths that are loaded *)

Section Paths.
Context {U : Type}.
Variable path_join : list string → string.
Variable require : string → Result (MigrationFile.t U).
Variable cwd : string.
Variable params : Params.t.
Implicit Types (w : World.t U).

Local Abbreviation dir := (migrations_dir path_join cwd params).
Local Abbreviation root := (rootDir cwd params).

Lemma mapM_load_inv {A} (path : A → string) (xs : list A) w codes w' :
  mapM (λ x, load require (path x)) xs w = (Ok codes, w') →
  loads require (path <$> xs) codes.
Proof.
  unfold loads. revert w codes w'.
  induction xs as [|x xs IH]; intros w codes w' H.
  - injection H as <- _. constructor.
  - cbn [mapM] in H. rewrite bind_eq, load_eq in H.
    destruct (require (path x)) as [code|e] eqn:Hx; [|done].
    rewrite bind_eq in H.
    destruct (mapM _ xs _) as [[codes1|e] w2] eqn:Hxs; [|done].
    unfold mret, M_ret, ret in H. injection H as <- _.
    rewrite fmap_cons. constructor; [done|]. by eapply IH.
Qed.

Lemma getMigrationsExcept_trace latest n w ms w' :
  getMigrationsExcept path_join require latest root n w = (Ok ms, w') →
  World.trace w'
  = World.trace w
    ++ Readdir dir
       :: (Required <$> ((λ m, path_join [dir; UpMigration.filename m]) <$> ms)).
Proof.
  intros H. pose proof H as Hinv. unfold getMigrationsExcept in Hinv.
  rewrite bind_eq in Hinv. unfold readdir in Hinv. fold dir in Hinv.
  destruct (World.dirs w !! dir) as [files|] eqn:Hfiles; [|done].
  rewrite bind_eq in Hinv.
  destruct (mapM _ _ _) as [[codes|e] w1] eqn:Hm; [|done].
  apply mapM_load_inv in Hm.
  erewrite getMigrationsExcept_ok in H; [|exact Hfiles|exact Hm].
  injection H as <- <-. world_simpl.
  assert (Hlen : length (migrationsToApply latest files n) = length codes).
  { apply Forall2_length in Hm. by rewrite length_fmap in Hm. }
  do 3 f_equal.
  change (λ m : UpMigration.t U, path_join [dir; UpMigration.filename m])
    with ((λ f, path_join [dir; f]) ∘ (UpMigration.filename (U:=U))).
  rewrite list_fmap_compose, loaded_up_filename by done.
  by rewrite <- list_fmap_compose.
Qed.

Lemma requireMigrations_trace (plan : list Migration.t) w ms w' :
  requireMigrations path_join require (Some <$> plan) root w = (Ok ms, w') →
  World.trace w'
  = World.trace w ++ (Required <$> (down_path path_join cwd params <$> plan)).
Proof.
  intros H.
  assert (Hl : ∃ codes, loads require (down_path path_join cwd params <$> plan) codes).
  { clear -H. unfold requireMigrations in H. revert w ms w' H.
    induction plan as [|e plan IH]; intros w ms w' H.
    - exists []. constructor.
    - rewrite fmap_cons in H. cbn [mapM] in H. rewrite !bind_eq, load_eq in H.
      destruct (require _) as [code|err] eqn:Hx; [|done].
      cbv beta iota delta [mret M_ret ret] in H. rewrite bind_eq in H.
      destruct (mapM _ _ _) as [[ms1|err] w2] eqn:Hxs; [|done].
      apply IH in Hxs as [codes Hcodes]. exists (code :: codes).
      unfold loads. rewrite fmap_cons. by constructor. }
  destruct Hl as [codes Hl].
  erewrite requireMigrations_ok in H by exact Hl. by injection H as _ <-.
Qed.

(** X20.  Forward, [getMigrationsExcept] requires, for every
    migration it returns, the scanned file name below the migrations
    directory, and that name is [<timestamp>-<name>.<ext>] with [ext] one of
    [js] and [ts].  Backward, [requireMigrations] requires
    [<timestamp>-<name>] below the migrations directory: without extension,
    which is left to the resolution of the module loader. *)
Theorem load_paths :
  (∀ latest n w ms w',
     getMigrationsExcept path_join require latest root n w = (Ok ms, w') →
     ∃ evs,
       World.trace w' = World.trace w ++ evs
       ∧ required evs
         = (λ m, path_join [path_join [root; "migrations"]; UpMigration.filename m]) <$> ms
       ∧ Forall (λ m, ∃ ext,
                   (ext = "js" ∨ ext = "ts")
                   ∧ UpMigration.filename m
                     = UpMigration.timestamp m +:+ "-" +:+ UpMigration.name m
                       +:+ "." +:+ ext) ms)
  ∧
  (∀ (plan : list Migration.t) w ms w',
     requireMigrations path_join require (Some <$> plan) root w = (Ok ms, w') →
     ∃ evs,
       World.trace w' = World.trace w ++ evs
       ∧ required evs
         = (λ e, path_join [root; "migrations";
                            Migration.timestamp e +:+ "-" +:+ Migration.name e])
           <$> plan).
Proof.
  split.
  - intros latest n w ms w' H.
    eexists. split; [by eapply getMigrationsExcept_trace|].
    split; [simpl; by rewrite required_Required|].
    apply getMigrationsExcept_inv in H as (files & codes & _ & Hlen & ->).
    apply Forall_forall. intros m Hm.
    assert (Hc : ∃ c, c ∈ migrationsToApply latest files n
                      ∧ UpMigration.filename m = Candidate.filename c
                      ∧ UpMigration.timestamp m = Candidate.timestamp c
                      ∧ UpMigration.name m = Candidate.name c).
    { clear -Hm. revert codes Hm.
      induction (migrationsToApply latest files n) as [|c plan IH];
        intros [|code codes] Hm; simpl in Hm; try by apply elem_of_nil in Hm.
      apply elem_of_cons in Hm as [->|Hm].
      - exists c. split; [left | done].
      - destruct (IH _ Hm) as (c' & Hc' & Heq). exists c'. split; [by right | done]. }
    destruct Hc as (c & Hc & -> & -> & ->).
    assert (Hcand : c ∈ candidates files).
    { eapply elem_of_sublist; [exact Hc|].
      unfold migrationsToApply. case_decide.
      - etrans; [apply slice_sublist | apply sublist_filter].
      - apply sublist_filter. }
    unfold candidates in Hcand.
    apply list_elem_of_fmap in Hcand as (file & -> & Hfile).
    apply list_elem_of_filter in Hfile as [Hmatch _]. apply Is_true_true in Hmatch.
    destruct (parse_shape file Hmatch) as (ext & Hext & Heq & _).
    exists ext. split; [done|]. exact Heq.
  - intros plan w ms w' H.
    eexists. split; [by eapply requireMigrations_trace|].
    by rewrite required_Required.
Qed.

End Paths.

(** On the backward path the extension is not part of the path: for the
    ledger entry of the file [20230101000000-init.ts], [down] requires the
    path without the extension. *)
Lemma down_requires_no_extension :
  required
    (World.trace
       (Scenario.run_down Scenario.up_one
          (Scenario.migrated {[1%positive := Doc.mk "init" "20230101000000"]}
             ["20230101000000-init.ts"])).2)
  = ["/app/migrations/20230101000000-init"]
  ∧ ∀ ext, "/app/migrations/20230101000000-init"
           ≠ "/app/migrations/20230101000000-init" +:+ "." +:+ ext.
Proof.
  split; [by vm_compute|].
  intros ext H. apply (f_equal Js.len) in H. rewrite !len_app in H.
  pose proof (len_nonneg ext). vm_compute (Js.len ".") in H. lia.
Qed.

Lemma load_paths_witness :
  (∃ ms w',
     getMigrationsExcept Scenario.path_join Scenario.require None "/app" (-1)
       (Scenario.world ["20230101000000-init.ts"]) = (Ok ms, w')
     ∧ required (World.trace w') = ["/app/migrations/20230101000000-init.ts"])
  ∧
  (∃ ms w',
     requireMigrations Scenario.path_join Scenario.require
       [Some (Migration.mk 1 "init" "20230101000000")] "/app"
       (Scenario.world ["20230101000000-init.ts"]) = (Ok ms, w')
     ∧ required (World.trace w') = ["/app/migrations/20230101000000-init"]).
Proof.
  split.
  - destruct (proj1 (load_paths Scenario.path_join Scenario.require Scenario.cwd
                       Scenario.up_all)
                None (-1) (Scenario.world ["20230101000000-init.ts"])
                [UpMigration.mk "init" "20230101000000" "20230101000000-init.ts"
                   Scenario.good]
                (getMigrationsExcept Scenario.path_join Scenario.require None "/app" (-1)
                   (Scenario.world ["20230101000000-init.ts"])).2)
      as (evs & Htrace & Hreq & _); [by vm_compute|].
    exists [UpMigration.mk "init" "20230101000000" "20230101000000-init.ts" Scenario.good],
      (getMigrationsExcept Scenario.path_join Scenario.require None "/app" (-1)
         (Scenario.world ["20230101000000-init.ts"])).2.
    split; [by vm_compute|]. rewrite Htrace, required_app, Hreq. reflexivity.
  - destruct (proj2 (load_paths Scenario.path_join Scenario.require Scenario.cwd
                       Scenario.up_all)
                [Migration.mk 1 "init" "20230101000000"]
                (Scenario.world ["20230101000000-init.ts"])
                [DownMigration.mk 1 "init" "20230101000000" "20230101000000-init"
                   Scenario.good]
                (requireMigrations Scenario.path_join Scenario.require
                   [Some (Migration.mk 1 "init" "20230101000000")] "/app"
                   (Scenario.world ["20230101000000-init.ts"])).2)
      as (evs & Htrace & Hreq); [by vm_compute|].
    exists [DownMigration.mk 1 "init" "20230101000000" "20230101000000-init"
              Scenario.good],
      (requireMigrations Scenario.path_join Scenario.require
         [Some (Migration.mk 1 "init" "20230101000000")] "/app"
         (Scenario.world ["20230101000000-init.ts"])).2.
    split; [by vm_compute|]. rewrite Htrace, required_app, Hreq. reflexivity.
Defined.

(** ** Events of every run, whatever was planned *)

Section AnyRun.
Context {U : Type}.
Variable path_join : list string → string.
Variable require : string → Result (MigrationFile.t U).
Variable getConfig : string → Config.t.
Variable cwd : string.
Variable chalk : string → string → string.
Variable params : Params.t.
Variable P : Event → Prop.
Hypothesis P_all : ∀ ev, ev ≠ PoolDrain → P ev.
Implicit Types (w : World.t U).

Local Abbreviation db := (the_db getConfig cwd params).
Local Abbreviation root := (rootDir cwd params).

Lemma up_loop_any (ms : list (UpMigration.t U)) : safe P (up_loop chalk ms).
Proof.
  induction ms as [|m ms IH]; intros w; [apply extends_refl|].
  cbn [up_loop]. apply safe_bind; [apply safe_logInfo; auto|]. intros _ w1 _.
  apply safe_bind; [apply extends_attempt, safe_invoke; auto|].
  intros [[]|e] w2 _.
  - apply safe_bind; [apply safe_run; auto|]. intros _ w3 _. apply IH.
  - apply safe_bind; [apply safe_logError; auto|]. intros _ w3 _. apply extends_refl.
Qed.

Lemma down_loop_any (ms : list (DownMigration.t U)) : safe P (down_loop chalk ms).
Proof.
  induction ms as [|m ms IH]; intros w; [apply extends_refl|].
  cbn [down_loop]. apply safe_bind; [apply safe_logInfo; auto|]. intros _ w1 _.
  apply safe_bind; [apply extends_attempt, safe_invoke; auto|].
  intros [[]|e] w2 _.
  - apply safe_bind; [apply safe_run; auto|]. intros _ w3 _. apply IH.
  - apply safe_bind; [apply safe_logError; auto|]. intros _ w3 _. apply extends_refl.
Qed.

Lemma requireMigrations_any (plan : list (option Migration.t)) r :
  safe P (requireMigrations path_join require plan r).
Proof.
  unfold requireMigrations. apply safe_mapM. intros [e|] w.
  - apply safe_bind; [apply safe_load; auto|]. intros code w1 _. apply extends_refl.
  - apply extends_refl.
Qed.

(** [up] after [connectToDb]. *)
Lemma up_rest_any w :
  extends P w
    ((completedMigrations ← R.orderBy MIGRATION_TABLE_NAME "timestamp";
      migrations ← getMigrationsExcept path_join require (last completedMigrations)
                     root (numToApply_of (Params.all params));
      if decide (length migrations < 1)%nat then logInfo chalk ["No new migrations"]
      else
        flow ← up_loop chalk migrations;
        match flow with
        | Return => mret tt
        | Next => logInfo chalk ["Migration Successful"]
        end) w).2.
Proof.
  apply safe_bind; [apply safe_run; auto|]. intros completed w1 _.
  apply safe_bind; [apply getMigrationsExcept_safe; auto|]. intros ms w2 _.
  case_decide; [apply safe_logInfo; auto|].
  apply safe_bind; [apply up_loop_any|].
  intros [] w3 _; [apply safe_logInfo; auto | apply extends_refl].
Qed.

(** [down] after [connectToDb]. *)
Lemma down_rest_any w :
  extends P w
    ((completedMigrations ← R.orderBy MIGRATION_TABLE_NAME "timestamp";
      if decide (length completedMigrations = 0)%nat
      then logInfo chalk ["No new migrations"]
      else
        migrations ← requireMigrations path_join require
                       (migrationsToRollBack (Params.all params) completedMigrations)
                       root;
        flow ← down_loop chalk migrations;
        match flow with
        | Return => mret tt
        | Next => logInfo chalk ["Migration successful"]
        end) w).2.
Proof.
  apply safe_bind; [apply safe_run; auto|]. intros completed w1 _.
  case_decide; [apply safe_logInfo; auto|].
  apply safe_bind; [apply requireMigrations_any|]. intros ms w2 _.
  apply safe_bind; [apply down_loop_any|].
  intros [] w3 _; [apply safe_logInfo; auto | apply extends_refl].
Qed.

Lemma up_after_boot w :
  ∃ rest,
    World.trace (up path_join require getConfig cwd chalk params w).2
    = World.trace w ++ boot_trace db (World.server w) ++ rest
    ∧ Forall P rest.
Proof.
  unfold up. cbn zeta. rewrite bind_eq, connectToDb_eq.
  destruct (up_rest_any
              (World.mk (boot_server db (World.server w)) (Some db) (World.user w)
                 (World.dirs w) (World.trace w ++ boot_trace db (World.server w))))
    as (rest & Hrest & HP).
  exists rest. split; [|done]. etrans; [exact Hrest|]. world_simpl.
  by rewrite <- (assoc_L (++)).
Qed.

Lemma down_after_boot w :
  ∃ rest,
    World.trace (down path_join require getConfig cwd chalk params w).2
    = World.trace w ++ boot_trace db (World.server w) ++ rest
    ∧ Forall P rest.
Proof.
  unfold down. cbn zeta. rewrite bind_eq, connectToDb_eq.
  destruct (down_rest_any
              (World.mk (boot_server db (World.server w)) (Some db) (World.user w)
                 (World.dirs w) (World.trace w ++ boot_trace db (World.server w))))
    as (rest & Hrest & HP).
  exists rest. split; [|done]. etrans; [exact Hrest|]. world_simpl.
  by rewrite <- (assoc_L (++)).
Qed.

End AnyRun.

(** ** More on the bootstrap *)

Section BootstrapMore.
Context {U : Type}.
Implicit Types (w : World.t U) (config : Config.t).


Lemma boot_trace_last db (s : Server) : last (boot_trace db s) = Some (Run (Wait db)).
Proof.
  unfold boot_trace. rewrite !(assoc_L (++)). apply last_snoc.
Qed.

Lemma boot_trace_no_access db (s : Server) :
  Forall (λ ev, is_ledger_access ev = false) (boot_trace db s).
Proof.
  unfold boot_trace.
  destruct (s !! db); destruct (ledger_table db (with_db db s)); by repeat constructor.
Qed.


End BootstrapMore.

Lemma ledger_table_with_db db (s : Server) :
  ledger_table db (with_db db s) = ledger_table db s.
Proof.
  unfold with_db. destruct (s !! db) eqn:Hdb; [done|].
  unfold ledger_table, get_table. rewrite lookup_insert_eq, Hdb. simpl.
  by rewrite lookup_empty.
Qed.

Section IndexOnlyWithTable.
Context {U : Type}.
Implicit Types (w : World.t U) (config : Config.t).

(** X2.  [connectToDb] creates the index on [timestamp] exactly when it
    creates the bookkeeping table.  A table that exists is left as it is,
    also when it has no such index. *)
Theorem index_created_only_with_table config w :
  ∃ w1 evs,
    connectToDb config w = (Ok tt, w1)
    ∧ World.trace w1 = World.trace w ++ evs
    ∧ (Run (IndexCreate MIGRATION_TABLE_NAME "timestamp") ∈ evs
       ↔ ledger_table (Config.db config) (World.server w) = None)
    ∧ (Run (TableCreate MIGRATION_TABLE_NAME) ∈ evs
       ↔ ledger_table (Config.db config) (World.server w) = None)
    ∧ (Run (DbCreate (Config.db config)) ∈ evs
       ↔ World.server w !! Config.db config = None)
    ∧ (∀ t, ledger_table (Config.db config) (World.server w) = Some t →
            ledger_table (Config.db config) (World.server w1) = Some t).
Proof.
  set (db := Config.db config).
  eexists _, _. split; [apply connectToDb_eq|]. world_simpl. fold db.
  split; [reflexivity|].
  unfold boot_trace. rewrite ledger_table_with_db.
  split; [|split; [|split]].
  - destruct (World.server w !! db); destruct (ledger_table db (World.server w));
      cbn [app]; rewrite ?elem_of_cons, ?elem_of_nil; naive_solver.
  - destruct (World.server w !! db); destruct (ledger_table db (World.server w));
      cbn [app]; rewrite ?elem_of_cons, ?elem_of_nil; naive_solver.
  - destruct (World.server w !! db); destruct (ledger_table db (World.server w));
      cbn [app]; rewrite ?elem_of_cons, ?elem_of_nil; naive_solver.
  - intros t Ht. rewrite boot_server_ledger. by rewrite Ht.
Qed.

End IndexOnlyWithTable.

(** ** Reading a ledger that cannot be read, and the order of the first steps *)

Section FirstSteps.
Context {U : Type}.
Variable path_join : list string → string.
Variable require : string → Result (MigrationFile.t U).
Variable getConfig : string → Config.t.
Variable cwd : string.
Variable chalk : string → string → string.
Variable params : Params.t.
Implicit Types (w : World.t U) (t : Table.t).

Local Abbreviation db := (the_db getConfig cwd params).

(** X3.  On a server whose bookkeeping table exists without the index on
    [timestamp], [up] and [down] both throw at the first read of the ledger:
    the directory is not scanned, no module is loaded, no procedure is
    invoked, and the server is left as it was. *)
Theorem no_index_no_run w t :
  ledger_table db (World.server w) = Some t →
  "timestamp" ∉ Table.indexes t →
  (∃ w',
     up path_join require getConfig cwd chalk params w
     = (Throw (R.error "index was not found"), w')
     ∧ World.server w' = World.server w
     ∧ World.user w' = World.user w
     ∧ World.trace w'
       = World.trace w
         ++ [PoolConnect db; Run DbList; Run TableList; Run (Wait db);
             Run (OrderBy MIGRATION_TABLE_NAME "timestamp")])
  ∧
  (∃ w',
     down path_join require getConfig cwd chalk params w
     = (Throw (R.error "index was not found"), w')
     ∧ World.server w' = World.server w
     ∧ World.user w' = World.user w
     ∧ World.trace w'
       = World.trace w
         ++ [PoolConnect db; Run DbList; Run TableList; Run (Wait db);
             Run (OrderBy MIGRATION_TABLE_NAME "timestamp")]).
Proof.
  intros Ht Hidx.
  assert (Hboot : ledger_table db (boot_server db (World.server w)) = Some t).
  { by rewrite (boot_server_id _ _ t). }
  split; [unfold up | unfold down]; cbn zeta;
    rewrite bind_eq, connectToDb_eq;
    (erewrite bind_throw;
     [|erewrite orderBy_no_index; [reflexivity|reflexivity|exact Hboot|exact Hidx]]);
    eexists; (split; [reflexivity|]); world_simpl;
    rewrite (boot_server_id _ _ t) by done;
    rewrite (boot_trace_id _ _ t) by done;
    (split; [done|]); (split; [done|]); by rewrite <- (assoc_L (++)).
Qed.

Lemma boot_trace_no_drain (s : Server) : PoolDrain ∉ boot_trace db s.
Proof.
  unfold boot_trace.
  destruct (s !! db); destruct (ledger_table db (with_db db s));
    cbn [app]; rewrite ?elem_of_cons, ?elem_of_nil; naive_solver.
Qed.

(** X4.  In every run of [up] and of [down], however it ends, the events
    begin with those of [connectToDb]: they end with the wait for
    write-readiness and contain no read of or write to the ledger, which
    therefore all come after that wait; and the pool is never drained. *)
Theorem waits_before_ledger_access w :
  last (boot_trace db (World.server w)) = Some (Run (Wait db))
  ∧ Forall (λ ev, is_ledger_access ev = false) (boot_trace db (World.server w))
  ∧ (∃ rest,
       World.trace (up path_join require getConfig cwd chalk params w).2
       = World.trace w ++ boot_trace db (World.server w) ++ rest
       ∧ PoolDrain ∉ boot_trace db (World.server w) ++ rest)
  ∧ (∃ rest,
       World.trace (down path_join require getConfig cwd chalk params w).2
       = World.trace w ++ boot_trace db (World.server w) ++ rest
       ∧ PoolDrain ∉ boot_trace db (World.server w) ++ rest).
Proof.
  split; [apply boot_trace_last|]. split; [apply boot_trace_no_access|]. split.
  - destruct (up_after_boot path_join require getConfig cwd chalk params
                (λ ev, ev ≠ PoolDrain) (λ ev H, H) w) as (rest & Htrace & Hrest).
    exists rest. split; [done|].
    rewrite elem_of_app. intros [H|H]; [by apply boot_trace_no_drain in H|].
    rewrite Forall_forall in Hrest. by apply (Hrest _ H).
  - destruct (down_after_boot path_join require getConfig cwd chalk params
                (λ ev, ev ≠ PoolDrain) (λ ev H, H) w) as (rest & Htrace & Hrest).
    exists rest. split; [done|].
    rewrite elem_of_app. intros [H|H]; [by apply boot_trace_no_drain in H|].
    rewrite Forall_forall in Hrest. by apply (Hrest _ H).
Qed.

End FirstSteps.

Lemma no_index_no_run_witness :
  ∃ w',
    Scenario.run_up Scenario.up_all unindexed
    = (Throw (R.error "index was not found"), w')
    ∧ World.server w' = World.server unindexed.
Proof.
  destruct (no_index_no_run Scenario.path_join Scenario.require Scenario.getConfig
              Scenario.cwd Scenario.chalk Scenario.up_all unindexed Table.empty)
    as [(w' & Hup & Hserver & _) _].
  - reflexivity.
  - by vm_compute.
  - exists w'. split; [exact Hup | exact Hserver].
Defined.

(** ** The procedures invoked are a prefix of the plan *)

Lemma silent_quiet evs : Forall silent evs → quiet evs.
Proof.
  induction 1 as [|ev evs Hev Hevs IH]; [by repeat split|].
  destruct IH as (H1 & H2 & H3).
  destruct ev as [| | | | | |[]| |]; try done; unfold quiet; simpl; by rewrite ?H1, ?H2, ?H3.
Qed.

Lemma run_cases {U A} q (f : string → Server → Result A * Server) (w w' : World.t U) r :
  R.run q f w = (r, w') →
  (w' = w ∧ ∃ e, r = Throw e) ∨ World.trace w' = World.trace w ++ [Run q].
Proof.
  unfold R.run. destruct (World.pool w).
  - world_simpl. destruct (f _ _) as [r' s']. intros H. injection H as <- <-. by right.
  - intros H. injection H as <- <-. left. eauto.
Qed.

Section Prefix.
Context {U : Type}.
Variable chalk : string → string → string.
Implicit Types (w : World.t U).

Lemma up_loop_prefix (ms : list (UpMigration.t U)) w :
  ∃ evs k k',
    World.trace (up_loop chalk ms w).2 = World.trace w ++ evs
    ∧ invoked evs = (λ m, (Up, UpMigration.filename m)) <$> take k ms
    ∧ inserted evs = doc_of <$> take k' ms
    ∧ (k' = k ∨ S k' = k)
    ∧ deleted evs = [].
Proof.
  revert w. induction ms as [|m ms IH]; intros w.
  - exists [], 0%nat, 0%nat. simpl. rewrite (right_id_L [] (++)). repeat split; auto.
  - rewrite up_loop_cons. cbn zeta.
    destruct (MigrationFile.up (UpMigration.code m) (World.user w)) as [[[]|e] u1];
      world_simpl.
    + rewrite bind_eq.
      destruct (R.insert _ _ _) as [[[]|e] w2] eqn:Hi; apply run_cases in Hi;
        world_simpl.
      * destruct Hi as [[_ [e He]]|Hi]; [done|]. simpl in Hi.
        destruct (IH w2) as (evs & k & k' & Ht & Hinv & Hins & Hk & Hdel).
        exists ([up_banner chalk m; Invoke Up (UpMigration.filename m);
                 Run (Insert MIGRATION_TABLE_NAME (doc_of m))] ++ evs), (S k), (S k').
        split; [rewrite Ht, Hi; by rewrite <- !(assoc_L (++))|].
        rewrite invoked_app, inserted_app, deleted_app, Hinv, Hins, Hdel.
        repeat split. lia.
      * destruct Hi as [[-> _]|Hi]; simpl.
        -- exists [up_banner chalk m; Invoke Up (UpMigration.filename m)], 1%nat, 0%nat.
           repeat split; auto.
        -- exists [up_banner chalk m; Invoke Up (UpMigration.filename m);
                   Run (Insert MIGRATION_TABLE_NAME (doc_of m))], 1%nat, 1%nat.
           simpl in Hi. rewrite Hi.
           repeat split; auto. by rewrite <- !(assoc_L (++)).
    + exists ([up_banner chalk m; Invoke Up (UpMigration.filename m)]
              ++ failure chalk ("Migration failed: " +:+ UpMigration.name m) e),
        1%nat, 0%nat.
      destruct (quiet_failure chalk ("Migration failed: " +:+ UpMigration.name m) e)
        as (Hf1 & Hf2 & Hf3).
      split; [by rewrite <- !(assoc_L (++))|].
      rewrite invoked_app, inserted_app, deleted_app, Hf1, Hf2, Hf3.
      repeat split; auto.
Qed.

Lemma down_loop_prefix (ms : list (DownMigration.t U)) w :
  ∃ evs k k',
    World.trace (down_loop chalk ms w).2 = World.trace w ++ evs
    ∧ invoked evs = (λ m, (Down, DownMigration.filename m)) <$> take k ms
    ∧ deleted evs = DownMigration.id <$> take k' ms
    ∧ (k' = k ∨ S k' = k)
    ∧ inserted evs = [].
Proof.
  revert w. induction ms as [|m ms IH]; intros w.
  - exists [], 0%nat, 0%nat. simpl. rewrite (right_id_L [] (++)). repeat split; auto.
  - rewrite down_loop_cons. cbn zeta.
    destruct (MigrationFile.down (DownMigration.code m) (World.user w)) as [[[]|e] u1];
      world_simpl.
    + rewrite bind_eq.
      destruct (R.delete _ _ _) as [[[]|e] w2] eqn:Hi; apply run_cases in Hi;
        world_simpl.
      * destruct Hi as [[_ [e He]]|Hi]; [done|]. simpl in Hi.
        destruct (IH w2) as (evs & k & k' & Ht & Hinv & Hdel & Hk & Hins).
        exists ([down_banner chalk m; Invoke Down (DownMigration.filename m);
                 Run (Delete MIGRATION_TABLE_NAME (DownMigration.id m))] ++ evs),
          (S k), (S k').
        split; [rewrite Ht, Hi; by rewrite <- !(assoc_L (++))|].
        rewrite invoked_app, inserted_app, deleted_app, Hinv, Hins, Hdel.
        repeat split. lia.
      * destruct Hi as [[-> _]|Hi]; simpl.
        -- exists [down_banner chalk m; Invoke Down (DownMigration.filename m)],
             1%nat, 0%nat.
           repeat split; auto.
        -- exists [down_banner chalk m; Invoke Down (DownMigration.filename m);
                   Run (Delete MIGRATION_TABLE_NAME (DownMigration.id m))], 1%nat, 1%nat.
           simpl in Hi. rewrite Hi.
           repeat split; auto. by rewrite <- !(assoc_L (++)).
    + exists ([down_banner chalk m; Invoke Down (DownMigration.filename m)]
              ++ failure chalk ("Migration failed: " +:+ DownMigration.name m) e),
        1%nat, 0%nat.
      destruct (quiet_failure chalk ("Migration failed: " +:+ DownMigration.name m) e)
        as (Hf1 & Hf2 & Hf3).
      split; [by rewrite <- !(assoc_L (++))|].
      rewrite invoked_app, inserted_app, deleted_app, Hf1, Hf2, Hf3.
      repeat split; auto.
Qed.

End Prefix.

Lemma quiet_wrap pre mid post :
  quiet pre → quiet post →
  invoked (pre ++ mid ++ post) = invoked mid
  ∧ inserted (pre ++ mid ++ post) = inserted mid
  ∧ deleted (pre ++ mid ++ post) = deleted mid.
Proof.
  intros (H1 & H2 & H3) (H4 & H5 & H6).
  rewrite !invoked_app, !inserted_app, !deleted_app, H1, H2, H3, H4, H5, H6.
  by rewrite !(right_id_L [] (++)).
Qed.

Lemma quiet_nil : quiet [].
Proof. by repeat split. Qed.

Lemma quiet_info chalk args : quiet [info chalk args].
Proof. by repeat split. Qed.

Lemma loaded_up_invoked {U} plan (codes : list (MigrationFile.t U)) k :
  length plan = length codes →
  (λ m, (Up, UpMigration.filename m)) <$> take k (loaded_up plan codes)
  = (λ c, (Up, Candidate.filename c)) <$> take k plan.
Proof.
  intros Hlen. rewrite !fmap_take. f_equal.
  change (λ m : UpMigration.t U, (Up, UpMigration.filename m))
    with ((λ f, (Up, f)) ∘ (UpMigration.filename (U:=U))).
  rewrite list_fmap_compose, loaded_up_filename by done.
  by rewrite <- list_fmap_compose.
Qed.

Lemma loaded_up_inserted {U} plan (codes : list (MigrationFile.t U)) k :
  length plan = length codes →
  doc_of <$> take k (loaded_up plan codes) = cand_doc <$> take k plan.
Proof. intros Hlen. rewrite !fmap_take. f_equal. by apply loaded_up_doc. Qed.

Lemma loaded_down_filename {U} plan (codes : list (MigrationFile.t U)) :
  length plan = length codes →
  DownMigration.filename <$> loaded_down plan codes = down_filename <$> plan.
Proof.
  revert codes. induction plan as [|c plan IH]; intros [|code codes] Hlen;
    simpl in *; try done.
  f_equal. apply IH. lia.
Qed.

Lemma loaded_down_invoked {U} plan (codes : list (MigrationFile.t U)) k :
  length plan = length codes →
  (λ m, (Down, DownMigration.filename m)) <$> take k (loaded_down plan codes)
  = (λ e, (Down, down_filename e)) <$> take k plan.
Proof.
  intros Hlen. rewrite !fmap_take. f_equal.
  change (λ m : DownMigration.t U, (Down, DownMigration.filename m))
    with ((λ f, (Down, f)) ∘ (DownMigration.filename (U:=U))).
  rewrite list_fmap_compose, loaded_down_filename by done.
  by rewrite <- list_fmap_compose.
Qed.

Lemma loaded_down_deleted {U} plan (codes : list (MigrationFile.t U)) k :
  length plan = length codes →
  DownMigration.id <$> take k (loaded_down plan codes) = Migration.id <$> take k plan.
Proof. intros Hlen. rewrite !fmap_take. f_equal. by apply loaded_down_id. Qed.

Section EveryRun.
Context {U : Type}.
Variable path_join : list string → string.
Variable require : string → Result (MigrationFile.t U).
Variable getConfig : string → Config.t.
Variable cwd : string.
Variable chalk : string → string → string.
Variable params : Params.t.
Implicit Types (w : World.t U) (t : Table.t).

Local Abbreviation db := (the_db getConfig cwd params).
Local Abbreviation dir := (migrations_dir path_join cwd params).
Local Abbreviation root := (rootDir cwd params).
Local Abbreviation all := (Params.all params).

Lemma requireMigrations_silent (plan : list (option Migration.t)) r :
  safe (U:=U) silent (requireMigrations path_join require plan r).
Proof.
  unfold requireMigrations. apply safe_mapM. intros [e|] w.
  - apply safe_bind; [by apply safe_load|]. intros code w1 _. apply extends_refl.
  - apply extends_refl.
Qed.

Lemma requireMigrations_inv (plan : list Migration.t) w ms w' :
  requireMigrations path_join require (Some <$> plan) root w = (Ok ms, w') →
  ∃ codes, length plan = length codes ∧ ms = loaded_down plan codes.
Proof.
  intros H.
  assert (Hl : ∃ codes, loads require (down_path path_join cwd params <$> plan) codes).
  { clear -H. unfold requireMigrations in H. revert w ms w' H.
    induction plan as [|e plan IH]; intros w ms w' H.
    - exists []. constructor.
    - rewrite fmap_cons in H. cbn [mapM] in H. rewrite !bind_eq, load_eq in H.
      destruct (require _) as [code|err] eqn:Hx; [|done].
      cbv beta iota delta [mret M_ret ret] in H. rewrite bind_eq in H.
      destruct (mapM _ _ _) as [[ms1|err] w2] eqn:Hxs; [|done].
      apply IH in Hxs as [codes Hcodes]. exists (code :: codes).
      unfold loads. rewrite fmap_cons. by constructor. }
  destruct Hl as [codes Hl]. exists codes.
  erewrite requireMigrations_ok in H by exact Hl. injection H as <- _.
  split; [|done]. apply Forall2_length in Hl. by rewrite length_fmap in Hl.
Qed.

Lemma up_prefix w :
  ∃ evs k k',
    World.trace (up path_join require getConfig cwd chalk params w).2
    = World.trace w ++ evs
    ∧ invoked evs
      = (λ c, (Up, Candidate.filename c))
        <$> take k (planForward (ledger_read db (World.server w)) (scanned dir w) all)
    ∧ inserted evs
      = cand_doc
        <$> take k' (planForward (ledger_read db (World.server w)) (scanned dir w) all)
    ∧ (k' = k ∨ S k' = k)
    ∧ deleted evs = [].
Proof.
  unfold ledger_read, scanned.
  set (t := default fresh_table (ledger_table db (World.server w))).
  assert (Ht : ledger_table db (boot_server db (World.server w)) = Some t)
    by apply boot_server_ledger.
  pose proof (quiet_boot db (World.server w)) as Hqb.
  unfold up. cbn zeta. rewrite bind_eq, connectToDb_eq.
  destruct (decide ("timestamp" ∈ Table.indexes t)) as [Hidx|Hidx].
  2:{ erewrite bind_throw;
        [|erewrite orderBy_no_index; [reflexivity|reflexivity|exact Ht|exact Hidx]].
      world_simpl.
      exists (boot_trace db (World.server w)
              ++ [Run (OrderBy MIGRATION_TABLE_NAME "timestamp")]), 0%nat, 0%nat.
      split; [by rewrite <- (assoc_L (++))|].
      destruct (quiet_app _ [Run (OrderBy MIGRATION_TABLE_NAME "timestamp")] Hqb)
        as (H1 & H2 & H3); [by repeat split|].
      rewrite H1, H2, H3. by repeat split; auto. }
  erewrite bind_ok; [|erewrite orderBy_eq; [reflexivity|reflexivity|exact Ht|exact Hidx]].
  world_simpl. rewrite <- (assoc_L (++)).
  assert (Hq0 : quiet (boot_trace db (World.server w)
                       ++ [Run (OrderBy MIGRATION_TABLE_NAME "timestamp")]))
    by (apply quiet_app; [done | by repeat split]).
  set (w2 := World.mk _ _ _ _ _).
  rewrite bind_eq.
  pose proof (getMigrationsExcept_safe path_join require cwd params silent
                (last (ledger t)) (numToApply_of all) (λ _, I) (λ _, I) w2) as Hsafe.
  destruct (getMigrationsExcept _ _ _ _ _ w2) as [[ms|e] w3] eqn:Hg.
  2:{ destruct Hsafe as (evs_g & Hw3 & Hsil). cbn [snd] in Hw3.
      exists ((boot_trace db (World.server w)
               ++ [Run (OrderBy MIGRATION_TABLE_NAME "timestamp")]) ++ evs_g), 0%nat, 0%nat.
      cbn [snd]. rewrite Hw3. unfold w2. world_simpl.
      split; [by rewrite <- !(assoc_L (++))|].
      destruct (quiet_app _ _ Hq0 (silent_quiet _ Hsil)) as (H1 & H2 & H3).
      rewrite H1, H2, H3. by repeat split; auto. }
  destruct Hsafe as (evs_g & Hw3 & Hsil). cbn [snd] in Hw3.
  apply getMigrationsExcept_inv in Hg as (files & codes & Hfiles & Hlen & ->).
  unfold w2 in Hfiles. cbn [World.dirs] in Hfiles. rewrite Hfiles.
  change (default [] (Some files)) with files.
  fold (planForward (ledger t) files all) in *.
  set (plan := planForward (ledger t) files all) in *.
  assert (Hq1 : quiet ((boot_trace db (World.server w)
                        ++ [Run (OrderBy MIGRATION_TABLE_NAME "timestamp")]) ++ evs_g))
    by (apply quiet_app; [done | by apply silent_quiet]).
  assert (Hw3' : World.trace w3
                 = World.trace w
                   ++ (boot_trace db (World.server w)
                       ++ [Run (OrderBy MIGRATION_TABLE_NAME "timestamp")]) ++ evs_g).
  { rewrite Hw3. unfold w2. world_simpl. by rewrite <- !(assoc_L (++)). }
  case_decide as Hshort.
  { rewrite logInfo_eq. world_simpl. rewrite Hw3'.
    exists (((boot_trace db (World.server w)
              ++ [Run (OrderBy MIGRATION_TABLE_NAME "timestamp")]) ++ evs_g)
            ++ [info chalk ["No new migrations"]]), 0%nat, 0%nat.
    split; [by rewrite <- !(assoc_L (++))|].
    destruct (quiet_app _ _ Hq1 (quiet_info chalk ["No new migrations"]))
      as (H1 & H2 & H3).
    rewrite H1, H2, H3. by repeat split; auto. }
  rewrite bind_eq.
  destruct (up_loop_prefix chalk (loaded_up plan codes) w3)
    as (evs_l & k & k' & Hl & Hinv & Hins & Hk & Hdel).
  rewrite loaded_up_invoked in Hinv by done.
  rewrite loaded_up_inserted in Hins by done.
  destruct (up_loop chalk (loaded_up plan codes) w3) as [[[]|e] w4]; cbn [snd] in Hl.
  - rewrite logInfo_eq. world_simpl. rewrite Hl, Hw3'.
    exists (((boot_trace db (World.server w)
              ++ [Run (OrderBy MIGRATION_TABLE_NAME "timestamp")]) ++ evs_g)
            ++ evs_l ++ [info chalk ["Migration Successful"]]), k, k'.
    split; [by rewrite <- !(assoc_L (++))|].
    destruct (quiet_wrap _ evs_l _ Hq1 (quiet_info chalk ["Migration Successful"]))
      as (H1 & H2 & H3).
    rewrite H1, H2, H3. by repeat split.
  - world_simpl. rewrite Hl, Hw3'.
    exists (((boot_trace db (World.server w)
              ++ [Run (OrderBy MIGRATION_TABLE_NAME "timestamp")]) ++ evs_g)
            ++ evs_l ++ []), k, k'.
    split; [by rewrite (right_id_L [] (++)), <- !(assoc_L (++))|].
    destruct (quiet_wrap _ evs_l _ Hq1 quiet_nil) as (H1 & H2 & H3).
    rewrite H1, H2, H3. by repeat split.
  - world_simpl. rewrite Hl, Hw3'.
    exists (((boot_trace db (World.server w)
              ++ [Run (OrderBy MIGRATION_TABLE_NAME "timestamp")]) ++ evs_g)
            ++ evs_l ++ []), k, k'.
    split; [by rewrite (right_id_L [] (++)), <- !(assoc_L (++))|].
    destruct (quiet_wrap _ evs_l _ Hq1 quiet_nil) as (H1 & H2 & H3).
    rewrite H1, H2, H3. by repeat split.
Qed.

(** X5.  In every run of [up], however it ends, the forward procedures
    invoked are those of a prefix of the plan, in plan order and once each;
    the documents inserted are those of the same prefix, or of all of it but
    its last element; nothing is deleted.  The plan is computed from the
    ledger as read after [connectToDb] and from the directory as scanned. *)
Theorem up_runs_a_prefix w :
  ∃ evs k k',
    World.trace (up path_join require getConfig cwd chalk params w).2
    = World.trace w ++ evs
    ∧ invoked evs
      = (λ c, (Up, Candidate.filename c))
        <$> take k (planForward (ledger_read db (World.server w)) (scanned dir w) all)
    ∧ inserted evs
      = cand_doc
        <$> take k' (planForward (ledger_read db (World.server w)) (scanned dir w) all)
    ∧ (k' = k ∨ S k' = k)
    ∧ deleted evs = [].
Proof. apply up_prefix. Qed.

Lemma down_prefix w :
  ∃ evs k k',
    World.trace (down path_join require getConfig cwd chalk params w).2
    = World.trace w ++ evs
    ∧ invoked evs
      = (λ e, (Down, down_filename e))
        <$> take k (planBackward (ledger_read db (World.server w)) all)
    ∧ deleted evs
      = Migration.id <$> take k' (planBackward (ledger_read db (World.server w)) all)
    ∧ (k' = k ∨ S k' = k)
    ∧ inserted evs = [].
Proof.
  unfold ledger_read.
  set (t := default fresh_table (ledger_table db (World.server w))).
  assert (Ht : ledger_table db (boot_server db (World.server w)) = Some t)
    by apply boot_server_ledger.
  pose proof (quiet_boot db (World.server w)) as Hqb.
  unfold down. cbn zeta. rewrite bind_eq, connectToDb_eq.
  destruct (decide ("timestamp" ∈ Table.indexes t)) as [Hidx|Hidx].
  2:{ erewrite bind_throw;
        [|erewrite orderBy_no_index; [reflexivity|reflexivity|exact Ht|exact Hidx]].
      world_simpl.
      exists (boot_trace db (World.server w)
              ++ [Run (OrderBy MIGRATION_TABLE_NAME "timestamp")]), 0%nat, 0%nat.
      split; [by rewrite <- (assoc_L (++))|].
      destruct (quiet_app _ [Run (OrderBy MIGRATION_TABLE_NAME "timestamp")] Hqb)
        as (H1 & H2 & H3); [by repeat split|].
      rewrite H1, H2, H3. by repeat split; auto. }
  erewrite bind_ok; [|erewrite orderBy_eq; [reflexivity|reflexivity|exact Ht|exact Hidx]].
  world_simpl. rewrite <- (assoc_L (++)).
  assert (Hq0 : quiet (boot_trace db (World.server w)
                       ++ [Run (OrderBy MIGRATION_TABLE_NAME "timestamp")]))
    by (apply quiet_app; [done | by repeat split]).
  set (w2 := World.mk _ _ _ _ _).
  case_decide as Hempty.
  { rewrite logInfo_eq. unfold w2. world_simpl.
    exists ((boot_trace db (World.server w)
             ++ [Run (OrderBy MIGRATION_TABLE_NAME "timestamp")])
            ++ [info chalk ["No new migrations"]]), 0%nat, 0%nat.
    split; [by rewrite <- !(assoc_L (++))|].
    destruct (quiet_app _ _ Hq0 (quiet_info chalk ["No new migrations"]))
      as (H1 & H2 & H3).
    rewrite H1, H2, H3. by repeat split; auto. }
  assert (Hne : ledger t ≠ []) by (by destruct (ledger t)).
  cbn zeta. rewrite (migrationsToRollBack_plan all (ledger t) Hne).
  set (plan := planBackward (ledger t) all).
  rewrite bind_eq.
  pose proof (requireMigrations_silent (Some <$> plan) root w2) as Hsafe.
  destruct (requireMigrations _ _ _ _ w2) as [[ms|e] w3] eqn:Hg;
    destruct Hsafe as (evs_g & Hw3 & Hsil); cbn [snd] in Hw3.
  2:{ exists ((boot_trace db (World.server w)
               ++ [Run (OrderBy MIGRATION_TABLE_NAME "timestamp")]) ++ evs_g), 0%nat, 0%nat.
      cbn [snd]. rewrite Hw3. unfold w2. world_simpl.
      split; [by rewrite <- !(assoc_L (++))|].
      destruct (quiet_app _ _ Hq0 (silent_quiet _ Hsil)) as (H1 & H2 & H3).
      rewrite H1, H2, H3. by repeat split; auto. }
  apply requireMigrations_inv in Hg as (codes & Hlen & ->).
  assert (Hq1 : quiet ((boot_trace db (World.server w)
                        ++ [Run (OrderBy MIGRATION_TABLE_NAME "timestamp")]) ++ evs_g))
    by (apply quiet_app; [done | by apply silent_quiet]).
  assert (Hw3' : World.trace w3
                 = World.trace w
                   ++ (boot_trace db (World.server w)
                       ++ [Run (OrderBy MIGRATION_TABLE_NAME "timestamp")]) ++ evs_g).
  { rewrite Hw3. unfold w2. world_simpl. by rewrite <- !(assoc_L (++)). }
  rewrite bind_eq.
  destruct (down_loop_prefix chalk (loaded_down plan codes) w3)
    as (evs_l & k & k' & Hl & Hinv & Hdel & Hk & Hins).
  rewrite loaded_down_invoked in Hinv by done.
  rewrite loaded_down_deleted in Hdel by done.
  destruct (down_loop chalk (loaded_down plan codes) w3) as [[[]|e] w4]; cbn [snd] in Hl.
  - rewrite logInfo_eq. world_simpl. rewrite Hl, Hw3'.
    exists (((boot_trace db (World.server w)
              ++ [Run (OrderBy MIGRATION_TABLE_NAME "timestamp")]) ++ evs_g)
            ++ evs_l ++ [info chalk ["Migration successful"]]), k, k'.
    split; [by rewrite <- !(assoc_L (++))|].
    destruct (quiet_wrap _ evs_l _ Hq1 (quiet_info chalk ["Migration successful"]))
      as (H1 & H2 & H3).
    rewrite H1, H2, H3. by repeat split.
  - world_simpl. rewrite Hl, Hw3'.
    exists (((boot_trace db (World.server w)
              ++ [Run (OrderBy MIGRATION_TABLE_NAME "timestamp")]) ++ evs_g)
            ++ evs_l ++ []), k, k'.
    split; [by rewrite (right_id_L [] (++)), <- !(assoc_L (++))|].
    destruct (quiet_wrap _ evs_l _ Hq1 quiet_nil) as (H1 & H2 & H3).
    rewrite H1, H2, H3. by repeat split.
  - world_simpl. rewrite Hl, Hw3'.
    exists (((boot_trace db (World.server w)
              ++ [Run (OrderBy MIGRATION_TABLE_NAME "timestamp")]) ++ evs_g)
            ++ evs_l ++ []), k, k'.
    split; [by rewrite (right_id_L [] (++)), <- !(assoc_L (++))|].
    destruct (quiet_wrap _ evs_l _ Hq1 quiet_nil) as (H1 & H2 & H3).
    rewrite H1, H2, H3. by repeat split.
Qed.

(** X6.  In every run of [down], however it ends, the backward procedures
    invoked are those of a prefix of the plan, in plan order and once each;
    the keys deleted are those of the same prefix, or of all of it but its
    last element; nothing is inserted.  The plan is the ledger as read after
    [connectToDb], reversed, with [all]; its last entry without. *)
Theorem down_runs_a_prefix w :
  ∃ evs k k',
    World.trace (down path_join require getConfig cwd chalk params w).2
    = World.trace w ++ evs
    ∧ invoked evs
      = (λ e, (Down, down_filename e))
        <$> take k (planBackward (ledger_read db (World.server w)) all)
    ∧ deleted evs
      = Migration.id <$> take k' (planBackward (ledger_read db (World.server w)) all)
    ∧ (k' = k ∨ S k' = k)
    ∧ inserted evs = [].
Proof. apply down_prefix. Qed.

Lemma planBackward_one_length (entries : list Migration.t) (a : option bool) :
  a ≠ Some true → (length (planBackward entries a) ≤ 1)%nat.
Proof.
  intros Ha. unfold planBackward.
  destruct a as [[]|]; try done; destruct (last entries); simpl; lia.
Qed.

(** X23.  Without [all], a run of [up] invokes at most one forward procedure
    and inserts at most one document, and a run of [down] invokes at most one
    backward procedure and deletes at most one entry, however the run
    ends. *)
Theorem one_at_a_time w :
  all ≠ Some true →
  (∃ evs,
     World.trace (up path_join require getConfig cwd chalk params w).2
     = World.trace w ++ evs
     ∧ (length (invoked evs) ≤ 1)%nat
     ∧ (length (inserted evs) ≤ 1)%nat
     ∧ deleted evs = [])
  ∧ (∃ evs,
       World.trace (down path_join require getConfig cwd chalk params w).2
       = World.trace w ++ evs
       ∧ (length (invoked evs) ≤ 1)%nat
       ∧ (length (deleted evs) ≤ 1)%nat
       ∧ inserted evs = []).
Proof.
  intros Hall. split.
  - destruct (up_prefix w) as (evs & k & k' & Htrace & Hinv & Hins & _ & Hdel).
    exists evs. split; [done|].
    rewrite Hinv, Hins, !length_fmap, !length_take.
    rewrite (planForward_one _ _ _ Hall), length_take.
    repeat split; [lia | lia | done].
  - destruct (down_prefix w) as (evs & k & k' & Htrace & Hinv & Hdel & _ & Hins).
    exists evs. split; [done|].
    rewrite Hinv, Hdel, !length_fmap, !length_take.
    pose proof (planBackward_one_length (ledger_read db (World.server w)) all Hall).
    repeat split; [lia | lia | done].
Qed.

End EveryRun.

(** ** Runs that complete *)

Lemma ledger_empty_docs (t : Table.t) : ledger t = [] → Table.docs t = ∅.
Proof.
  intros Hnil. apply map_eq. intros i. rewrite lookup_empty.
  destruct (Table.docs t !! i) as [[n ts]|] eqn:Hi; [|done].
  assert (Hin : Migration.mk i n ts ∈ ledger t) by (by apply ledger_elem_of).
  rewrite Hnil in Hin. by apply elem_of_nil in Hin.
Qed.

Lemma delete_all_docs (t : Table.t) :
  delete_docs (Migration.id <$> reverse (ledger t)) (Table.docs t) = ∅.
Proof.
  apply map_eq. intros i. rewrite lookup_empty.
  destruct (decide (i ∈ Migration.id <$> reverse (ledger t))) as [Hin|Hnin].
  - by apply delete_docs_gone.
  - rewrite delete_docs_other by done.
    destruct (Table.docs t !! i) as [[n ts]|] eqn:Hi; [|done].
    exfalso. apply Hnin.
    apply (list_elem_of_fmap_2' Migration.id _ (Migration.mk i n ts)); [|done].
    rewrite elem_of_reverse. by apply ledger_elem_of.
Qed.

Section Completed.
Context {U : Type}.
Variable path_join : list string → string.
Variable require : string → Result (MigrationFile.t U).
Variable getConfig : string → Config.t.
Variable cwd : string.
Variable chalk : string → string → string.
Variable params : Params.t.
Implicit Types (w : World.t U) (t : Table.t).

Local Abbreviation db := (the_db getConfig cwd params).
Local Abbreviation dir := (migrations_dir path_join cwd params).
Local Abbreviation all := (Params.all params).
Local Abbreviation up_path := (up_path path_join cwd params).
Local Abbreviation down_path := (down_path path_join cwd params).

(** X7.  When all planned modules load and every forward procedure
    returns, [up] returns normally: each planned migration was invoked once,
    in plan order; one document per planned migration was inserted, in the
    same order; the ledger holds those documents besides all it held
    before, unchanged; and the last line logged reports success, or that
    there are no new migrations when nothing was planned. *)
Theorem up_applies_the_plan w t files codes u' :
  ledger_table db (boot_server db (World.server w)) = Some t →
  "timestamp" ∈ Table.indexes t →
  World.dirs w !! dir = Some files →
  loads require (up_path <$> planForward (ledger t) files all) codes →
  run_all (ups (loaded_up (planForward (ledger t) files all) codes)) (World.user w)
  = Some u' →
  ∃ w' evs,
    up path_join require getConfig cwd chalk params w = (Ok tt, w')
    ∧ World.trace w' = World.trace w ++ evs
    ∧ invoked evs
      = (λ c, (Up, Candidate.filename c)) <$> planForward (ledger t) files all
    ∧ inserted evs = cand_doc <$> planForward (ledger t) files all
    ∧ deleted evs = []
    ∧ (∀ i d, Table.docs t !! i = Some d →
              ledger_docs db (World.server w') !! i = Some d)
    ∧ (∀ c, c ∈ planForward (ledger t) files all →
            ∃ i, ledger_docs db (World.server w') !! i = Some (cand_doc c))
    ∧ (∀ i d, ledger_docs db (World.server w') !! i = Some d →
              Table.docs t !! i = Some d
              ∨ d ∈ cand_doc <$> planForward (ledger t) files all)
    ∧ World.user w' = u'
    ∧ last evs
      = Some (info chalk [if decide (planForward (ledger t) files all = [])
                          then "No new migrations" else "Migration Successful"]).
Proof.
  intros Ht Hidx Hfiles Hloads Hrun.
  assert (Hlen : length (planForward (ledger t) files all) = length codes).
  { apply Forall2_length in Hloads. by rewrite length_fmap in Hloads. }
  erewrite up_ok_eq by eassumption.
  eexists _, _. split; [reflexivity|]. world_simpl. split; [reflexivity|].
  destruct (quiet_up_prelude path_join getConfig cwd params (World.server w)
              (planForward (ledger t) files all)) as (Hq1 & Hq2 & Hq3).
  rewrite ledger_docs_set by (eapply get_table_db, Ht).
  unfold with_docs. cbn [Table.docs].
  rewrite loaded_up_doc by done.
  split; [|split; [|split; [|split; [|split; [|split; [|split]]]]]].
  - rewrite !invoked_app, Hq1, invoked_up_steps. simpl.
    rewrite (right_id_L [] (++)).
    pose proof (loaded_up_invoked (planForward (ledger t) files all) codes
                  (length (planForward (ledger t) files all)) Hlen) as Hinv.
    rewrite firstn_all in Hinv.
    rewrite take_ge in Hinv; [done|].
    unfold loaded_up. rewrite length_zip_with. lia.
  - rewrite !inserted_app, Hq2, inserted_up_steps. simpl.
    rewrite (right_id_L [] (++)). by apply loaded_up_doc.
  - by rewrite !deleted_app, Hq3, deleted_up_steps.
  - intros i d. apply insert_docs_old.
  - intros c Hc. apply insert_docs_new. by apply list_elem_of_fmap_2.
  - intros i d. apply insert_docs_inv.
  - done.
  - rewrite !(assoc_L (++)). apply last_snoc.
Qed.

(** X8.  When [down] runs with [all], all modules load and every backward
    procedure returns, it returns normally with an empty ledger: the
    backward procedure of every entry was invoked once, latest first, and
    every entry was deleted. *)
Theorem down_all_empties_the_ledger w t codes u' :
  all = Some true →
  ledger_table db (boot_server db (World.server w)) = Some t →
  "timestamp" ∈ Table.indexes t →
  loads require (down_path <$> reverse (ledger t)) codes →
  run_all (downs (loaded_down (reverse (ledger t)) codes)) (World.user w) = Some u' →
  ∃ w' evs,
    down path_join require getConfig cwd chalk params w = (Ok tt, w')
    ∧ World.trace w' = World.trace w ++ evs
    ∧ invoked evs = (λ e, (Down, down_filename e)) <$> reverse (ledger t)
    ∧ deleted evs = Migration.id <$> reverse (ledger t)
    ∧ inserted evs = []
    ∧ ledger_docs db (World.server w') = ∅
    ∧ World.user w' = u'.
Proof.
  intros Hall Ht Hidx Hloads Hrun.
  assert (Hlen : length (reverse (ledger t)) = length codes).
  { apply Forall2_length in Hloads. by rewrite length_fmap in Hloads. }
  assert (Hdb : is_Some (boot_server db (World.server w) !! db))
    by (eapply get_table_db, Ht).
  destruct (decide (ledger t = [])) as [Hempty|Hne].
  - erewrite down_empty_eq by eassumption.
    rewrite Hempty in *. destruct codes; [|done].
    simpl in Hrun. injection Hrun as <-.
    eexists _, _. split; [reflexivity|]. world_simpl. split; [reflexivity|].
    destruct (quiet_boot db (World.server w)) as (Hq1 & Hq2 & Hq3).
    rewrite !invoked_app, !deleted_app, !inserted_app, Hq1, Hq2, Hq3.
    repeat split.
    unfold ledger_docs. rewrite Ht. by apply ledger_empty_docs.
  - pose proof (down_ok_eq path_join require getConfig cwd chalk params w t codes u'
                  Ht Hidx Hne) as Heq.
    unfold planBackward in Heq. rewrite Hall in Heq.
    rewrite (Heq Hloads Hrun).
    eexists _, _. split; [reflexivity|]. world_simpl. split; [reflexivity|].
    destruct (quiet_down_prelude path_join getConfig cwd params (World.server w)
                (reverse (ledger t))) as (Hq1 & Hq2 & Hq3).
    rewrite ledger_docs_set by done. unfold with_docs. cbn [Table.docs].
    rewrite loaded_down_id by done.
    split; [|split; [|split; [|split]]].
    + rewrite !invoked_app, Hq1, invoked_down_steps. simpl.
      rewrite (right_id_L [] (++)).
      pose proof (loaded_down_invoked (reverse (ledger t)) codes
                    (length (reverse (ledger t))) Hlen) as Hinv.
      rewrite firstn_all in Hinv.
      rewrite take_ge in Hinv; [done|].
      unfold loaded_down. rewrite length_zip_with. lia.
    + rewrite !deleted_app, Hq3, deleted_down_steps. simpl.
      rewrite (right_id_L [] (++)). by apply loaded_down_id.
    + by rewrite !inserted_app, Hq2, inserted_down_steps.
    + apply delete_all_docs.
    + done.
Qed.

(** X9.  When [down] runs without [all] on a ledger that is not empty, the
    module of its last entry loads and the backward procedure returns,
    [down] returns normally having invoked that one procedure and deleted
    that one entry: every other entry of the ledger is as before. *)
Theorem down_one_removes_the_last w t e code u' :
  all ≠ Some true →
  ledger_table db (boot_server db (World.server w)) = Some t →
  "timestamp" ∈ Table.indexes t →
  last (ledger t) = Some e →
  require (down_path e) = Ok code →
  MigrationFile.down code (World.user w) = (Ok tt, u') →
  ∃ w' evs,
    down path_join require getConfig cwd chalk params w = (Ok tt, w')
    ∧ World.trace w' = World.trace w ++ evs
    ∧ invoked evs = [(Down, down_filename e)]
    ∧ deleted evs = [Migration.id e]
    ∧ inserted evs = []
    ∧ ledger_docs db (World.server w') = delete (Migration.id e) (Table.docs t)
    ∧ (∀ e', e' ∈ ledger t → ts_le e' e)
    ∧ World.user w' = u'.
Proof.
  intros Hall Ht Hidx He Hcode Hdown.
  assert (Hne : ledger t ≠ []) by (intros Hnil; by rewrite Hnil in He).
  assert (Hplan : planBackward (ledger t) all = [e]).
  { unfold planBackward. rewrite He. by destruct all as [[]|]. }
  assert (Hdb : is_Some (boot_server db (World.server w) !! db))
    by (eapply get_table_db, Ht).
  pose proof (down_ok_eq path_join require getConfig cwd chalk params w t [code] u'
                Ht Hidx Hne) as Heq.
  rewrite Hplan in Heq.
  rewrite Heq.
  2:{ by repeat constructor. }
  2:{ simpl. by rewrite Hdown. }
  eexists _, _. split; [reflexivity|]. world_simpl. split; [reflexivity|].
  destruct (quiet_down_prelude path_join getConfig cwd params (World.server w) [e])
    as (Hq1 & Hq2 & Hq3).
  rewrite ledger_docs_set by done.
  split; [|split; [|split; [|split; [|split]]]].
  - by rewrite !invoked_app, Hq1.
  - by rewrite !deleted_app, Hq3.
  - by rewrite !inserted_app, Hq2.
  - done.
  - apply sorted_ts_last; [apply ledger_sorted_ts | done].
  - done.
Qed.

End Completed.

(** ** Modules that do not load, directories that cannot be read *)

Section LoadFailure.
Context {U : Type}.
Variable path_join : list string → string.
Variable require : string → Result (MigrationFile.t U).
Variable getConfig : string → Config.t.
Variable cwd : string.
Variable chalk : string → string → string.
Variable params : Params.t.
Implicit Types (w : World.t U) (t : Table.t).

Local Abbreviation db := (the_db getConfig cwd params).
Local Abbreviation dir := (migrations_dir path_join cwd params).
Local Abbreviation root := (rootDir cwd params).
Local Abbreviation all := (Params.all params).
Local Abbreviation up_path := (up_path path_join cwd params).
Local Abbreviation down_path := (down_path path_join cwd params).

Lemma mapM_load_throw {A} (path : A → string) (pre post : list A) x codes e w :
  loads require (path <$> pre) codes →
  require (path x) = Throw e →
  mapM (λ y, load require (path y)) (pre ++ x :: post) w =
    (Throw e,
     World.mk (World.server w) (World.pool w) (World.user w) (World.dirs w)
       (World.trace w ++ (Required <$> (path <$> (pre ++ [x]))))).
Proof.
  unfold loads. revert codes w.
  induction pre as [|p pre IH]; intros codes w Hl Hx.
  - simpl app. cbn [mapM]. rewrite bind_eq, load_eq, Hx. by world_simpl.
  - rewrite fmap_cons in Hl.
    apply Forall2_cons_inv_l in Hl as (code & codes' & Hc & Hl & ->).
    rewrite <- !app_comm_cons. cbn [mapM]. rewrite bind_eq, load_eq, Hc.
    rewrite bind_eq. rewrite (IH codes') by done. world_simpl.
    rewrite !fmap_cons. by rewrite <- !(assoc_L (++)).
Qed.

(** X10.  [up] loads the modules of all planned migrations before it runs
    any.  When the module of a planned migration does not load, [up] throws
    what [require] threw: the modules before it in the plan were required,
    no procedure was invoked, and the server and the user data are as
    [connectToDb] left them. *)
Theorem up_load_failure w t files pre c post codes e :
  ledger_table db (boot_server db (World.server w)) = Some t →
  "timestamp" ∈ Table.indexes t →
  World.dirs w !! dir = Some files →
  planForward (ledger t) files all = pre ++ c :: post →
  loads require (up_path <$> pre) codes →
  require (up_path c) = Throw e →
  ∃ w' evs,
    up path_join require getConfig cwd chalk params w = (Throw e, w')
    ∧ World.trace w' = World.trace w ++ evs
    ∧ required evs = up_path <$> (pre ++ [c])
    ∧ invoked evs = [] ∧ inserted evs = [] ∧ deleted evs = []
    ∧ World.server w' = boot_server db (World.server w)
    ∧ World.user w' = World.user w.
Proof.
  intros Ht Hidx Hfiles Hplan Hloads Hc.
  unfold up. cbn zeta. rewrite bind_eq, connectToDb_eq.
  erewrite bind_ok; [|erewrite orderBy_eq; [reflexivity|reflexivity|exact Ht|exact Hidx]].
  world_simpl.
  erewrite bind_throw.
  2:{ unfold getMigrationsExcept.
      erewrite bind_ok; [|by erewrite readdir_eq by exact Hfiles].
      world_simpl.
      fold (planForward (ledger t) files all). rewrite Hplan.
      erewrite bind_throw; [reflexivity|].
      by apply (mapM_load_throw up_path pre post c codes e). }
  world_simpl.
  exists (World.mk (boot_server db (World.server w)) (Some db) (World.user w)
            (World.dirs w)
            (World.trace w
             ++ (boot_trace db (World.server w)
                 ++ [Run (OrderBy MIGRATION_TABLE_NAME "timestamp"); Readdir dir])
             ++ (Required <$> (up_path <$> (pre ++ [c]))))),
    ((boot_trace db (World.server w)
      ++ [Run (OrderBy MIGRATION_TABLE_NAME "timestamp"); Readdir dir])
     ++ (Required <$> (up_path <$> (pre ++ [c])))).
  split; [by rewrite <- !(assoc_L (++))|]. world_simpl. split; [done|].
  assert (Hq : quiet ((boot_trace db (World.server w)
                       ++ [Run (OrderBy MIGRATION_TABLE_NAME "timestamp"); Readdir dir])
                      ++ (Required <$> (up_path <$> (pre ++ [c]))))).
  { apply quiet_app; [|apply quiet_required].
    apply quiet_app; [apply quiet_boot | by repeat split]. }
  destruct Hq as (H1 & H2 & H3).
  split; [|by repeat split].
  rewrite !required_app, required_boot, required_Required. done.
Qed.

(** X11.  [down] loads the modules of all planned entries before it runs
    any.  When the module of a planned entry does not load, [down] throws
    what [require] threw: no procedure was invoked, nothing was deleted. *)
Theorem down_load_failure w t pre e0 post codes e :
  ledger_table db (boot_server db (World.server w)) = Some t →
  "timestamp" ∈ Table.indexes t →
  planBackward (ledger t) all = pre ++ e0 :: post →
  loads require (down_path <$> pre) codes →
  require (down_path e0) = Throw e →
  ∃ w' evs,
    down path_join require getConfig cwd chalk params w = (Throw e, w')
    ∧ World.trace w' = World.trace w ++ evs
    ∧ required evs = down_path <$> (pre ++ [e0])
    ∧ invoked evs = [] ∧ inserted evs = [] ∧ deleted evs = []
    ∧ World.server w' = boot_server db (World.server w)
    ∧ World.user w' = World.user w.
Proof.
  intros Ht Hidx Hplan Hloads Hc.
  assert (Hne : ledger t ≠ []).
  { intros Hnil. rewrite Hnil in Hplan.
    assert (planBackward [] all = []) as Hnone by (by destruct all as [[]|]).
    rewrite Hnone in Hplan. by destruct pre. }
  unfold down. cbn zeta. rewrite bind_eq, connectToDb_eq.
  erewrite bind_ok; [|erewrite orderBy_eq; [reflexivity|reflexivity|exact Ht|exact Hidx]].
  world_simpl.
  rewrite decide_False by (by destruct (ledger t)).
  rewrite (migrationsToRollBack_plan all (ledger t) Hne), Hplan.
  erewrite bind_throw.
  2:{ unfold requireMigrations.
      pose proof (mapM_load_throw down_path pre post e0 codes e) as Hthrow.
      rewrite fmap_app, fmap_cons.
      assert (Hgen : ∀ (xs : list Migration.t) w0,
                mapM (λ entry : option Migration.t,
                        match entry with
                        | None =>
                            throw (Exn.Object
                                     "TypeError: cannot read properties of undefined" "")
                        | Some migration =>
                            code ← load require
                                     (path_join [root; "migrations";
                                                 Migration.timestamp migration +:+ "-"
                                                 +:+ Migration.name migration]);
                            mret (DownMigration.mk (Migration.id migration)
                                    (Migration.name migration)
                                    (Migration.timestamp migration)
                                    (Migration.timestamp migration +:+ "-"
                                     +:+ Migration.name migration) code)
                        end) (Some <$> xs) w0
                = match mapM (λ y, load require (down_path y)) xs w0 with
                  | (Ok cs, w1) => (Ok (loaded_down xs cs), w1)
                  | (Throw err, w1) => (Throw err, w1)
                  end).
      { clear. induction xs as [|x xs IH]; intros w0; [done|].
        rewrite fmap_cons. cbn [mapM]. rewrite !bind_eq, !load_eq.
        unfold down_path at 1, down_filename.
        destruct (require _) as [code|err]; [|done].
        cbv beta iota delta [mret M_ret ret]. rewrite !bind_eq, IH.
        by destruct (mapM _ xs _) as [[cs|err] w1]. }
      rewrite <- fmap_cons, <- fmap_app, Hgen.
      by rewrite (Hthrow _ Hloads Hc). }
  world_simpl.
  exists (World.mk (boot_server db (World.server w)) (Some db) (World.user w)
            (World.dirs w)
            (World.trace w
             ++ (boot_trace db (World.server w)
                 ++ [Run (OrderBy MIGRATION_TABLE_NAME "timestamp")])
             ++ (Required <$> (down_path <$> (pre ++ [e0]))))),
    ((boot_trace db (World.server w)
      ++ [Run (OrderBy MIGRATION_TABLE_NAME "timestamp")])
     ++ (Required <$> (down_path <$> (pre ++ [e0])))).
  split; [by rewrite <- !(assoc_L (++))|]. world_simpl. split; [done|].
  assert (Hq : quiet ((boot_trace db (World.server w)
                       ++ [Run (OrderBy MIGRATION_TABLE_NAME "timestamp")])
                      ++ (Required <$> (down_path <$> (pre ++ [e0]))))).
  { apply quiet_app; [|apply quiet_required].
    apply quiet_app; [apply quiet_boot | by repeat split]. }
  destruct Hq as (H1 & H2 & H3).
  split; [|by repeat split].
  rewrite !required_app, required_boot, required_Required. done.
Qed.

(** X12.  When the migrations directory cannot be read, [up] throws after
    reading the ledger: no module is loaded, no procedure is invoked, and
    the server is as [connectToDb] left it. *)
Theorem up_unreadable_directory w t :
  ledger_table db (boot_server db (World.server w)) = Some t →
  "timestamp" ∈ Table.indexes t →
  World.dirs w !! dir = None →
  ∃ w' evs,
    up path_join require getConfig cwd chalk params w
    = (Throw (Exn.Object "ENOENT: no such file or directory" ""), w')
    ∧ World.trace w' = World.trace w ++ evs
    ∧ required evs = [] ∧ invoked evs = [] ∧ inserted evs = []
    ∧ World.server w' = boot_server db (World.server w).
Proof.
  intros Ht Hidx Hdir.
  unfold up. cbn zeta. rewrite bind_eq, connectToDb_eq.
  erewrite bind_ok;
    [|erewrite orderBy_eq; [reflexivity|reflexivity|exact Ht|exact Hidx]].
  world_simpl.
  erewrite bind_throw.
  2:{ unfold getMigrationsExcept. erewrite bind_throw; [reflexivity|].
      unfold readdir. world_simpl.
      change (World.dirs w !! path_join [rootDir_of cwd (Params.root params); "migrations"])
        with (World.dirs w !! dir).
      by rewrite Hdir. }
  world_simpl.
  exists (World.mk (boot_server db (World.server w)) (Some db) (World.user w)
            (World.dirs w)
            (World.trace w
             ++ boot_trace db (World.server w)
             ++ [Run (OrderBy MIGRATION_TABLE_NAME "timestamp"); Readdir dir])),
    (boot_trace db (World.server w)
     ++ [Run (OrderBy MIGRATION_TABLE_NAME "timestamp"); Readdir dir]).
  split; [by rewrite <- !(assoc_L (++))|]. world_simpl. split; [done|].
  destruct (quiet_boot db (World.server w)) as (H1 & H2 & H3).
  rewrite !required_app, !invoked_app, !inserted_app, required_boot, H1, H2.
  by repeat split.
Qed.

End LoadFailure.

(** ** Which names are migration files *)

Lemma str_app_eq_nil (s t : string) : s +:+ t = "" → s = "" ∧ t = "".
Proof. destruct s; [by rewrite app_nil_l | by rewrite app_cons]. Qed.

Lemma str_app_eq_cons (s t : string) c u :
  s +:+ t = String c u →
  (s = "" ∧ t = String c u) ∨ (∃ s', s = String c s' ∧ u = s' +:+ t).
Proof.
  destruct s as [|a s]; [rewrite app_nil_l; auto|].
  rewrite app_cons. intros H. injection H as -> <-. right. eauto.
Qed.

Lemma lang_nullable (r : Rx.t) (s : string) : Rx.lang r s → s = "" → Rx.nullable r = true.
Proof.
  induction 1 as [| | | |r1 r2 s1 s2 H1 IH1 H2 IH2| | | |]; intros Hs; try done; simpl.
  - apply str_app_eq_nil in Hs as [-> ->]. by rewrite IH1, IH2.
  - by rewrite IHlang.
  - rewrite IHlang by done. by rewrite orb_true_r.
Qed.

Lemma lang_deriv (r : Rx.t) (s0 : string) :
  Rx.lang r s0 → ∀ c s, s0 = String c s → Rx.lang (Rx.deriv c r) s.
Proof.
  induction 1 as [|a|a Ha|a Ha|r1 r2 s1 s2 H1 IH1 H2 IH2|r1 r2 s0 H IH|r1 r2 s0 H IH
                  |r|r s1 s2 H1 IH1 H2 IH2];
    intros c s Hs; cbn [Rx.deriv]; try done.
  - injection Hs as -> <-. rewrite decide_True by done. constructor.
  - injection Hs as -> <-. rewrite Ha. constructor.
  - injection Hs as -> <-. rewrite Ha. constructor.
  - apply str_app_eq_cons in Hs as [[-> ->]|(s1' & -> & ->)].
    + rewrite (lang_nullable r1 "" H1 eq_refl). apply Rx.lang_alt_r. by apply IH2.
    + assert (Hc : Rx.lang (Rx.Cat (Rx.deriv c r1) r2) (s1' +:+ s2)).
      { constructor; [by apply IH1 | done]. }
      destruct (Rx.nullable r1); [by apply Rx.lang_alt_l | done].
  - apply Rx.lang_alt_l. by apply IH.
  - apply Rx.lang_alt_r. by apply IH.
  - apply str_app_eq_cons in Hs as [[-> ->]|(s1' & -> & ->)].
    + by apply IH2.
    + constructor; [by apply IH1 | done].
Qed.

Lemma lang_matches (r : Rx.t) (s : string) : Rx.lang r s → Rx.matches r s = true.
Proof.
  revert r. induction s as [|c s IH]; intros r H; cbn [Rx.matches].
  - by eapply lang_nullable.
  - apply IH. by eapply lang_deriv.
Qed.

Lemma lang_star_dot (s : string) : Rx.lang (Rx.Star Rx.Dot) s ↔ one_line s.
Proof.
  split.
  - intros H. remember (Rx.Star Rx.Dot) as r eqn:Hr.
    induction H as [| | | | | | |r|r s1 s2 H1 IH1 H2 IH2]; try done.
    injection Hr as ->. inversion H1; subst. rewrite app_cons, app_nil_l.
    split; [done | by apply IH2].
  - induction s as [|a s IH]; [constructor|]. intros [Ha Hs].
    change (String a s) with (String a "" +:+ s).
    constructor; [by constructor | by apply IH].
Qed.

Lemma digits_lang (s : string) : digits s → Rx.lang (Rx.times (String.length s) Rx.Digit) s.
Proof.
  induction s as [|a s IH]; [constructor|]. intros [Ha Hs].
  cbn [String.length Rx.times].
  change (String a s) with (String a "" +:+ s).
  constructor; [by constructor | by apply IH].
Qed.

Lemma matches_iff (file : string) :
  Rx.matches rxMigrationFile file = true ↔
  ∃ ts name ext,
    file = ts +:+ "-" +:+ name +:+ "." +:+ ext
    ∧ String.length ts = 14%nat ∧ digits ts
    ∧ one_line name
    ∧ (ext = "js" ∨ ext = "ts").
Proof.
  split.
  - intros H. apply matches_lang in H. unfold rxMigrationFile in H.
    apply lang_cat_inv in H as (ts & s1 & -> & Hts & H).
    apply lang_cat_inv in H as (dash & s2 & -> & Hdash & H).
    apply lang_lit_inv in Hdash as ->.
    apply lang_cat_inv in H as (name & s3 & -> & Hname & H).
    apply lang_cat_inv in H as (dot & ext & -> & Hdot & H).
    apply lang_lit_inv in Hdot as ->.
    apply lang_digits in Hts as [Hlen Hd]. apply lang_star_dot in Hname.
    exists ts, name, ext. split; [done|]. split; [done|]. split; [done|].
    split; [done|].
    apply lang_alt_inv in H as [H|H];
      apply lang_cat_inv in H as (a & b & -> & Ha & Hb);
      apply lang_lit_inv in Ha as ->; apply lang_lit_inv in Hb as ->; auto.
  - intros (ts & name & ext & -> & Hlen & Hd & Hname & Hext).
    apply lang_matches. unfold rxMigrationFile.
    constructor; [rewrite <- Hlen; by apply digits_lang|].
    constructor; [constructor|].
    constructor; [by apply lang_star_dot|].
    constructor; [constructor|].
    destruct Hext as [-> | ->].
    + apply Rx.lang_alt_l. change "js" with ("j" +:+ "s"). constructor; constructor.
    + apply Rx.lang_alt_r. change "ts" with ("t" +:+ "s"). constructor; constructor.
Qed.

(** X13.  A directory entry is taken for a migration file exactly when it
    is fourteen decimal digits, a dash, any text without line terminator, a
    dot, and [js] or [ts]. *)
Theorem migration_file_names (file : string) :
  Rx.matches rxMigrationFile file = true ↔
  ∃ ts name ext,
    file = ts +:+ "-" +:+ name +:+ "." +:+ ext
    ∧ String.length ts = 14%nat ∧ digits ts
    ∧ one_line name
    ∧ (ext = "js" ∨ ext = "ts").
Proof. apply matches_iff. Qed.

Lemma parse_of_parts (ts name ext : string) :
  digits ts → lacks "." ext →
  parse (ts +:+ "-" +:+ name +:+ "." +:+ ext)
  = Candidate.mk name ts (ts +:+ "-" +:+ name +:+ "." +:+ ext).
Proof.
  intros Hd Hext.
  assert (Hdash : Js.indexOf "-" (ts +:+ "-" +:+ name +:+ "." +:+ ext) = Js.len ts).
  { change ("-" +:+ name +:+ "." +:+ ext) with (String "-" (name +:+ "." +:+ ext)).
    apply indexOf_first. by apply digits_lacks. }
  assert (Hdot : Js.lastIndexOf "." (ts +:+ "-" +:+ name +:+ "." +:+ ext)
                 = Js.len ts + 1 + Js.len name).
  { rewrite <- (app_assoc ts), <- (app_assoc (ts +:+ "-")).
    change ("." +:+ ext) with (String "." ext).
    rewrite lastIndexOf_last by done.
    rewrite !len_app. reflexivity. }
  unfold parse. rewrite Hdash, Hdot. f_equal.
  - rewrite <- (app_assoc ts).
    replace (Js.len ts + 1) with (Js.len (ts +:+ "-")) by (by rewrite len_app).
    apply js_substring_middle.
  - apply js_substring_prefix.
Qed.

(** X14.  The object built from a file name [<ts>-<name>.<ext>], where [ts]
    is made of digits and [ext] has no dot, has the timestamp [ts] and the
    name [name], whatever dashes and dots [name] has. *)
Theorem parse_parts (ts name ext : string) :
  digits ts → lacks "." ext →
  parse (ts +:+ "-" +:+ name +:+ "." +:+ ext)
  = Candidate.mk name ts (ts +:+ "-" +:+ name +:+ "." +:+ ext).
Proof. apply parse_of_parts. Qed.

(** ** Creating a migration file *)

Lemma one_line_app (s t : string) : one_line (s +:+ t) ↔ one_line s ∧ one_line t.
Proof.
  induction s as [|a s IH]; [rewrite app_nil_l; naive_solver|].
  rewrite app_cons. cbn [one_line]. rewrite IH. naive_solver.
Qed.

Lemma digits_one_line (s : string) : digits s → one_line s.
Proof.
  induction s as [|a s IH]; [done|]. intros [Ha Hs]. split; [|auto].
  unfold Rx.is_digit in Ha. unfold Rx.is_line_terminator.
  destruct (N_of_ascii a =? 10)%N eqn:E1; [apply N.eqb_eq in E1; rewrite E1 in Ha; done|].
  destruct (N_of_ascii a =? 13)%N eqn:E2; [apply N.eqb_eq in E2; rewrite E2 in Ha; done|].
  done.
Qed.

Lemma migration_file_one_line (file : string) :
  Rx.matches rxMigrationFile file = true → one_line file.
Proof.
  intros (ts & name & ext & -> & _ & Hd & Hname & Hext)%matches_iff.
  rewrite !one_line_app. split; [by apply digits_one_line|].
  split; [done|]. split; [done|]. split; [done|].
  by destruct Hext as [-> | ->].
Qed.

Lemma candidates_app (files1 files2 : list string) :
  candidates (files1 ++ files2) = candidates files1 ++ candidates files2.
Proof. unfold candidates. by rewrite filter_app, fmap_app. Qed.

Section Create.
Context {U : Type}.
Variable path_join : list string → string.
Variable cwd : string.
Variable dirname : string.
Variable now : string.
Variable copyFile : string → string → M U unit.


(** X16.  A file created under a name with a line terminator is never taken
    for a migration file: the scanner passes over it. *)
Theorem created_file_passed_over (name : string) :
  let file := now +:+ "-" +:+ name +:+ ".ts" in
  ¬ one_line name →
  ∀ files, candidates (files ++ [file]) = candidates files.
Proof.
  intros file Hname files. rewrite candidates_app.
  assert (Hm : Rx.matches rxMigrationFile file ≠ true).
  { intros Hm%migration_file_one_line. unfold file in Hm.
    rewrite !one_line_app in Hm. naive_solver. }
  unfold candidates at 2. cbn [filter list_filter].
  rewrite decide_False by (intros H; apply Hm; by destruct (Rx.matches _ _)).
  cbn [fmap list_fmap]. apply List.app_nil_r.
Qed.

End Create.

(** ** The compiled variant and the pool *)

Lemma abrupt_emit {U} (w : World.t U) ev : not_log ev → abrupt (World.emit ev w).
Proof. intros H. exists ev. unfold World.emit. cbn [World.trace]. by rewrite last_snoc. Qed.

Lemma abrupt_not_info {U} chalk (w : World.t U) args :
  abrupt w → last (World.trace w) ≠ Some (info chalk args).
Proof. intros (ev & Hev & Hn) H. rewrite Hev in H. injection H as ->. done. Qed.

Lemma str_app_inv_head (s t u : string) : s +:+ t = s +:+ u → t = u.
Proof.
  induction s as [|a s IH]; [by rewrite !app_nil_l|].
  rewrite !app_cons. intros H. injection H as H. auto.
Qed.

Lemma info_inj chalk a b : info chalk [a] = info chalk [b] → a = b.
Proof.
  unfold info, Js.join. cbn [String.concat]. intros H. injection H as H.
  apply str_app_inv_head in H. by apply str_app_inv_head in H.
Qed.

Lemma run_live {U A} q (f : string → Server → Result A * Server) (w w' : World.t U) r d :
  World.pool w = Some d → R.run q f w = (r, w') →
  World.pool w' = Some d ∧ abrupt w'.
Proof.
  intros Hp. unfold R.run. rewrite Hp. world_simpl.
  destruct (f _ _) as [r' s']. intros H. injection H as <- <-.
  split; [done|]. exists (Run q). world_simpl. by rewrite last_snoc.
Qed.

Lemma mapM_abrupt {U A B} (f : A → M U B) (xs : list A) :
  (∀ x w r w', abrupt w → f x w = (r, w') → World.pool w' = World.pool w ∧ abrupt w') →
  ∀ w r w', abrupt w → mapM f xs w = (r, w') →
            World.pool w' = World.pool w ∧ abrupt w'.
Proof.
  intros Hf. induction xs as [|x xs IH]; intros w r w' Hw H.
  - injection H as <- <-. done.
  - cbn [mapM] in H. rewrite bind_eq in H.
    destruct (f x w) as [[y|e] w1] eqn:E; destruct (Hf _ _ _ _ Hw E) as [Hp1 Ha1].
    + rewrite bind_eq in H.
      destruct (mapM f xs w1) as [[ys|e] w2] eqn:E2;
        destruct (IH _ _ _ Ha1 E2) as [Hp2 Ha2]; injection H as <- <-;
        (split; [congruence | done]).
    + injection H as <- <-. done.
Qed.

Section Live.
Context {U : Type}.
Variable path_join : list string → string.
Variable require : string → Result (MigrationFile.t U).
Variable getConfig : string → Config.t.
Variable cwd : string.
Variable chalk : string → string → string.
Variable params : Params.t.
Implicit Types (w : World.t U).

Local Abbreviation db := (the_db getConfig cwd params).

Lemma load_abrupt p w r w' :
  load require p w = (r, w') → World.pool w' = World.pool w ∧ abrupt w'.
Proof.
  rewrite load_eq. intros H. injection H as <- <-. split; [done|].
  by apply abrupt_emit.
Qed.

Lemma getMigrationsExcept_abrupt latest root n w r w' :
  getMigrationsExcept path_join require latest root n w = (r, w') →
  World.pool w' = World.pool w ∧ abrupt w'.
Proof.
  unfold getMigrationsExcept. rewrite bind_eq. unfold readdir.
  destruct (World.dirs w !! _) as [files|].
  - rewrite bind_eq.
    destruct (mapM _ _ _) as [[codes|e] w1] eqn:E; intros H; injection H as <- <-;
      (eapply mapM_abrupt in E as [Hp Ha];
       [split; [exact Hp | exact Ha]
       |intros x w0 r0 w0' _ H0; by eapply load_abrupt
       |by apply abrupt_emit]).
  - intros H. injection H as <- <-. split; [done|]. by apply abrupt_emit.
Qed.

Lemma requireMigrations_abrupt plan root w r w' :
  abrupt w →
  requireMigrations path_join require plan root w = (r, w') →
  World.pool w' = World.pool w ∧ abrupt w'.
Proof.
  intros Hw. unfold requireMigrations. apply mapM_abrupt; [|done].
  intros [e|] w0 r0 w0' Hw0.
  - rewrite bind_eq. rewrite load_eq.
    destruct (require _) as [code|ex]; intros H; injection H as <- <-;
      (split; [done | by apply abrupt_emit]).
  - intros H. injection H as <- <-. done.
Qed.

Lemma failure_abrupt w tr txt e :
  World.trace w = tr ++ failure chalk txt e → abrupt w.
Proof.
  intros H. unfold abrupt. rewrite H. unfold failure.
  destruct e as [|msg stack].
  - eexists. by rewrite last_snoc.
  - case_decide.
    + eexists. rewrite (last_app_cons _ [_]), last_cons. cbn [last]. done.
    + eexists. rewrite (last_app_cons _ [_; _]). cbn [last]. done.
Qed.

Lemma up_loop_live (ms : list (UpMigration.t U)) w r w' d :
  World.pool w = Some d → up_loop chalk ms w = (r, w') →
  World.pool w' = Some d ∧ (r = Ok Next ∨ abrupt w').
Proof.
  revert w. induction ms as [|m ms IH]; intros w Hp H.
  - injection H as <- <-. auto.
  - rewrite up_loop_cons in H. cbn zeta in H.
    destruct (MigrationFile.up _ _) as [[[]|e] u1]; cbn [fst snd] in H.
    + rewrite bind_eq in H.
      destruct (R.insert _ _ _) as [[[]|e] w2] eqn:E2;
        apply (run_live _ _ _ _ _ d) in E2 as [Hp2 Ha2]; [|done| |done].
      * by eapply IH.
      * injection H as <- <-. auto.
    + injection H as <- <-. split; [done|]. right.
      by eapply failure_abrupt.
Qed.

Lemma down_loop_live (ms : list (DownMigration.t U)) w r w' d :
  World.pool w = Some d → down_loop chalk ms w = (r, w') →
  World.pool w' = Some d ∧ (r = Ok Next ∨ abrupt w').
Proof.
  revert w. induction ms as [|m ms IH]; intros w Hp H.
  - injection H as <- <-. auto.
  - rewrite down_loop_cons in H. cbn zeta in H.
    destruct (MigrationFile.down _ _) as [[[]|e] u1]; cbn [fst snd] in H.
    + rewrite bind_eq in H.
      destruct (R.delete _ _ _) as [[[]|e] w2] eqn:E2;
        apply (run_live _ _ _ _ _ d) in E2 as [Hp2 Ha2]; [|done| |done].
      * by eapply IH.
      * injection H as <- <-. auto.
    + injection H as <- <-. split; [done|]. right.
      by eapply failure_abrupt.
Qed.

(** X17.  The source [up] leaves the pool connected however it ends.  The
    compiled [up] drains the pool exactly in the runs that end with the
    report of success, after that report; in every other run (a thrown
    error, nothing to apply, a failed migration) it ends as the source [up]
    does, with the pool still connected. *)
Theorem compiled_up_drains_after_success_only w :
  ∃ r w',
    up path_join require getConfig cwd chalk params w = (r, w')
    ∧ World.pool w' = Some db
    ∧ ((last (World.trace w') = Some (info chalk ["Migration Successful"])
        ∧ r = Ok tt
        ∧ Lib.up path_join require getConfig cwd chalk params w
          = (Ok tt, World.emit PoolDrain (World.with_pool None w')))
       ∨ (last (World.trace w') ≠ Some (info chalk ["Migration Successful"])
          ∧ Lib.up path_join require getConfig cwd chalk params w = (r, w'))).
Proof.
  unfold up, Lib.up. cbn zeta.
  rewrite (bind_eq (connectToDb _)), connectToDb_eq.
  rewrite (bind_eq (connectToDb _)), connectToDb_eq.
  set (w1 := World.mk _ _ _ _ _).
  assert (Hp1 : World.pool w1 = Some db) by done.
  rewrite !(bind_eq (R.orderBy _ _)).
  destruct (R.orderBy _ _ w1) as [[cm|e] w2] eqn:E2;
    apply (run_live _ _ _ _ _ db) in E2 as [Hp2 Ha2]; try done.
  2:{ eexists _, _. split; [done|]. split; [done|]. right.
      split; [by apply abrupt_not_info | done]. }
  rewrite !(bind_eq (getMigrationsExcept _ _ _ _ _)).
  destruct (getMigrationsExcept _ _ _ _ _ w2) as [[ms|e] w3] eqn:E3;
    apply getMigrationsExcept_abrupt in E3 as [Hp3 Ha3]; rewrite Hp2 in Hp3.
  2:{ eexists _, _. split; [done|]. split; [done|]. right.
      split; [by apply abrupt_not_info | done]. }
  case_decide.
  { rewrite logInfo_eq. eexists _, _. split; [done|]. split; [done|]. right.
    split; [|done]. unfold World.emit. cbn [World.trace]. rewrite last_snoc.
    intros H'. apply (inj Some) in H'. by apply info_inj in H'. }
  rewrite !(bind_eq (up_loop _ _)).
  destruct (up_loop _ _ w3) as [[[]|e] w4] eqn:E4;
    apply (up_loop_live _ _ _ _ db) in E4 as [Hp4 Ha4]; try done.
  - rewrite bind_eq, !logInfo_eq. eexists _, _. split; [done|]. split; [done|].
    left. split; [unfold World.emit; cbn [World.trace]; by rewrite last_snoc|].
    split; [done|]. unfold R.drain, World.emit. cbn [World.pool]. by rewrite Hp4.
  - destruct Ha4 as [?|Ha4]; [done|].
    eexists _, _. split; [done|]. split; [done|]. right.
    split; [by apply abrupt_not_info | done].
  - destruct Ha4 as [?|Ha4]; [done|].
    eexists _, _. split; [done|]. split; [done|]. right.
    split; [by apply abrupt_not_info | done].
Qed.

(** X18.  The source [down] leaves the pool connected however it ends.  The
    compiled [down] drains the pool exactly in the runs that end with the
    report of success, after that report; in every other run (a thrown
    error, an empty ledger, a failed rollback) it ends as the source [down]
    does, with the pool still connected. *)
Theorem compiled_down_drains_after_success_only w :
  ∃ r w',
    down path_join require getConfig cwd chalk params w = (r, w')
    ∧ World.pool w' = Some db
    ∧ ((last (World.trace w') = Some (info chalk ["Migration successful"])
        ∧ r = Ok tt
        ∧ Lib.down path_join require getConfig cwd chalk params w
          = (Ok tt, World.emit PoolDrain (World.with_pool None w')))
       ∨ (last (World.trace w') ≠ Some (info chalk ["Migration successful"])
          ∧ Lib.down path_join require getConfig cwd chalk params w = (r, w'))).
Proof.
  unfold down, Lib.down. cbn zeta.
  rewrite (bind_eq (connectToDb _)), connectToDb_eq.
  rewrite (bind_eq (connectToDb _)), connectToDb_eq.
  set (w1 := World.mk _ _ _ _ _).
  assert (Hp1 : World.pool w1 = Some db) by done.
  rewrite !(bind_eq (R.orderBy _ _)).
  destruct (R.orderBy _ _ w1) as [[cm|e] w2] eqn:E2;
    apply (run_live _ _ _ _ _ db) in E2 as [Hp2 Ha2]; try done.
  2:{ eexists _, _. split; [done|]. split; [done|]. right.
      split; [by apply abrupt_not_info | done]. }
  case_decide.
  { rewrite logInfo_eq. eexists _, _. split; [done|]. split; [done|]. right.
    split; [|done]. unfold World.emit. cbn [World.trace]. rewrite last_snoc.
    intros H'. apply (inj Some) in H'. by apply info_inj in H'. }
  rewrite !(bind_eq (requireMigrations _ _ _ _)).
  destruct (requireMigrations _ _ _ _ w2) as [[ms|e] w3] eqn:E3;
    apply requireMigrations_abrupt in E3 as [Hp3 Ha3]; try done; rewrite Hp2 in Hp3.
  2:{ eexists _, _. split; [done|]. split; [done|]. right.
      split; [by apply abrupt_not_info | done]. }
  rewrite !(bind_eq (down_loop _ _)).
  destruct (down_loop _ _ w3) as [[[]|e] w4] eqn:E4;
    apply (down_loop_live _ _ _ _ db) in E4 as [Hp4 Ha4]; try done.
  - rewrite bind_eq, !logInfo_eq. eexists _, _. split; [done|]. split; [done|].
    left. split; [unfold World.emit; cbn [World.trace]; by rewrite last_snoc|].
    split; [done|]. unfold R.drain, World.emit. cbn [World.pool]. by rewrite Hp4.
  - destruct Ha4 as [?|Ha4]; [done|].
    eexists _, _. split; [done|]. split; [done|]. right.
    split; [by apply abrupt_not_info | done].
  - destruct Ha4 as [?|Ha4]; [done|].
    eexists _, _. split; [done|]. split; [done|]. right.
    split; [by apply abrupt_not_info | done].
Qed.

End Live.

(** ** The command line *)

Section Cli.
Variable path_resolve : string → string.
Variable cwd : string.

(** X19.  The flag [--all] only guards against [--one]: two command lines
    that differ in the value of [--all] alone take the same action, unless
    one of them has both flags set.  Without [--one] an [up] or [down]
    command runs with [all] set, whatever [--all] is; with both flags set no
    migration function is called. *)
Theorem all_flag_only_guards (input : list string) (a v o r : Cli.Value) :
  (Cli.truthy a && Cli.truthy o = false →
   Cli.truthy v && Cli.truthy o = false →
   Cli.main path_resolve cwd input (Cli.mkFlags v o r)
   = Cli.main path_resolve cwd input (Cli.mkFlags a o r))
  ∧ (Cli.truthy o = false →
     ∀ config,
       Cli.main path_resolve cwd input (Cli.mkFlags a o r) = Cli.CallUp config
       ∨ Cli.main path_resolve cwd input (Cli.mkFlags a o r) = Cli.CallDown config →
       Params.all config = Some true)
  ∧ (Cli.truthy a && Cli.truthy o = true →
     ∀ config,
       Cli.main path_resolve cwd input (Cli.mkFlags a o r) ≠ Cli.CallUp config
       ∧ Cli.main path_resolve cwd input (Cli.mkFlags a o r) ≠ Cli.CallDown config).
Proof.
  unfold Cli.main, Cli.pathname. cbn [Cli.all Cli.one Cli.root].
  split; [|split].
  - intros -> ->. done.
  - intros Ho config. rewrite Ho, andb_false_r. cbn [negb].
    destruct (Cli.truthy r); [destruct r|]; repeat case_decide; naive_solver.
  - intros ->.
    destruct (Cli.truthy r); [destruct r|]; repeat case_decide; naive_solver.
Qed.

End Cli.

(** ** What a run leaves alone *)

Lemma frame_refl db (s : Server) : frame db s s.
Proof. by split. Qed.

Lemma frame_trans db (s1 s2 s3 : Server) : frame db s1 s2 → frame db s2 s3 → frame db s1 s3.
Proof.
  intros [H1 H2] [H3 H4]. split.
  - intros d Hd. by rewrite H3, H1.
  - intros tb Htb. by rewrite H4, H2.
Qed.

Lemma frame_with_db db (s : Server) : frame db s (with_db db s).
Proof.
  unfold with_db. destruct (s !! db) eqn:E; [apply frame_refl|]. split.
  - intros d Hd. by rewrite lookup_insert_ne.
  - intros tb _. unfold get_table. by rewrite lookup_insert_eq, E.
Qed.

Lemma frame_set_table db t (s : Server) :
  frame db s (set_table db MIGRATION_TABLE_NAME t s).
Proof.
  unfold set_table. destruct (s !! db) as [tables|] eqn:E; [|apply frame_refl]. split.
  - intros d Hd. by rewrite lookup_insert_ne.
  - intros tb Htb. unfold get_table. rewrite lookup_insert_eq, E. simpl.
    by rewrite lookup_insert_ne.
Qed.

Lemma frame_boot db (s : Server) : frame db s (boot_server db s).
Proof.
  unfold boot_server. destruct (ledger_table _ _).
  - apply frame_with_db.
  - eapply frame_trans; [apply frame_with_db | apply frame_set_table].
Qed.

Lemma keeps_refl {U} db (w : World.t U) : World.pool w = Some db → keeps db w w.
Proof. intros Hp. split; [done|]. split; [done|]. apply frame_refl. Qed.

Lemma keeps_trans {U} db (w1 w2 w3 : World.t U) :
  keeps db w1 w2 → keeps db w2 w3 → keeps db w1 w3.
Proof.
  intros (_ & Hd1 & Hf1) (Hp2 & Hd2 & Hf2). split; [done|].
  split; [congruence|]. by eapply frame_trans.
Qed.

Lemma Keeps_bind {U A B} db (m : M U A) (k : A → M U B) :
  Keeps db m → (∀ a, Keeps db (k a)) → Keeps db (m ≫= k).
Proof.
  intros Hm Hk w Hp. rewrite bind_eq. specialize (Hm w Hp).
  destruct (m w) as [[a|e] w1]; cbn [snd] in Hm; [|done].
  eapply keeps_trans; [exact Hm|]. apply Hk. by destruct Hm.
Qed.

Lemma Keeps_ret {U A} db (a : A) : Keeps db (mret a : M U A).
Proof. intros w Hp. by apply keeps_refl. Qed.

Lemma Keeps_throw {U A} db e : Keeps db (throw e : M U A).
Proof. intros w Hp. by apply keeps_refl. Qed.

Lemma Keeps_emit {U} db ev : Keeps db (emit ev : M U unit).
Proof. intros w Hp. split; [done|]. split; [done|]. apply frame_refl. Qed.

Lemma Keeps_run {U A} db q (f : string → Server → Result A * Server) :
  (∀ s, frame db s (f db s).2) → Keeps db (R.run q f : M U A).
Proof.
  intros Hf w Hp. rewrite (run_eq q f w db Hp). cbn [snd].
  split; [done|]. split; [done|]. apply Hf.
Qed.

Lemma Keeps_orderBy {U} db index : Keeps db (R.orderBy (U:=U) MIGRATION_TABLE_NAME index).
Proof.
  apply Keeps_run. intros s. destruct (get_table _ _ _); [case_decide|]; apply frame_refl.
Qed.

Lemma Keeps_insert {U} db doc : Keeps db (R.insert (U:=U) MIGRATION_TABLE_NAME doc).
Proof.
  apply Keeps_run. intros s.
  destruct (get_table _ _ _); [apply frame_set_table | apply frame_refl].
Qed.

Lemma Keeps_delete {U} db id : Keeps db (R.delete (U:=U) MIGRATION_TABLE_NAME id).
Proof.
  apply Keeps_run. intros s.
  destruct (get_table _ _ _); [apply frame_set_table | apply frame_refl].
Qed.

Lemma Keeps_mapM {U A B} db (f : A → M U B) (xs : list A) :
  (∀ x, Keeps db (f x)) → Keeps db (mapM f xs).
Proof.
  intros Hf. induction xs as [|x xs IH]; [apply Keeps_ret|].
  cbn [mapM]. apply Keeps_bind; [done|]. intros y.
  apply Keeps_bind; [done|]. intros ys. apply Keeps_ret.
Qed.

Section Frame.
Context {U : Type}.
Variable path_join : list string → string.
Variable require : string → Result (MigrationFile.t U).
Variable getConfig : string → Config.t.
Variable cwd : string.
Variable chalk : string → string → string.
Variable params : Params.t.
Implicit Types (w : World.t U).

Local Abbreviation db := (the_db getConfig cwd params).

Lemma Keeps_load d p : Keeps d (load require p).
Proof. intros w Hp. split; [done|]. split; [done|]. apply frame_refl. Qed.

Lemma Keeps_invoke d dir f (fn : MigrationFn U) : Keeps d (invoke dir f fn).
Proof.
  intros w Hp. rewrite invoke_eq. split; [done|]. split; [done|]. apply frame_refl.
Qed.

Lemma Keeps_logInfo d args : Keeps d (logInfo (U:=U) chalk args).
Proof. apply Keeps_emit. Qed.

Lemma Keeps_logError d txt e : Keeps d (logError (U:=U) chalk txt e).
Proof.
  intros w Hp. rewrite logError_eq. split; [done|]. split; [done|]. apply frame_refl.
Qed.

Lemma Keeps_getMigrationsExcept d latest root n :
  Keeps d (getMigrationsExcept path_join require latest root n).
Proof.
  unfold getMigrationsExcept. apply Keeps_bind.
  - intros w Hp. unfold readdir.
    destruct (World.dirs w !! _); (split; [done|]; split; [done|]; apply frame_refl).
  - intros files. apply Keeps_bind; [|intros codes; apply Keeps_ret].
    apply Keeps_mapM. intros c. apply Keeps_load.
Qed.

Lemma Keeps_requireMigrations d plan root :
  Keeps d (requireMigrations path_join require plan root).
Proof.
  unfold requireMigrations. apply Keeps_mapM. intros [e|]; [|apply Keeps_throw].
  apply Keeps_bind; [apply Keeps_load|]. intros code. apply Keeps_ret.
Qed.

Lemma Keeps_up_loop d (ms : list (UpMigration.t U)) : Keeps d (up_loop chalk ms).
Proof.
  induction ms as [|m ms IH]; [apply Keeps_ret|].
  cbn [up_loop]. apply Keeps_bind; [apply Keeps_logInfo|]. intros _.
  apply Keeps_bind.
  - intros w Hp. unfold attempt.
    pose proof (Keeps_invoke d Up (UpMigration.filename m)
                  (MigrationFile.up (UpMigration.code m)) w Hp) as H.
    by destruct (invoke _ _ _ w).
  - intros [[]|e].
    + apply Keeps_bind; [apply Keeps_insert|]. by intros _.
    + apply Keeps_bind; [apply Keeps_logError|]. intros _. apply Keeps_ret.
Qed.

Lemma Keeps_down_loop d (ms : list (DownMigration.t U)) : Keeps d (down_loop chalk ms).
Proof.
  induction ms as [|m ms IH]; [apply Keeps_ret|].
  cbn [down_loop]. apply Keeps_bind; [apply Keeps_logInfo|]. intros _.
  apply Keeps_bind.
  - intros w Hp. unfold attempt.
    pose proof (Keeps_invoke d Down (DownMigration.filename m)
                  (MigrationFile.down (DownMigration.code m)) w Hp) as H.
    by destruct (invoke _ _ _ w).
  - intros [[]|e].
    + apply Keeps_bind; [apply Keeps_delete|]. by intros _.
    + apply Keeps_bind; [apply Keeps_logError|]. intros _. apply Keeps_ret.
Qed.

(** X21.  However a run of [up] or of [down] ends, the queries of the tool
    change nothing on the server but the bookkeeping table of the configured
    database, which they create with that database when absent: every other
    database and every other table of that database is as before, and so
    are the directories; the pool is left connected to that database. *)
Theorem touches_only_the_ledger w :
  keeps db w (up path_join require getConfig cwd chalk params w).2
  ∧ keeps db w (down path_join require getConfig cwd chalk params w).2.
Proof.
  split.
  - unfold up. cbn zeta. erewrite bind_ok by apply connectToDb_eq.
    eapply keeps_trans; cycle 1.
    + apply Keeps_bind; [apply Keeps_orderBy| |done]. intros cm.
      apply Keeps_bind; [apply Keeps_getMigrationsExcept|]. intros ms.
      case_decide; [apply Keeps_logInfo|].
      apply Keeps_bind; [apply Keeps_up_loop|].
      intros []; [apply Keeps_logInfo | apply Keeps_ret].
    + split; [reflexivity|]. split; [reflexivity|]. apply frame_boot.
  - unfold down. cbn zeta. erewrite bind_ok by apply connectToDb_eq.
    eapply keeps_trans; cycle 1.
    + apply Keeps_bind; [apply Keeps_orderBy| |done]. intros cm.
      case_decide; [apply Keeps_logInfo|].
      apply Keeps_bind; [apply Keeps_requireMigrations|]. intros ms.
      apply Keeps_bind; [apply Keeps_down_loop|].
      intros []; [apply Keeps_logInfo | apply Keeps_ret].
    + split; [reflexivity|]. split; [reflexivity|]. apply frame_boot.
Qed.

End Frame.

(** ** Timestamps are compared as numbers *)

Lemma num_of_bound (s : string) :
  digits s → 0 ≤ num_of s < 10 ^ Z.of_nat (String.length s).
Proof.
  induction s as [|a s IH]; [intros _; simpl; lia|]. intros [Ha Hs].
  specialize (IH Hs). cbn [num_of String.length].
  rewrite Nat2Z.inj_succ, Z.pow_succ_r by lia.
  unfold Rx.is_digit in Ha. apply andb_true_iff in Ha as [H1 H2].
  apply N.leb_le in H1, H2. nia.
Qed.

Lemma compare_num_of (a b : string) :
  digits a → digits b → String.length a = String.length b →
  String.compare a b = (num_of a ?= num_of b).
Proof.
  revert b. induction a as [|x a IH]; intros [|y b] Ha Hb Hlen; try done.
  destruct Ha as [Hx Ha], Hb as [Hy Hb]. injection Hlen as Hlen.
  cbn [String.compare num_of]. rewrite Hlen.
  pose proof (num_of_bound a Ha) as Ba. pose proof (num_of_bound b Hb) as Bb.
  rewrite Hlen in Ba.
  unfold Rx.is_digit in Hx, Hy.
  apply andb_true_iff in Hx as [Hx1 Hx2]. apply andb_true_iff in Hy as [Hy1 Hy2].
  apply N.leb_le in Hx1, Hx2, Hy1, Hy2.
  unfold Ascii.compare.
  destruct (N.compare_spec (N_of_ascii x) (N_of_ascii y)) as [E|E|E].
  - rewrite E, Z.add_compare_mono_l. by apply IH.
  - symmetry. apply Z.compare_lt_iff. nia.
  - symmetry. apply Z.compare_gt_iff. nia.
Qed.

(** X22.  Between timestamps that are strings of digits of one length, as
    those of migration files are, the comparison that selects the pending
    candidates is the comparison of the numbers they denote: a candidate is
    newer than the latest entry exactly when its timestamp is the greater
    number. *)
Theorem newer_is_later (latest : Migration.t) (migration : Candidate.t) :
  digits (Migration.timestamp latest) →
  digits (Candidate.timestamp migration) →
  String.length (Migration.timestamp latest)
  = String.length (Candidate.timestamp migration) →
  is_newer (Some latest) migration = true
  ↔ num_of (Migration.timestamp latest) < num_of (Candidate.timestamp migration).
Proof.
  intros Hl Hm Hlen. unfold is_newer, Js.gt, String.ltb.
  rewrite (compare_num_of _ _ Hl Hm Hlen).
  destruct (Z.compare_spec (num_of (Migration.timestamp latest))
              (num_of (Candidate.timestamp migration))); split; (done || lia).
Qed.

(** ** The properties above, on concrete runs *)

Lemma up_applies_the_plan_witness :
  ∃ w',
    Scenario.run_up Scenario.up_all
      (Scenario.world ["20230101000000-init.ts"; "20230103000000-index.ts"]) = (Ok tt, w')
    ∧ World.user w' = 2%nat.
Proof.
  destruct (up_applies_the_plan Scenario.path_join Scenario.require Scenario.getConfig
              Scenario.cwd Scenario.chalk Scenario.up_all
              (Scenario.world ["20230101000000-init.ts"; "20230103000000-index.ts"])
              fresh_table
              ["20230101000000-init.ts"; "20230103000000-index.ts"]
              [Scenario.good; Scenario.good] 2%nat)
    as (w' & evs & Hup & _ & _ & _ & _ & _ & _ & _ & Huser & _).
  - by vm_compute.
  - by vm_compute.
  - by vm_compute.
  - repeat constructor.
  - by vm_compute.
  - exists w'. split; [exact Hup | exact Huser].
Defined.

Lemma down_all_empties_the_ledger_witness :
  ∃ w',
    Scenario.run_down Scenario.up_all
      (Scenario.migrated {[1%positive := Doc.mk "init" "20230101000000";
                           3%positive := Doc.mk "index" "20230103000000"]} [])
    = (Ok tt, w')
    ∧ ledger_docs "test" (World.server w') = ∅.
Proof.
  destruct (down_all_empties_the_ledger Scenario.path_join Scenario.require
              Scenario.getConfig Scenario.cwd Scenario.chalk Scenario.up_all
              (Scenario.migrated {[1%positive := Doc.mk "init" "20230101000000";
                                   3%positive := Doc.mk "index" "20230103000000"]} [])
              (Table.mk {[1%positive := Doc.mk "init" "20230101000000";
                          3%positive := Doc.mk "index" "20230103000000"]}
                 {["timestamp"]})
              [Scenario.good; Scenario.good] 1%nat)
    as (w' & evs & Hdown & _ & _ & _ & _ & Hdocs & _).
  - reflexivity.
  - by vm_compute.
  - by vm_compute.
  - repeat constructor.
  - by vm_compute.
  - exists w'. split; [exact Hdown | exact Hdocs].
Defined.

Lemma down_one_removes_the_last_witness :
  ∃ w',
    Scenario.run_down Scenario.up_one
      (Scenario.migrated {[1%positive := Doc.mk "init" "20230101000000";
                           3%positive := Doc.mk "index" "20230103000000"]} [])
    = (Ok tt, w')
    ∧ World.user w' = 2%nat.
Proof.
  destruct (down_one_removes_the_last Scenario.path_join Scenario.require
              Scenario.getConfig Scenario.cwd Scenario.chalk Scenario.up_one
              (Scenario.migrated {[1%positive := Doc.mk "init" "20230101000000";
                                   3%positive := Doc.mk "index" "20230103000000"]} [])
              (Table.mk {[1%positive := Doc.mk "init" "20230101000000";
                          3%positive := Doc.mk "index" "20230103000000"]}
                 {["timestamp"]})
              (Migration.mk 3 "index" "20230103000000") Scenario.good 2%nat)
    as (w' & evs & Hdown & _ & _ & _ & _ & _ & _ & Huser).
  - discriminate.
  - by vm_compute.
  - by vm_compute.
  - by vm_compute.
  - by vm_compute.
  - reflexivity.
  - exists w'. split; [exact Hdown | exact Huser].
Defined.

Lemma up_load_failure_witness :
  ∃ w',
    Scenario.run_up Scenario.up_all
      (Scenario.world ["20230101000000-init.ts"; "20230105000000-gone.ts"])
    = (Throw (Exn.Object "Cannot find module /app/migrations/20230105000000-gone.ts" ""),
       w')
    ∧ World.user w' = 0%nat.
Proof.
  destruct (up_load_failure Scenario.path_join Scenario.require Scenario.getConfig
              Scenario.cwd Scenario.chalk Scenario.up_all
              (Scenario.world ["20230101000000-init.ts"; "20230105000000-gone.ts"])
              fresh_table
              ["20230101000000-init.ts"; "20230105000000-gone.ts"]
              [Candidate.mk "init" "20230101000000" "20230101000000-init.ts"]
              (Candidate.mk "gone" "20230105000000" "20230105000000-gone.ts")
              []
              [Scenario.good]
              (Exn.Object "Cannot find module /app/migrations/20230105000000-gone.ts" ""))
    as (w' & evs & Hup & _ & _ & _ & _ & _ & _ & Huser).
  - by vm_compute.
  - by vm_compute.
  - by vm_compute.
  - by vm_compute.
  - repeat constructor.
  - by vm_compute.
  - exists w'. split; [exact Hup | exact Huser].
Defined.

Lemma down_load_failure_witness :
  ∃ w',
    Scenario.run_down Scenario.up_one
      (Scenario.migrated {[1%positive := Doc.mk "ghost" "20230101000000"]} [])
    = (Throw (Exn.Object "Cannot find module /app/migrations/20230101000000-ghost" ""), w')
    ∧ World.user w' = 3%nat.
Proof.
  destruct (down_load_failure Scenario.path_join Scenario.require Scenario.getConfig
              Scenario.cwd Scenario.chalk Scenario.up_one
              (Scenario.migrated {[1%positive := Doc.mk "ghost" "20230101000000"]} [])
              (Table.mk {[1%positive := Doc.mk "ghost" "20230101000000"]} {["timestamp"]})
              [] (Migration.mk 1 "ghost" "20230101000000") [] []
              (Exn.Object "Cannot find module /app/migrations/20230101000000-ghost" ""))
    as (w' & evs & Hdown & _ & _ & _ & _ & _ & _ & Huser).
  - by vm_compute.
  - by vm_compute.
  - by vm_compute.
  - constructor.
  - by vm_compute.
  - exists w'. split; [exact Hdown | exact Huser].
Defined.

Lemma up_unreadable_directory_witness :
  ∃ w',
    Scenario.run_up Scenario.up_all (World.mk ∅ None 0%nat ∅ [])
    = (Throw (Exn.Object "ENOENT: no such file or directory" ""), w')
    ∧ World.server w' = boot_server "test" ∅.
Proof.
  destruct (up_unreadable_directory Scenario.path_join Scenario.require Scenario.getConfig
              Scenario.cwd Scenario.chalk Scenario.up_all
              (World.mk ∅ None 0%nat ∅ []) fresh_table)
    as (w' & evs & Hup & _ & _ & _ & _ & Hserver).
  - by vm_compute.
  - by vm_compute.
  - by vm_compute.
  - exists w'. split; [exact Hup | exact Hserver].
Defined.

Lemma parse_parts_witness :
  parse "20230101000000-add-users.v2.ts"
  = Candidate.mk "add-users.v2" "20230101000000" "20230101000000-add-users.v2.ts".
Proof.
  apply (parse_parts "20230101000000" "add-users.v2" "ts").
  - by vm_compute.
  - by vm_compute.
Defined.


Lemma created_file_passed_over_witness :
  candidates ["20230101000000-init.ts";
              "20230107120000" +:+ "-" +:+ String "010" "users" +:+ ".ts"]
  = candidates ["20230101000000-init.ts"].
Proof.
  apply (created_file_passed_over "20230107120000" (String "010" "users")
           (λ H, Bool.diff_true_false (proj1 H)) ["20230101000000-init.ts"]).
Defined.

Lemma all_flag_only_guards_witness :
  Cli.main id "/app" ["up"] (Cli.mkFlags (Cli.Bool true) Cli.Undefined Cli.Undefined)
  = Cli.main id "/app" ["up"] (Cli.mkFlags Cli.Undefined Cli.Undefined Cli.Undefined).
Proof.
  apply (proj1 (all_flag_only_guards id "/app" ["up"] Cli.Undefined (Cli.Bool true)
                  Cli.Undefined Cli.Undefined)).
  - reflexivity.
  - reflexivity.
Defined.

Lemma newer_is_later_witness :
  is_newer (Some (Migration.mk 1 "init" "20230101000000"))
    (Candidate.mk "index" "20230103000000" "20230103000000-index.ts") = true.
Proof.
  apply (newer_is_later (Migration.mk 1 "init" "20230101000000")
           (Candidate.mk "index" "20230103000000" "20230103000000-index.ts")).
  - by vm_compute.
  - by vm_compute.
  - reflexivity.
  - by vm_compute.
Defined.

Lemma one_at_a_time_witness :
  ∃ evs,
    World.trace
      (Scenario.run_up Scenario.up_one
         (Scenario.world ["20230101000000-init.ts"; "20230103000000-index.ts"])).2
    = [] ++ evs
    ∧ (length (invoked evs) ≤ 1)%nat.
Proof.
  destruct (one_at_a_time Scenario.path_join Scenario.require Scenario.getConfig
              Scenario.cwd Scenario.chalk Scenario.up_one
              (Scenario.world ["20230101000000-init.ts"; "20230103000000-index.ts"]))
    as [(evs & Htrace & Hinv & _) _].
  - discriminate.
  - exists evs. split; [exact Htrace | exact Hinv].
Defined.
